(** * id_generator.py: fields, bit packing and the counter store

    A shallow embedding of [src/id_generator.py].  Python integers are [Z],
    strings are [string], dictionaries are [gmap]s, exceptions are the
    [Raise] branch of [result]; the code that reads the clock, draws random
    numbers or writes a cache runs in the monad [M] over a [world].

    The first part holds the definitions: the builtins and the pieces of
    the [datetime] library the module calls, then the field classes and
    [IdGenerator].  The second part holds the properties. *)

From Stdlib Require Import ZArith Lia Ascii.
From stdpp Require Import base option list strings pretty gmap.

Local Open Scope Z_scope.

(** * Part I: the program *)

(** ** Exceptions *)

(** One constructor per [raise] statement of the module and per failing
    builtin or library call it makes. *)
Inductive exn : Type :=
  | NegativeShiftCount
      (* ValueError of [1 << bits] when [bits < 0] *)
  | PartsLengthMismatch
      (* ValueError 'the number of parts must be the same with fields' *)
  | PartOutOfBits (number bits mask : Z)
      (* ValueError 'number .. is out of its bits range (..)' *)
  | HighestNotZero (rest : Z)
      (* ValueError 'the highest not used part is not 0, but ..' *)
  | FieldOutOfRange (name : string) (number : Z)
      (* ValueError 'field .. number .. is out of range' *)
  | InvalidLiteral (text : string)
      (* ValueError of [int(text)]: no decimal literal, or one of more
         digits than the conversion limit *)
  | StrptimeTypeError
      (* TypeError of [strptime] on a value that is not a string *)
  | BadDirective (format : string)
      (* ValueError of [strptime] on a format it cannot compile *)
  | TimeDataMismatch (text format : string)
      (* ValueError 'time data .. does not match format ..' *)
  | UnconvertedData (rest : string)
      (* ValueError 'unconverted data remains: ..' *)
  | DateFieldOutOfRange
      (* ValueError of the date constructor: year, month or day *)
  | TimeFieldOutOfRange
      (* ValueError of the time constructor: hour, minute or second *)
  | OverflowError
      (* OverflowError of timedelta and datetime arithmetic *)
  | EmptyRange
      (* ValueError of [randint(a, b)] when [b < a] *)
  | KeyError (key : string)
  | IndexError
  | DigitLimitExceeded.
      (* ValueError of [str(n)]: more digits than the conversion limit *)

Inductive result (A : Type) : Type :=
  | Ok (a : A)
  | Raise (e : exn).
Arguments Ok {A} a.
Arguments Raise {A} e.

Global Instance result_ret : MRet result := @Ok.
Global Instance result_bind : MBind result := λ A B f m,
  match m with
  | Ok a => f a
  | Raise e => Raise e
  end.

Definition is_Ok {A} (r : result A) : Prop := ∃ a, r = Ok a.

(** [for x in xs] collecting results, stopping at the first exception. *)
Fixpoint for_each {A B} (f : A → result B) (xs : list A) : result (list B) :=
  match xs with
  | [] => Ok []
  | x :: rest => y ← f x; ys ← for_each f rest; Ok (y :: ys)
  end.

(** ** Builtins: characters, [int] and [str] *)

(** Strings are modelled as ASCII text: [\d] and [\s] of the Unicode
    tables are the ASCII digits and the ASCII white space here. *)
Definition code (a : ascii) : Z := Z.of_N (Ascii.N_of_ascii a).

Definition is_digit (a : ascii) : bool := (48 <=? code a) && (code a <=? 57).

Definition is_space (a : ascii) : bool :=
  ((9 <=? code a) && (code a <=? 13)) || ((28 <=? code a) && (code a <=? 32)).

Definition digit_val (a : ascii) : Z := code a - 48.

Definition digit_char (d : Z) : ascii := Ascii.ascii_of_N (Z.to_N (48 + d)).

Definition in_range (lo hi : ascii) (a : ascii) : bool :=
  (code lo <=? code a) && (code a <=? code hi).

(** The white space that [int] skips around a literal is that of the C
    locale: tab to carriage return, and the blank. *)
Definition is_c_space (a : ascii) : bool :=
  ((9 <=? code a) && (code a <=? 13)) || (code a =? 32).

Fixpoint lstrip (s : string) : string :=
  match s with
  | String a rest => if is_c_space a then lstrip rest else s
  | EmptyString => EmptyString
  end.

Definition strip (s : string) : string :=
  String.rev (lstrip (String.rev (lstrip s))).

(** The digits of a decimal literal after the first one; a single
    underscore may separate two digits. *)
Fixpoint literal_digits (acc : Z) (after_underscore : bool) (s : string)
    : option Z :=
  match s with
  | EmptyString => if after_underscore then None else Some acc
  | String a rest =>
      if is_digit a then literal_digits (acc * 10 + digit_val a) false rest
      else if Ascii.eqb a "_" then
        if after_underscore then None else literal_digits acc true rest
      else None
  end.

Definition literal (s : string) : option Z :=
  match s with
  | String a rest =>
      if is_digit a then literal_digits (digit_val a) false rest else None
  | EmptyString => None
  end.

(** The default of [sys.get_int_max_str_digits()]: conversions between
    [int] and [str] refuse numbers of more decimal digits. *)
Definition MAX_STR_DIGITS : Z := 4300.

Fixpoint count_digits (s : string) : Z :=
  match s with
  | EmptyString => 0
  | String a rest => (if is_digit a then 1 else 0) + count_digits rest
  end.

(** [int(text)] in base ten: white space around, an optional sign, digits,
    no more of them than the limit. *)
Definition int_of_str (text : string) : result Z :=
  let parsed :=
    match strip text with
    | String "-" body => Z.opp <$> literal body
    | String "+" body => literal body
    | body => literal body
    end in
  match parsed with
  | Some n =>
      if MAX_STR_DIGITS <? count_digits text
      then Raise (InvalidLiteral text)
      else Ok n
  | None => Raise (InvalidLiteral text)
  end.

(** The raw value of a field: [typing.Union[int, str]]. *)
Inductive value : Type :=
  | VInt (n : Z)
  | VStr (s : string).

Definition int (v : value) : result Z :=
  match v with
  | VInt n => Ok n
  | VStr s => int_of_str s
  end.

(** [str(v)]: the decimal text of an integer, refused beyond the limit of
    digits; a string is itself. *)
Definition str (v : value) : result string :=
  match v with
  | VInt n =>
      if MAX_STR_DIGITS <? count_digits (pretty n)
      then Raise DigitLimitExceeded
      else Ok (pretty n)
  | VStr s => Ok s
  end.

(** [sep.join(parts)] *)
Fixpoint join (sep : string) (parts : list string) : string :=
  match parts with
  | [] => ""
  | [part] => part
  | part :: rest => part +:+ sep +:+ join sep rest
  end.

(** [divmod(a, b)] for a positive [b]. *)
Definition divmod (a b : Z) : Z * Z := (a / b, a mod b).

(** ** The [datetime] library *)

(** The calendar arithmetic and the classes [datetime], [time] and
    [timedelta], at the resolution of one second: the module never reads a
    microsecond, and [base] is a whole-second instant in every generator it
    builds.  All instants are naive (no time zone). *)

Definition MINYEAR : Z := 1.
Definition MAXYEAR : Z := 9999.
Definition _MAXORDINAL : Z := 3652059.

Definition _DAYS_IN_MONTH : list Z :=
  [-1; 31; 28; 31; 30; 31; 30; 31; 31; 30; 31; 30; 31].

Definition _DAYS_BEFORE_MONTH : list Z :=
  [-1; 0; 31; 59; 90; 120; 151; 181; 212; 243; 273; 304; 334].

(** [table[i]] for an index inside the table. *)
Definition getitem (table : list Z) (i : Z) : Z := table !!! Z.to_nat i.

Definition _is_leap (year : Z) : bool :=
  (year mod 4 =? 0) && (negb (year mod 100 =? 0) || (year mod 400 =? 0)).

Definition _days_before_year (year : Z) : Z :=
  let y := year - 1 in
  y * 365 + y / 4 - y / 100 + y / 400.

Definition _days_in_month (year month : Z) : Z :=
  if (month =? 2) && _is_leap year then 29
  else getitem _DAYS_IN_MONTH month.

Definition _days_before_month (year month : Z) : Z :=
  getitem _DAYS_BEFORE_MONTH month
  + (if (2 <? month) && _is_leap year then 1 else 0).

Definition _ymd2ord (year month day : Z) : Z :=
  _days_before_year year + _days_before_month year month + day.

Definition _DI400Y : Z := 146097.
Definition _DI100Y : Z := 36524.
Definition _DI4Y : Z := 1461.

Definition _ord2ymd (n : Z) : Z * Z * Z :=
  let n := n - 1 in
  let '(n400, n) := divmod n _DI400Y in
  let year := n400 * 400 + 1 in
  let '(n100, n) := divmod n _DI100Y in
  let '(n4, n) := divmod n _DI4Y in
  let '(n1, n) := divmod n 365 in
  let year := year + (n100 * 100 + n4 * 4 + n1) in
  if (n1 =? 4) || (n100 =? 4) then (year - 1, 12, 31)
  else
    let leapyear := (n1 =? 3) && (negb (n4 =? 24) || (n100 =? 3)) in
    let month := Z.shiftr (n + 50) 5 in
    let preceding :=
      getitem _DAYS_BEFORE_MONTH month
      + (if (2 <? month) && leapyear then 1 else 0) in
    if n <? preceding then
      let month := month - 1 in
      let preceding :=
        preceding - (getitem _DAYS_IN_MONTH month
                     + (if (month =? 2) && leapyear then 1 else 0)) in
      (year, month, n - preceding + 1)
    else (year, month, n - preceding + 1).

Definition _check_date_fields (year month day : Z) : result unit :=
  if negb ((MINYEAR <=? year) && (year <=? MAXYEAR)) then Raise DateFieldOutOfRange
  else if negb ((1 <=? month) && (month <=? 12)) then Raise DateFieldOutOfRange
  else
    let dim := _days_in_month year month in
    if negb ((1 <=? day) && (day <=? dim)) then Raise DateFieldOutOfRange
    else Ok ().

Definition _check_time_fields (hour minute second : Z) : result unit :=
  if negb ((0 <=? hour) && (hour <=? 23)) then Raise TimeFieldOutOfRange
  else if negb ((0 <=? minute) && (minute <=? 59)) then Raise TimeFieldOutOfRange
  else if negb ((0 <=? second) && (second <=? 59)) then Raise TimeFieldOutOfRange
  else Ok ().

Record datetime : Type := {
  year : Z; month : Z; day : Z;
  hour : Z; minute : Z; second : Z;
}.

Record time : Type := {
  time_hour : Z; time_minute : Z; time_second : Z;
}.

(** A normalised duration: [0 <= seconds < 86400]. *)
Record timedelta : Type := {
  days : Z; seconds : Z;
}.

(** [datetime(year, month, day, hour, minute, second)] *)
Definition new_datetime (year month day hour minute second : Z)
    : result datetime :=
  _ ← _check_date_fields year month day;
  _ ← _check_time_fields hour minute second;
  Ok {| year := year; month := month; day := day;
        hour := hour; minute := minute; second := second |}.

(** [time(hour, minute, second)] *)
Definition new_time (hour minute second : Z) : result time :=
  _ ← _check_time_fields hour minute second;
  Ok {| time_hour := hour; time_minute := minute; time_second := second |}.

(** [datetime.time()] *)
Definition datetime_time (self : datetime) : time :=
  {| time_hour := hour self; time_minute := minute self;
     time_second := second self |}.

(** [timedelta(days, seconds=seconds)]: the seconds are carried into the
    days, and more than 999999999 days either way overflow. *)
Definition new_timedelta (days seconds : Z) : result timedelta :=
  let '(carry, seconds) := divmod seconds (24 * 3600) in
  let days := days + carry in
  if 999999999 <? Z.abs days then Raise OverflowError
  else Ok {| days := days; seconds := seconds |}.

Definition total_seconds (self : timedelta) : Z :=
  days self * 86400 + seconds self.

Definition toordinal (self : datetime) : Z :=
  _ymd2ord (year self) (month self) (day self).

(** [datetime.__sub__] for two instants. *)
Definition datetime_sub (self other : datetime) : result timedelta :=
  let days1 := toordinal self in
  let days2 := toordinal other in
  let secs1 := second self + minute self * 60 + hour self * 3600 in
  let secs2 := second other + minute other * 60 + hour other * 3600 in
  new_timedelta (days1 - days2) (secs1 - secs2).

(** [datetime.__add__] for an instant and a duration: the instant becomes
    a duration since ordinal 0, the sum must land on a day of the
    calendar. *)
Definition datetime_add (self : datetime) (other : timedelta)
    : result datetime :=
  delta ← new_timedelta (toordinal self)
            (hour self * 3600 + minute self * 60 + second self);
  delta ← new_timedelta (days delta + days other)
            (seconds delta + seconds other);
  let '(hour, rem) := divmod (seconds delta) 3600 in
  let '(minute, second) := divmod rem 60 in
  if (0 <? days delta) && (days delta <=? _MAXORDINAL) then
    let '(y, m, d) := _ord2ymd (days delta) in
    new_datetime y m d hour minute second
  else Raise OverflowError.

(** *** strftime *)

(** [width] decimal digits of [v], zero padded; the library prints a
    calendar field this way, [0 <= v < 10^width]. *)
Fixpoint zero_padded (width : nat) (v : Z) (acc : string) : string :=
  match width with
  | O => acc
  | S w => zero_padded w (v / 10) (String (digit_char (v mod 10)) acc)
  end.

(** The text of a directive, as the C library writes it: two digits, zero
    padded, but for the year, which is printed as a plain decimal number
    (three digits for the year 999). *)
Definition directive_text (c : ascii) (dt : datetime) : string :=
  if Ascii.eqb c "Y" then pretty (year dt)
  else if Ascii.eqb c "m" then zero_padded 2 (month dt) ""
  else if Ascii.eqb c "d" then zero_padded 2 (day dt) ""
  else if Ascii.eqb c "H" then zero_padded 2 (hour dt) ""
  else if Ascii.eqb c "M" then zero_padded 2 (minute dt) ""
  else if Ascii.eqb c "S" then zero_padded 2 (second dt) ""
  else String "%" (String c "").

(** [datetime.strftime(format)] for the directives the module's formats
    use; every other character is copied. *)
Fixpoint strftime (format : string) (dt : datetime) : string :=
  match format with
  | String "%" (String c rest) => directive_text c dt +:+ strftime rest dt
  | String a rest => String a (strftime rest dt)
  | EmptyString => EmptyString
  end.

(** [time.strftime(format)]: the date shown is 1900-01-01. *)
Definition time_strftime (format : string) (t : time) : string :=
  strftime format {| year := 1900; month := 1; day := 1;
                     hour := time_hour t; minute := time_minute t;
                     second := time_second t |}.

(** *** strptime *)

(** [strptime] compiles the format to a regular expression, one named
    group per directive, matches it against the front of the text with the
    usual backtracking (the first alternative that lets the rest match
    wins), and refuses text that is left over.  The regular expressions
    are the entries of the library's table for the six directives of the
    module's formats. *)
Inductive re : Type :=
  | ReClass (p : ascii → bool)
  | ReSeq (r1 r2 : re)
  | ReAlt (r1 r2 : re).

(** All the ways [r] matches a prefix of [s], in the order a backtracking
    matcher tries them: the matched text and what follows it. *)
Fixpoint re_match (r : re) (s : string) : list (string * string) :=
  match r with
  | ReClass p =>
      match s with
      | String a rest => if p a then [(String a "", rest)] else []
      | EmptyString => []
      end
  | ReSeq r1 r2 =>
      '(m1, s1) ← re_match r1 s;
      '(m2, s2) ← re_match r2 s1;
      [(m1 +:+ m2, s2)]
  | ReAlt r1 r2 => re_match r1 s ++ re_match r2 s
  end.

Definition one (a : ascii) : re := ReClass (Ascii.eqb a).
Definition between (lo hi : ascii) : re := ReClass (in_range lo hi).
Definition digit : re := ReClass is_digit.

(** [3[0-1]|[1-2]\d|0[1-9]|[1-9]| [1-9]] *)
Definition re_d : re :=
  ReAlt (ReSeq (one "3") (between "0" "1"))
 (ReAlt (ReSeq (between "1" "2") digit)
 (ReAlt (ReSeq (one "0") (between "1" "9"))
 (ReAlt (between "1" "9")
        (ReSeq (one " ") (between "1" "9"))))).

(** [2[0-3]|[0-1]\d|\d] *)
Definition re_H : re :=
  ReAlt (ReSeq (one "2") (between "0" "3"))
 (ReAlt (ReSeq (between "0" "1") digit) digit).

(** [1[0-2]|0[1-9]|[1-9]] *)
Definition re_m : re :=
  ReAlt (ReSeq (one "1") (between "0" "2"))
 (ReAlt (ReSeq (one "0") (between "1" "9")) (between "1" "9")).

(** [[0-5]\d|\d] *)
Definition re_M : re := ReAlt (ReSeq (between "0" "5") digit) digit.

(** [6[0-1]|[0-5]\d|\d] *)
Definition re_S : re :=
  ReAlt (ReSeq (one "6") (between "0" "1"))
 (ReAlt (ReSeq (between "0" "5") digit) digit).

(** [\d\d\d\d] *)
Definition re_Y : re := ReSeq digit (ReSeq digit (ReSeq digit digit)).

Definition TimeRE (c : ascii) : option re :=
  if Ascii.eqb c "d" then Some re_d
  else if Ascii.eqb c "H" then Some re_H
  else if Ascii.eqb c "m" then Some re_m
  else if Ascii.eqb c "M" then Some re_M
  else if Ascii.eqb c "S" then Some re_S
  else if Ascii.eqb c "Y" then Some re_Y
  else None.

(** The compiled format: a group per directive, [\s+] for a run of white
    space, and the other characters as they are (letters in either
    case). *)
Inductive item : Type :=
  | Group (c : ascii) (r : re)
  | Lit (a : ascii)
  | Spaces.

Definition has_group (c : ascii) (items : list item) : bool :=
  existsb (λ it, match it with Group c' _ => Ascii.eqb c c' | _ => false end)
          items.

Fixpoint pattern (after_space : bool) (format : string) : option (list item) :=
  match format with
  | EmptyString => Some []
  | String "%" (String c rest) =>
      r ← TimeRE c;
      items ← pattern false rest;
      if has_group c items then None else Some (Group c r :: items)
  | String a rest =>
      if Ascii.eqb a "%" then None
      else if is_space a then
        items ← pattern true rest;
        Some (if after_space then items else Spaces :: items)
      else
        items ← pattern false rest;
        Some (Lit a :: items)
  end.

Definition lower (a : ascii) : ascii :=
  if (65 <=? code a) && (code a <=? 90)
  then Ascii.ascii_of_N (Z.to_N (code a + 32)) else a.

(** [\s+], the longest run first. *)
Fixpoint spaces_match (s : string) : list (string * string) :=
  match s with
  | String a rest =>
      if is_space a then
        ((λ '(m, s'), (String a m, s')) <$> spaces_match rest)
        ++ [(String a "", rest)]
      else []
  | EmptyString => []
  end.

Definition item_match (it : item) (s : string) : list (string * string) :=
  match it with
  | Group _ r => re_match r s
  | Lit a =>
      match s with
      | String b rest =>
          if Ascii.eqb (lower a) (lower b) then [(String b "", rest)] else []
      | EmptyString => []
      end
  | Spaces => spaces_match s
  end.

(** The matches of the whole pattern, in backtracking order, each with the
    text of its groups and the text left over. *)
Fixpoint items_match (items : list item) (s : string)
    : list (list (ascii * string) * string) :=
  match items with
  | [] => [([], s)]
  | it :: rest =>
      '(m, s1) ← item_match it s;
      '(groups, s2) ← items_match rest s1;
      [(match it with Group c _ => (c, m) :: groups | _ => groups end, s2)]
  end.

(** The fields [_strptime] collects; a format without a date leaves
    1900-01-01, one without a time leaves midnight. *)
Definition found_field (groups : list (ascii * string)) (c : ascii)
    (default : Z) : result Z :=
  match find (λ g, Ascii.eqb c g.1) groups with
  | Some (_, text) => int_of_str text
  | None => Ok default
  end.

(** [datetime.strptime(data_string, format)] *)
Definition strptime_str (data_string format : string) : result datetime :=
  match pattern false format with
  | None => Raise (BadDirective format)
  | Some items =>
      match head (items_match items data_string) with
      | None => Raise (TimeDataMismatch data_string format)
      | Some (groups, rest) =>
          if negb (String.eqb rest "") then Raise (UnconvertedData rest)
          else
            year ← found_field groups "Y" 1900;
            month ← found_field groups "m" 1;
            day ← found_field groups "d" 1;
            hour ← found_field groups "H" 0;
            minute ← found_field groups "M" 0;
            second ← found_field groups "S" 0;
            new_datetime year month day hour minute second
      end
  end.

Definition strptime (data : value) (format : string) : result datetime :=
  match data with
  | VStr data_string => strptime_str data_string format
  | VInt _ => Raise StrptimeTypeError
  end.

(** ** The world: caches, random numbers, the clock *)

(** A cache object ([FileCache] of some name, or a private [dict]) is a
    location; fields that hold the same location share the counters. *)
Definition loc : Type := nat.

Record world : Type := {
  caches : gmap loc (gmap string Z);
  (* the [cache[key] = seq] statements run so far, the latest first *)
  journal : list (loc * string * Z);
  (* what [random.Random] will deliver, and how much of it was drawn *)
  tape : nat → Z;
  drawn : nat;
  (* [datetime.datetime.now()] *)
  now : datetime;
}.

(** Effects keep the world they reached when an exception is raised. *)
Definition M (A : Type) : Type := world → result A * world.

Global Instance M_ret : MRet M := λ A a w, (Ok a, w).
Global Instance M_bind : MBind M := λ A B f m w,
  match m w with
  | (Ok a, w') => f a w'
  | (Raise e, w') => (Raise e, w')
  end.

Definition lift {A} (r : result A) : M A := λ w, (r, w).

Definition cache_of (w : world) (c : loc) : gmap string Z :=
  default ∅ (caches w !! c).

(** [key in cache] *)
Definition cache_contains (c : loc) (key : string) : M bool := λ w,
  (Ok (bool_decide (is_Some (cache_of w c !! key))), w).

(** [cache[key]] *)
Definition cache_getitem (c : loc) (key : string) : M Z := λ w,
  match cache_of w c !! key with
  | Some n => (Ok n, w)
  | None => (Raise (KeyError key), w)
  end.

(** [cache[key] = n] *)
Definition cache_setitem (c : loc) (key : string) (n : Z) : M unit := λ w,
  (Ok (), {| caches := <[c := <[key := n]> (cache_of w c)]> (caches w);
             journal := (c, key, n) :: journal w;
             tape := tape w; drawn := drawn w; now := now w |}).

(** [rand.randint(a, b)]: some integer of [a..b], whichever the tape
    selects. *)
Definition randint (a b : Z) : M Z := λ w,
  if b <? a then (Raise EmptyRange, w)
  else (Ok (a + tape w (drawn w) mod (b - a + 1)),
        {| caches := caches w; journal := journal w; tape := tape w;
           drawn := S (drawn w); now := now w |}).

Definition datetime_now : M datetime := λ w, (Ok (now w), w).

(** ** The field classes *)

(** [(1 << bits) - 1]; the shift raises on a negative count. *)
Definition mask_of_bits (bits : Z) : result Z :=
  if bits <? 0 then Raise NegativeShiftCount
  else Ok (Z.shiftl 1 bits - 1).

(** [IdField.encode] and [IdField.decode], inherited where a class does
    not override them. *)
Definition IdField_encode (v : value) : result Z := int v.

Definition IdField_decode (number : Z) : result value := Ok (VInt number).

Module DateTimeField.
Inductive Precision : Type := DAY | HOUR | MINUTE | SECOND.

(** The enumeration's integer: seconds per unit. *)
Definition Precision_value (p : Precision) : Z :=
  match p with
  | DAY => 3600 * 24
  | HOUR => 3600
  | MINUTE => 60
  | SECOND => 1
  end.

Definition DATE_TIME_FORMATS (p : Precision) : string :=
  match p with
  | DAY => "%Y-%m-%d"
  | HOUR => "%Y-%m-%d %H"
  | MINUTE => "%Y-%m-%d %H:%M"
  | SECOND => "%Y-%m-%d %H:%M:%S"
  end.

Record t : Type := {
  precision : Precision;
  base : datetime;
}.

Definition format (self : t) : string := DATE_TIME_FORMATS (precision self).

Definition generate (self : t) : M value :=
  dt ← datetime_now;
  mret (VStr (strftime (format self) dt)).

(** [seconds / self.precision] divides two floats that hold integers
    below 2^53, and [int] cuts the quotient towards zero: no rounding
    reaches the next integer, the result is the truncated quotient. *)
Definition encode (self : t) (v : value) : result Z :=
  dt ← strptime v (format self);
  delta ← datetime_sub dt (base self);
  let seconds := total_seconds delta in
  let number := Z.quot seconds (Precision_value (precision self)) in
  Ok number.

Definition decode (self : t) (number : Z) : result value :=
  let seconds := number * Precision_value (precision self) in
  delta ← new_timedelta 0 seconds;
  dt ← datetime_add (base self) delta;
  Ok (VStr (strftime (format self) dt)).
End DateTimeField.

Module TimeField.
Inductive Precision : Type := HOUR | MINUTE | SECOND.

Definition Precision_value (p : Precision) : Z :=
  match p with
  | HOUR => 3600
  | MINUTE => 60
  | SECOND => 1
  end.

Definition TIME_FORMATS (p : Precision) : string :=
  match p with
  | HOUR => "%H"
  | MINUTE => "%H:%M"
  | SECOND => "%H:%M:%S"
  end.

Record t : Type := {
  precision : Precision;
}.

Definition format (self : t) : string := TIME_FORMATS (precision self).

Definition generate (self : t) : M value :=
  dt ← datetime_now;
  mret (VStr (time_strftime (format self) (datetime_time dt))).

Definition encode (self : t) (v : value) : result Z :=
  dt ← strptime v (format self);
  let time := datetime_time dt in
  let seconds :=
    time_hour time * 3600 + time_minute time * 60 + time_second time in
  let number := seconds / Precision_value (precision self) in
  Ok number.

Definition decode (self : t) (number : Z) : result value :=
  let seconds := number * Precision_value (precision self) in
  let '(hour, seconds) := divmod seconds 3600 in
  let '(minute, second) := divmod seconds 60 in
  time ← new_time hour minute second;
  Ok (VStr (time_strftime (format self) time)).
End TimeField.

(** An argument that is one integer or a pair of them. *)
Inductive int_or_pair : Type :=
  | One (n : Z)
  | Pair (lo hi : Z).

Definition as_pair (x : int_or_pair) : Z * Z :=
  match x with
  | One n => (n, n)
  | Pair lo hi => (lo, hi)
  end.

Module SequenceField.
Record t : Type := {
  start : Z * Z;
  step : Z * Z;
  keys : list string;
  cache : loc;
}.

Definition _new_seq (self : t) : M Z :=
  randint (start self).1 (start self).2.

Definition _next_seq (self : t) (prev : Z) : M Z :=
  n ← randint (step self).1 (step self).2;
  mret (prev + n).

(** The key of the counter: the values of the [keys] fields joined by
    ['-'], or the field's own name when there are no [keys]. *)
Definition key_of (name : string) (self : t) (info : gmap string value)
    : result string :=
  match keys self with
  | [] => Ok name
  | ks =>
      parts ← for_each (λ k, match info !! k with
                             | Some v => str v
                             | None => Raise (KeyError k)
                             end) ks;
      Ok (join "-" parts)
  end.

Definition generate (name : string) (self : t) (info : gmap string value)
    : M value :=
  key ← lift (key_of name self info);
  known ← cache_contains (cache self) key;
  seq ← (if known : bool
         then prev ← cache_getitem (cache self) key; _next_seq self prev
         else _new_seq self);
  _ ← cache_setitem (cache self) key seq;
  mret (VInt seq).
End SequenceField.

Module NumberField.
Record t : Type := {
  start : Z;
  end_ : Z;
}.

(** [__init__]: [end] is the mask when it is not given. *)
Definition init (bits : Z) (start : Z) (end_ : option Z) : result t :=
  match end_ with
  | None => m ← mask_of_bits bits; Ok {| start := start; end_ := m |}
  | Some e => Ok {| start := start; end_ := e |}
  end.

Definition generate (self : t) : M value :=
  n ← randint (start self) (end_ self);
  mret (VInt n).

Definition decode (name : string) (self : t) (number : Z) : result value :=
  if negb ((start self <=? number) && (number <=? end_ self))
  then Raise (FieldOutOfRange name number)
  else Ok (VInt number).
End NumberField.

Inductive subclass : Type :=
  | IsNumberField (f : NumberField.t)
  | IsDateTimeField (f : DateTimeField.t)
  | IsTimeField (f : TimeField.t)
  | IsSequenceField (f : SequenceField.t).

Record IdField : Type := {
  name : string;
  bits : Z;
  subclass_of : subclass;
}.

Definition mask (self : IdField) : result Z := mask_of_bits (bits self).

Definition generate (self : IdField) (info : gmap string value) : M value :=
  match subclass_of self with
  | IsNumberField f => NumberField.generate f
  | IsDateTimeField f => DateTimeField.generate f
  | IsTimeField f => TimeField.generate f
  | IsSequenceField f => SequenceField.generate (name self) f info
  end.

Definition encode (self : IdField) (v : value) : result Z :=
  match subclass_of self with
  | IsDateTimeField f => DateTimeField.encode f v
  | IsTimeField f => TimeField.encode f v
  | IsNumberField _ | IsSequenceField _ => IdField_encode v
  end.

Definition decode (self : IdField) (number : Z) : result value :=
  match subclass_of self with
  | IsNumberField f => NumberField.decode (name self) f number
  | IsDateTimeField f => DateTimeField.decode f number
  | IsTimeField f => TimeField.decode f number
  | IsSequenceField _ => IdField_decode number
  end.

(** The constructors, as the module calls them. *)
Definition NumberField (name : string) (bits : Z) (start : Z)
    (end_ : option Z) : result IdField :=
  f ← NumberField.init bits start end_;
  Ok {| name := name; bits := bits; subclass_of := IsNumberField f |}.

Definition DateTimeField (name : string) (bits : Z)
    (precision : DateTimeField.Precision) (base : datetime) : IdField :=
  {| name := name; bits := bits;
     subclass_of := IsDateTimeField
       {| DateTimeField.precision := precision; DateTimeField.base := base |} |}.

Definition TimeField (name : string) (bits : Z)
    (precision : TimeField.Precision) : IdField :=
  {| name := name; bits := bits;
     subclass_of := IsTimeField {| TimeField.precision := precision |} |}.

Definition SequenceField (name : string) (bits : Z)
    (start step : int_or_pair) (keys : list string) (cache : loc) : IdField :=
  {| name := name; bits := bits;
     subclass_of := IsSequenceField
       {| SequenceField.start := as_pair start;
          SequenceField.step := as_pair step;
          SequenceField.keys := keys;
          SequenceField.cache := cache |} |}.

(** ** IdGenerator *)

Record IdGenerator : Type := {
  generator_name : string;
  fields : list IdField;
}.

(** The loop of [_generate]: a field takes its value from [custom_data]
    when its name is there, and generates it from the values so far
    otherwise. *)
Fixpoint generate_loop (custom_data info : gmap string value)
    (fields : list IdField) : M (gmap string value) :=
  match fields with
  | [] => mret info
  | field :: rest =>
      match custom_data !! name field with
      | Some v => generate_loop custom_data (<[name field := v]> info) rest
      | None =>
          v ← generate field info;
          generate_loop custom_data (<[name field := v]> info) rest
      end
  end.

Definition _generate (self : IdGenerator) (custom_data : gmap string value)
    : M (gmap string value) :=
  generate_loop custom_data ∅ (fields self).

Definition _encode (self : IdGenerator) (info : gmap string value)
    : result (list Z) :=
  for_each (λ field,
              match info !! name field with
              | Some v => encode field v
              | None => Raise (KeyError (name field))
              end) (fields self).

(** The loop of [_decode], field [i] decoding [parts[i]]. *)
Fixpoint decode_loop (parts : list Z) (i : nat) (info : gmap string value)
    (fields : list IdField) : result (gmap string value) :=
  match fields with
  | [] => Ok info
  | field :: rest =>
      match parts !! i with
      | None => Raise IndexError
      | Some number =>
          v ← decode field number;
          decode_loop parts (S i) (<[name field := v]> info) rest
      end
  end.

Definition _decode (self : IdGenerator) (parts : list Z)
    : result (gmap string value) :=
  decode_loop parts 0 ∅ (fields self).

(** The body of the [for number, field in zip(parts, self.fields)] loop of
    [_assemble].  The chained comparison [0 <= number <= field.mask] tests
    its left half first; the message of the exception reads [field.mask]
    as well. *)
Fixpoint assemble_loop (id_num : Z) (zipped : list (Z * IdField)) : result Z :=
  match zipped with
  | [] => Ok id_num
  | (number, field) :: rest =>
      if 0 <=? number then
        m ← mask field;
        if number <=? m then
          assemble_loop (Z.lor (Z.shiftl id_num (bits field)) number) rest
        else Raise (PartOutOfBits number (bits field) m)
      else
        m ← mask field;
        Raise (PartOutOfBits number (bits field) m)
  end.

Definition _assemble (self : IdGenerator) (parts : list Z) : result Z :=
  if negb (length parts =? length (fields self))%nat
  then Raise PartsLengthMismatch
  else assemble_loop 0 (zip parts (fields self)).

(** The [for field in reversed(self.fields)] loop of [_disassemble]; the
    state is the remaining [id_num] and the list [parts] appended to. *)
Fixpoint disassemble_loop (id_num : Z) (parts : list Z) (rfields : list IdField)
    : result (Z * list Z) :=
  match rfields with
  | [] => Ok (id_num, parts)
  | field :: rest =>
      m ← mask field;
      let number := Z.land id_num m in
      disassemble_loop (Z.shiftr id_num (bits field)) (parts ++ [number]) rest
  end.

Definition _disassemble (self : IdGenerator) (id_num : Z) : result (list Z) :=
  '(id_num, parts) ← disassemble_loop id_num [] (reverse (fields self));
  if negb (id_num =? 0) then Raise (HighestNotZero id_num)
  else Ok (reverse parts).

Definition _format (id_num : Z) : value := VInt id_num.

Definition _parse (the_id : value) : result Z := int the_id.

(** [IdGenerator.generate] *)
Definition IdGenerator_generate (self : IdGenerator)
    (custom_data : gmap string value) : M value :=
  info ← _generate self custom_data;
  parts ← lift (_encode self info);
  id_num ← lift (_assemble self parts);
  mret (_format id_num).

(** [IdGenerator.parse] *)
Definition IdGenerator_parse (self : IdGenerator) (the_id : value)
    : result (gmap string value) :=
  id_num ← _parse the_id;
  parts ← _disassemble self id_num;
  _decode self parts.

(** [get_generators], given the two caches ['order'] and ['order-m']. *)
Definition get_generators (order_cache order_m_cache : loc)
    : result (gmap string IdGenerator) :=
  base ← new_datetime 2018 1 1 0 0 0;
  placeholder ← NumberField "placeholder" 1 1 None;
  let order :=
    {| generator_name := "order";
       fields := [ placeholder;
                   DateTimeField "time" 29 DateTimeField.SECOND base;
                   SequenceField "sequence" 16 (Pair 0 10000) (Pair 1 10)
                                 ["time"] order_cache ] |} in
  let order_m :=
    {| generator_name := "order-m";
       fields := [ placeholder;
                   DateTimeField "time" 24 DateTimeField.MINUTE base;
                   SequenceField "sequence" 20 (Pair 0 10000) (Pair 1 10)
                                 ["time"] order_m_cache ] |} in
  Ok (<[generator_name order_m := order_m]>
        (<[generator_name order := order]> ∅)).

(** ** The vocabulary of the properties *)

(** The closed form of the data model:
    [id = Σ part[i] << (bits[i+1] + ... + bits[n-1])]. *)
Definition sum_bits (bs : list Z) : Z := foldr Z.add 0 bs.

Definition packed_sum (bs parts : list Z) : Z :=
  foldr Z.add 0 (imap (λ i part, Z.shiftl part (sum_bits (drop (S i) bs))) parts).

(** The same sum, written by recursion on the lists. *)
Fixpoint packed_rec (bs parts : list Z) : Z :=
  match parts, bs with
  | part :: parts', _ :: bs' => part * 2 ^ sum_bits bs' + packed_rec bs' parts'
  | _, _ => 0
  end.

(** What [_disassemble] reads for each field, in field order: the field's
    window of [id_num], above the bits of all later fields. *)
Fixpoint windows (id_num : Z) (fields : list IdField) : list Z :=
  match fields with
  | [] => []
  | field :: rest =>
      Z.land (Z.shiftr id_num (sum_bits (bits <$> rest))) (2 ^ bits field - 1)
      :: windows id_num rest
  end.

(** A part fits its field when [0 <= part <= 2^bits - 1]. *)
Definition fits (part : Z) (field : IdField) : Prop :=
  0 ≤ part ≤ 2 ^ bits field - 1.

Definition total_bits (fields : list IdField) : Z := sum_bits (bits <$> fields).

Definition nonneg_bits (self : IdGenerator) : Prop :=
  Forall (λ field, 0 ≤ bits field) (fields self).

(** The generator ['order'] that [get_generators] builds, with cache 0,
    and its first field. *)
Definition placeholder : IdField :=
  {| name := "placeholder"; bits := 1;
     subclass_of := IsNumberField
       {| NumberField.start := 1; NumberField.end_ := 1 |} |}.

Definition order : IdGenerator :=
  {| generator_name := "order";
     fields :=
       [ placeholder;
         DateTimeField "time" 29 DateTimeField.SECOND
           {| year := 2018; month := 1; day := 1;
              hour := 0; minute := 0; second := 0 |};
         SequenceField "sequence" 16 (Pair 0 10000) (Pair 1 10) ["time"] 0%nat
       ] |}.

(** The last field of ['order'], a world whose clock shows 2018-01-01
    00:00:05 and whose caches are empty, and one where cache 0 holds the
    counter 10 for that second. *)
Definition order_sequence : SequenceField.t :=
  {| SequenceField.start := (0, 10000); SequenceField.step := (1, 10);
     SequenceField.keys := ["time"]; SequenceField.cache := 0%nat |}.

Definition fresh_world : world :=
  {| caches := ∅; journal := []; tape := λ _, 7; drawn := 0;
     now := {| year := 2018; month := 1; day := 1;
               hour := 0; minute := 0; second := 5 |} |}.

Definition used_world : world :=
  {| caches := {[ 0%nat := {[ "2018-01-01 00:00:05" := 10 ]} ]};
     journal := [(0%nat, "2018-01-01 00:00:05", 10)];
     tape := λ _, 7; drawn := 1; now := now fresh_world |}.

(** What ['order'] generates in [fresh_world] when the custom data give
    the time as ["yesterday"], and the world it leaves. *)
Definition yesterday_info : gmap string value :=
  {[ "placeholder" := VInt 1; "time" := VStr "yesterday";
     "sequence" := VInt 7 ]}.

Definition yesterday_world : world :=
  {| caches := {[ 0%nat := {[ "yesterday" := 7 ]} ]};
     journal := [(0%nat, "yesterday", 7)];
     tape := tape fresh_world; drawn := 2; now := now fresh_world |}.

(** The SequenceFields of a generator that [custom_data] does not supply:
    the caches they write to, in field order. *)
Definition pending_caches (custom_data : gmap string value)
    (fields : list IdField) : list loc :=
  omap (λ field,
          match subclass_of field, custom_data !! name field with
          | IsSequenceField f, None => Some (SequenceField.cache f)
          | _, _ => None
          end) fields.

(** The store after the writes [new] (the latest first) on the store [m]. *)
Definition apply_write (e : loc * string * Z) (m : gmap loc (gmap string Z))
    : gmap loc (gmap string Z) :=
  <[e.1.1 := <[e.1.2 := e.2]> (default ∅ (m !! e.1.1))]> m.

Definition replay (new : list (loc * string * Z))
    (m : gmap loc (gmap string Z)) : gmap loc (gmap string Z) :=
  foldr apply_write m new.

(** Valid calendar values, as the constructors check them. *)
Definition valid_date (year month day : Z) : Prop :=
  MINYEAR ≤ year ≤ MAXYEAR ∧ 1 ≤ month ≤ 12
  ∧ 1 ≤ day ≤ _days_in_month year month.

Definition valid_time (hour minute second : Z) : Prop :=
  0 ≤ hour ≤ 23 ∧ 0 ≤ minute ≤ 59 ∧ 0 ≤ second ≤ 59.

Definition valid_datetime (dt : datetime) : Prop :=
  valid_date (year dt) (month dt) (day dt)
  ∧ valid_time (hour dt) (minute dt) (second dt).

(** Seconds since midnight, and seconds since the start of ordinal 0. *)
Definition time_of_day (dt : datetime) : Z :=
  hour dt * 3600 + minute dt * 60 + second dt.

Definition instant (dt : datetime) : Z :=
  toordinal dt * 86400 + time_of_day dt.

(** An instant on the grid of a precision: a whole number of units since
    midnight. *)
Definition on_grid (unit : Z) (dt : datetime) : Prop :=
  time_of_day dt mod unit = 0.

(** The second half of [_ord2ymd]: month and day of the [n]-th day (from
    0) of a year. *)
Definition month_day (leapyear : bool) (n : Z) : Z * Z :=
  let month := Z.shiftr (n + 50) 5 in
  let preceding :=
    getitem _DAYS_BEFORE_MONTH month
    + (if (2 <? month) && leapyear then 1 else 0) in
  if n <? preceding then
    let month := month - 1 in
    let preceding :=
      preceding - (getitem _DAYS_IN_MONTH month
                   + (if (month =? 2) && leapyear then 1 else 0)) in
    (month, n - preceding + 1)
  else (month, n - preceding + 1).

(** The tables of a year that is, or is not, a leap year. *)
Definition month_length (leapyear : bool) (month : Z) : Z :=
  if (month =? 2) && leapyear then 29 else getitem _DAYS_IN_MONTH month.

Definition month_offset (leapyear : bool) (month : Z) : Z :=
  getitem _DAYS_BEFORE_MONTH month
  + (if (2 <? month) && leapyear then 1 else 0).

(** The date and time of an instant. *)
Definition datetime_of_instant (t : Z) : datetime :=
  let '(y, m, d) := _ord2ymd (t / 86400) in
  let secs := t mod 86400 in
  {| year := y; month := m; day := d;
     hour := secs / 3600; minute := secs mod 3600 / 60;
     second := secs mod 3600 mod 60 |}.

(** The instants [datetime] arithmetic can land on: 0001-01-01 00:00:00
    to 9999-12-31 23:59:59. *)
Definition in_calendar (t : Z) : Prop :=
  86400 ≤ t < (_MAXORDINAL + 1) * 86400.

(** The directives of a compiled format, in order. *)
Definition item_keys (items : list item) : list ascii :=
  omap (λ it, match it with Group c _ => Some c | _ => None end) items.

(** ** parse_variable_definition *)

(** [argparse.ArgumentTypeError], with the text of the message. *)
Inductive ArgumentTypeError : Type :=
  | UnrecognizedVariableDefinition (text : string).

(** The text before the first [sep] and the text after it. *)
Fixpoint str_partition (sep : ascii) (text : string)
    : option (string * string) :=
  match text with
  | EmptyString => None
  | String a rest =>
      if Ascii.eqb a sep then Some (EmptyString, rest)
      else '(before, after) ← str_partition sep rest;
           Some (String a before, after)
  end.

(** [text.split(sep, 1)] for a separator of one character. *)
Definition split_once (sep : ascii) (text : string) : list string :=
  match str_partition sep text with
  | Some (before, after) => [before; after]
  | None => [text]
  end.

(** The tuple returned is the list of its components. *)
Definition parse_variable_definition (text : string)
    : ArgumentTypeError + list string :=
  let parts := split_once "=" text in
  if (length parts <? 2)%nat
  then inl (UnrecognizedVariableDefinition text)
  else inr parts.

(** ** More vocabulary *)

(** The characters of a text all satisfy [P]. *)
Fixpoint all_chars (P : ascii → bool) (s : string) : bool :=
  match s with
  | EmptyString => true
  | String a rest => P a && all_chars P rest
  end.

(** The world ['order'] leaves when it generates in [fresh_world] on its
    own. *)
Definition first_world : world :=
  {| caches := {[ 0%nat := {[ "2018-01-01 00:00:05" := 7 ]} ]};
     journal := [(0%nat, "2018-01-01 00:00:05", 7)];
     tape := tape fresh_world; drawn := 2; now := now fresh_world |}.

(** A SequenceField that cannot advance: its step range is empty. *)
Definition stuck_sequence : SequenceField.t :=
  {| SequenceField.start := (0, 0); SequenceField.step := (5, 1);
     SequenceField.keys := []; SequenceField.cache := 0%nat |}.

(** * Part II: properties *)

(** ** The pack/unpack engine *)

(** ** Arithmetic of one packing step *)

Lemma mask_nonneg field :
  0 ≤ bits field → mask field = Ok (2 ^ bits field - 1).
Proof.
  intros Hb. unfold mask, mask_of_bits.
  destruct (Z.ltb_spec (bits field) 0) as [?|_]; [lia|].
  by rewrite Z.shiftl_1_l.
Qed.

Lemma mask_neg field : bits field < 0 → mask field = Raise NegativeShiftCount.
Proof.
  intros Hb. unfold mask, mask_of_bits.
  destruct (Z.ltb_spec (bits field) 0) as [_|?]; [done|lia].
Qed.

Lemma mask_Ok_inv field m :
  mask field = Ok m → 0 ≤ bits field ∧ m = 2 ^ bits field - 1.
Proof.
  unfold mask, mask_of_bits. destruct (Z.ltb_spec (bits field) 0) as [?|?]; [done|].
  rewrite Z.shiftl_1_l. intros [= <-]. done.
Qed.

Lemma fits_bits_nonneg part field : fits part field → 0 ≤ bits field.
Proof.
  unfold fits. intros Hf.
  destruct (Z.lt_ge_cases (bits field) 0) as [Hneg|?]; [|done].
  rewrite Z.pow_neg_r in Hf by done. lia.
Qed.

Lemma pow2_pos b : 0 ≤ b → 0 < 2 ^ b.
Proof. intros. by apply Z.pow_pos_nonneg. Qed.

Lemma land_shiftl_low a b p :
  0 ≤ b → 0 ≤ p < 2 ^ b → Z.land (Z.shiftl a b) p = 0.
Proof.
  intros Hb Hp. apply Z.bits_inj'; intros n Hn.
  rewrite Z.land_spec, Z.bits_0.
  destruct (Z.lt_ge_cases n b) as [Hlt|Hge].
  - by rewrite Z.shiftl_spec_low.
  - destruct (Z.eq_dec p 0) as [->|Hp0].
    + by rewrite Z.bits_0, andb_false_r.
    + rewrite (Z.bits_above_log2 p n), andb_false_r; [done|lia|].
      apply Z.lt_le_trans with b; [|done].
      apply Z.log2_lt_pow2; lia.
Qed.

Lemma lor_shiftl_low a b p :
  0 ≤ b → 0 ≤ p < 2 ^ b → Z.lor (Z.shiftl a b) p = a * 2 ^ b + p.
Proof.
  intros Hb Hp.
  pose proof (land_shiftl_low a b p Hb Hp) as Hdisj.
  rewrite <- Z.lxor_lor, <- Z.add_nocarry_lxor by done.
  by rewrite Z.shiftl_mul_pow2.
Qed.

Lemma land_low a b p :
  0 ≤ b → 0 ≤ p < 2 ^ b → Z.land (a * 2 ^ b + p) (2 ^ b - 1) = p.
Proof.
  intros Hb Hp.
  replace (2 ^ b - 1) with (Z.ones b) by (rewrite Z.ones_equiv; lia).
  rewrite Z.land_ones by done.
  rewrite Z.add_comm, Z.mod_add by lia.
  by apply Z.mod_small.
Qed.

Lemma shiftr_low a b p :
  0 ≤ b → 0 ≤ p < 2 ^ b → Z.shiftr (a * 2 ^ b + p) b = a.
Proof.
  intros Hb Hp.
  rewrite Z.shiftr_div_pow2 by done.
  rewrite Z.div_add_l by lia.
  rewrite Z.div_small by done. lia.
Qed.

Lemma land_mask_range x b : 0 ≤ b → 0 ≤ Z.land x (2 ^ b - 1) ≤ 2 ^ b - 1.
Proof.
  intros Hb.
  replace (2 ^ b - 1) with (Z.ones b) by (rewrite Z.ones_equiv; lia).
  rewrite Z.land_ones by done.
  pose proof (Z.mod_pos_bound x (2 ^ b) (pow2_pos b Hb)).
  rewrite Z.ones_equiv. lia.
Qed.

(** ** The closed form *)

Lemma sum_bits_nonneg bs : Forall (λ b, 0 ≤ b) bs → 0 ≤ sum_bits bs.
Proof. induction 1; simpl; lia. Qed.

Lemma total_bits_cons field fields :
  total_bits (field :: fields) = bits field + total_bits fields.
Proof. done. Qed.

Lemma Forall2_fits_bits parts fields :
  Forall2 fits parts fields → Forall (λ b, 0 ≤ b) (bits <$> fields).
Proof.
  induction 1 as [|p f ps fs Hf _ IH]; simpl; constructor; [|done].
  by eapply fits_bits_nonneg.
Qed.

Lemma total_bits_nonneg parts fields :
  Forall2 fits parts fields → 0 ≤ total_bits fields.
Proof. intros H. by eapply sum_bits_nonneg, Forall2_fits_bits. Qed.

Lemma packed_sum_rec bs parts :
  Forall (λ b, 0 ≤ b) bs → length parts = length bs →
  packed_sum bs parts = packed_rec bs parts.
Proof.
  intros Hbs. revert parts.
  induction Hbs as [|b bs Hb Hbs IH]; intros [|p ps] Hlen; try done.
  unfold packed_sum in *. simpl. rewrite drop_0.
  rewrite Z.shiftl_mul_pow2 by by apply sum_bits_nonneg.
  f_equal. rewrite <- IH by (simpl in Hlen; lia).
  f_equal.
Qed.

Lemma packed_rec_range parts fields :
  Forall2 fits parts fields →
  0 ≤ packed_rec (bits <$> fields) parts < 2 ^ total_bits fields.
Proof.
  induction 1 as [|p f ps fs Hf Hfs IH].
  { simpl. unfold total_bits. simpl. lia. }
  rewrite total_bits_cons, fmap_cons. simpl packed_rec.
  pose proof (fits_bits_nonneg _ _ Hf) as Hb.
  pose proof (total_bits_nonneg _ _ Hfs) as HW.
  rewrite Z.pow_add_r by done.
  fold (total_bits fs).
  pose proof (pow2_pos _ HW). pose proof (pow2_pos _ Hb).
  unfold fits in Hf.
  generalize dependent (packed_rec (bits <$> fs) ps).
  generalize dependent (2 ^ total_bits fs).
  generalize dependent (2 ^ bits f).
  intros. nia.
Qed.

(** ** The two loops *)

Lemma assemble_loop_fits parts fields :
  Forall2 fits parts fields → ∀ acc,
  assemble_loop acc (zip parts fields)
  = Ok (acc * 2 ^ total_bits fields + packed_rec (bits <$> fields) parts).
Proof.
  induction 1 as [|p f ps fs Hf Hfs IH]; intros acc.
  { simpl. unfold total_bits. simpl. f_equal. lia. }
  pose proof (fits_bits_nonneg _ _ Hf) as Hb.
  pose proof (total_bits_nonneg _ _ Hfs) as HW.
  change (zip (p :: ps) (f :: fs)) with ((p, f) :: zip ps fs).
  unfold fits in Hf. cbn [assemble_loop].
  destruct (Z.leb_spec 0 p) as [_|?]; [|lia].
  rewrite mask_nonneg by done. cbn [mbind result_bind].
  destruct (Z.leb_spec p (2 ^ bits f - 1)) as [_|?]; [|lia].
  rewrite IH, lor_shiftl_low by lia.
  rewrite total_bits_cons, fmap_cons, Z.pow_add_r by done.
  simpl packed_rec. fold (total_bits fs). f_equal. ring.
Qed.

Lemma disassemble_loop_app id_num parts l1 l2 :
  disassemble_loop id_num parts (l1 ++ l2)
  = '(id', parts') ← disassemble_loop id_num parts l1;
    disassemble_loop id' parts' l2.
Proof.
  revert id_num parts. induction l1 as [|f l1 IH]; intros id_num parts; [done|].
  simpl. destruct (mask f); simpl; [apply IH|done].
Qed.

Lemma disassemble_loop_packed parts fields :
  Forall2 fits parts fields → ∀ acc out,
  disassemble_loop (acc * 2 ^ total_bits fields + packed_rec (bits <$> fields) parts)
                   out (reverse fields)
  = Ok (acc, out ++ reverse parts).
Proof.
  induction 1 as [|p f ps fs Hf Hfs IH]; intros acc out.
  { simpl. unfold total_bits. simpl. rewrite app_nil_r. do 2 f_equal. lia. }
  pose proof (fits_bits_nonneg _ _ Hf) as Hb.
  pose proof (total_bits_nonneg _ _ Hfs) as HW.
  rewrite !reverse_cons, disassemble_loop_app.
  rewrite total_bits_cons, fmap_cons, Z.pow_add_r by done.
  simpl packed_rec. fold (total_bits fs).
  replace (acc * (2 ^ bits f * 2 ^ total_bits fs)
           + (p * 2 ^ total_bits fs + packed_rec (bits <$> fs) ps))
    with ((acc * 2 ^ bits f + p) * 2 ^ total_bits fs
          + packed_rec (bits <$> fs) ps) by ring.
  rewrite IH. cbn [mbind result_bind disassemble_loop].
  rewrite mask_nonneg by done. cbn [mbind result_bind].
  unfold fits in Hf.
  rewrite land_low, shiftr_low by lia.
  by rewrite <- app_assoc.
Qed.

Lemma sum_bits_app l1 l2 : sum_bits (l1 ++ l2) = sum_bits l1 + sum_bits l2.
Proof.
  induction l1 as [|b l1 IH]; [done|].
  change (sum_bits ((b :: l1) ++ l2)) with (b + sum_bits (l1 ++ l2)).
  change (sum_bits (b :: l1)) with (b + sum_bits l1). lia.
Qed.

Lemma total_bits_app l1 l2 : total_bits (l1 ++ l2) = total_bits l1 + total_bits l2.
Proof. unfold total_bits. by rewrite fmap_app, sum_bits_app. Qed.

Lemma total_bits_reverse fields : total_bits (reverse fields) = total_bits fields.
Proof.
  induction fields as [|f fs IH]; [done|].
  rewrite reverse_cons, total_bits_app, IH, !total_bits_cons.
  change (total_bits []) with 0. lia.
Qed.

Lemma fields_total_bits_nonneg fields :
  Forall (λ f, 0 ≤ bits f) fields → 0 ≤ total_bits fields.
Proof. intros H. apply sum_bits_nonneg. by apply Forall_fmap. Qed.

(** With non-negative widths the loop of [_disassemble] never raises: it
    leaves [id_num >> W] and appends the fields' windows, last field
    first. *)
Lemma disassemble_loop_windows fields :
  Forall (λ f, 0 ≤ bits f) fields → ∀ id_num out,
  disassemble_loop id_num out (reverse fields)
  = Ok (Z.shiftr id_num (total_bits fields), out ++ reverse (windows id_num fields)).
Proof.
  induction 1 as [|f fs Hb Hfs IH]; intros id_num out.
  { simpl. unfold total_bits. simpl. by rewrite app_nil_r. }
  pose proof (fields_total_bits_nonneg _ Hfs) as HW.
  rewrite reverse_cons, disassemble_loop_app, IH.
  cbn [mbind result_bind disassemble_loop windows].
  rewrite mask_nonneg by done. cbn [mbind result_bind].
  rewrite Z.shiftr_shiftr by done.
  rewrite total_bits_cons, reverse_cons, <- app_assoc.
  by rewrite (Z.add_comm (bits f)).
Qed.

Lemma disassemble_loop_Ok_bits rfields : ∀ id_num out r,
  disassemble_loop id_num out rfields = Ok r → Forall (λ f, 0 ≤ bits f) rfields.
Proof.
  induction rfields as [|f fs IH]; intros id_num out r Hr; [constructor|].
  simpl in Hr. destruct (mask f) as [m|e] eqn:Hm; [|done].
  apply mask_Ok_inv in Hm as [Hb _]. simpl in Hr.
  constructor; [done|]. by eapply IH.
Qed.

Lemma windows_fits id_num fields :
  Forall (λ f, 0 ≤ bits f) fields → Forall2 fits (windows id_num fields) fields.
Proof.
  induction 1 as [|f fs Hb Hfs IH]; simpl; constructor; [|done].
  by apply land_mask_range.
Qed.

Lemma windows_lookup id_num fields i field :
  fields !! i = Some field →
  windows id_num fields !! i
  = Some (Z.land (Z.shiftr id_num (sum_bits (drop (S i) (bits <$> fields))))
                 (2 ^ bits field - 1)).
Proof.
  revert i. induction fields as [|f fs IH]; intros [|i] Hi; try done.
  - injection Hi as ->. simpl. by rewrite drop_0.
  - simpl in *. by apply IH.
Qed.

Lemma assemble_fits self parts :
  Forall2 fits parts (fields self) →
  _assemble self parts = Ok (packed_rec (bits <$> fields self) parts).
Proof.
  intros Hfit. unfold _assemble.
  rewrite (Forall2_length _ _ _ Hfit), Nat.eqb_refl. simpl.
  rewrite assemble_loop_fits by done. by rewrite Z.mul_0_l, Z.add_0_l.
Qed.



Lemma disassemble_nonneg_bits self id_num :
  nonneg_bits self →
  _disassemble self id_num
  = if negb (Z.shiftr id_num (total_bits (fields self)) =? 0)
    then Raise (HighestNotZero (Z.shiftr id_num (total_bits (fields self))))
    else Ok (windows id_num (fields self)).
Proof.
  intros Hb. unfold _disassemble.
  rewrite disassemble_loop_windows by done. cbn [mbind result_bind].
  by rewrite app_nil_l, reverse_involutive.
Qed.



(** ** The engine's claims *)

Example get_generators_order :
  (generators ← get_generators 0%nat 1%nat; Ok (generators !! "order"))
  = Ok (Some order).
Proof. vm_compute. reflexivity. Qed.

Example order_assemble : _assemble order [1; 5; 42] = Ok 35184372416554.
Proof. reflexivity. Qed.

Example order_disassemble : _disassemble order 35184372416554 = Ok [1; 5; 42].
Proof. reflexivity. Qed.


Lemma order_fits : Forall2 fits [1; 5; 42] (fields order).
Proof. repeat constructor; simpl; lia. Defined.

(** C1. For parts with one entry per declared field, each within its
    field's mask, [_assemble] succeeds and [_disassemble] of the assembled
    number gives the parts back. *)
Theorem assemble_disassemble_inverse self parts :
  Forall2 fits parts (fields self) →
  ∃ id_num, _assemble self parts = Ok id_num
            ∧ _disassemble self id_num = Ok parts.
Proof.
  intros Hfit. eexists. split; [by apply assemble_fits|].
  unfold _disassemble.
  pose proof (disassemble_loop_packed _ _ Hfit 0 []) as Hloop.
  rewrite Z.mul_0_l, Z.add_0_l in Hloop. rewrite Hloop.
  cbn [mbind result_bind]. simpl. by rewrite reverse_involutive.
Qed.

Lemma assemble_disassemble_inverse_witness :
  Forall2 fits [1; 5; 42] (fields order)
  ∧ ∃ id_num, _assemble order [1; 5; 42] = Ok id_num
              ∧ _disassemble order id_num = Ok [1; 5; 42].
Proof.
  split; [exact order_fits|].
  exact (assemble_disassemble_inverse order [1; 5; 42] order_fits).
Defined.





(** C8. For parts within their fields' masks, the shift-and-or loop of
    [_assemble] computes the closed form
    [Σ parts[i] << (bits[i+1] + ... + bits[n-1])]: the first field lands in
    the most significant bits, the last field in the least significant. *)
Theorem assemble_closed_form self parts :
  Forall2 fits parts (fields self) →
  _assemble self parts = Ok (packed_sum (bits <$> fields self) parts).
Proof.
  intros Hfit. rewrite assemble_fits by done.
  rewrite packed_sum_rec; [done|by eapply Forall2_fits_bits|].
  by rewrite length_fmap, (Forall2_length _ _ _ Hfit).
Qed.

Lemma assemble_closed_form_witness :
  Forall2 fits [1; 5; 42] (fields order)
  ∧ _assemble order [1; 5; 42]
    = Ok (packed_sum (bits <$> fields order) [1; 5; 42]).
Proof.
  split; [exact order_fits|].
  exact (assemble_closed_form order [1; 5; 42] order_fits).
Defined.

(** C10. Whenever [_disassemble] returns, the result has one part per
    declared field, in field order (part [i] is the window of [id_num]
    above the bits of the fields after [i]), and every part lies in
    [0, 2^bits - 1] of its field. *)
Theorem disassemble_parts_fit self id_num parts :
  _disassemble self id_num = Ok parts →
  length parts = length (fields self)
  ∧ Forall2 fits parts (fields self)
  ∧ ∀ i field, fields self !! i = Some field →
      parts !! i
      = Some (Z.land (Z.shiftr id_num
                        (sum_bits (drop (S i) (bits <$> fields self))))
                     (2 ^ bits field - 1)).
Proof.
  intros Hok.
  assert (nonneg_bits self) as Hb.
  { unfold _disassemble in Hok.
    destruct (disassemble_loop id_num [] (reverse (fields self)))
      as [r|e] eqn:Hloop; [|done].
    apply disassemble_loop_Ok_bits in Hloop.
    by apply Forall_reverse. }
  rewrite disassemble_nonneg_bits in Hok by done.
  destruct (negb _); [done|]. injection Hok as <-.
  pose proof (windows_fits id_num (fields self) Hb) as Hfit.
  split; [by eapply Forall2_length|]. split; [done|].
  intros i f. apply windows_lookup.
Qed.

Lemma disassemble_parts_fit_witness :
  _disassemble order 35184372416554 = Ok [1; 5; 42]
  ∧ length [1; 5; 42] = length (fields order)
  ∧ Forall2 fits [1; 5; 42] (fields order).
Proof.
  split; [reflexivity|].
  pose proof (disassemble_parts_fit order 35184372416554 [1; 5; 42] eq_refl)
    as H.
  exact (conj (proj1 H) (proj1 (proj2 H))).
Defined.

(** ** NumberField *)




(** ** SequenceField *)

Lemma randint_range a b w :
  a ≤ b →
  ∃ n, randint a b w
       = (Ok n, {| caches := caches w; journal := journal w; tape := tape w;
                   drawn := S (drawn w); now := now w |})
       ∧ a ≤ n ≤ b.
Proof.
  intros Hab. unfold randint.
  destruct (Z.ltb_spec b a); [lia|].
  eexists. split; [done|].
  pose proof (Z.mod_pos_bound (tape w (drawn w)) (b - a + 1)). lia.
Qed.

Lemma randint_empty a b w : b < a → randint a b w = (Raise EmptyRange, w).
Proof. intros Hab. unfold randint. by destruct (Z.ltb_spec b a); [|lia]. Qed.

(** Every integer of the range is drawn on some tape. *)
Lemma randint_onto a b n w :
  a ≤ n ≤ b →
  ∃ tape', (randint a b {| caches := caches w; journal := journal w;
                           tape := tape'; drawn := drawn w;
                           now := now w |}).1 = Ok n.
Proof.
  intros Hn. exists (λ _, n - a). unfold randint. simpl.
  destruct (Z.ltb_spec b a); [lia|]. simpl.
  rewrite Z.mod_small by lia. f_equal. lia.
Qed.

Lemma cache_of_setitem c key n w :
  cache_of (cache_setitem c key n w).2 c !! key = Some n.
Proof.
  unfold cache_setitem. simpl. unfold cache_of at 1. simpl.
  rewrite lookup_insert_eq. simpl. by rewrite lookup_insert_eq.
Qed.

(** C9. For a SequenceField and the key it computes: when the store holds
    [first] under the key, [generate] returns some [second] with
    [first + step.min <= second <= first + step.max], whatever the random
    draw, and stores it under the key; when the key is absent it returns
    and stores a value of [start.min .. start.max].  (The ranges are not
    empty.) *)
Theorem sequence_generate_step name f info key w :
  SequenceField.key_of name f info = Ok key →
  (∀ first,
     cache_of w (SequenceField.cache f) !! key = Some first →
     (SequenceField.step f).1 ≤ (SequenceField.step f).2 →
     ∃ second w',
       SequenceField.generate name f info w = (Ok (VInt second), w')
       ∧ first + (SequenceField.step f).1 ≤ second
                 ≤ first + (SequenceField.step f).2
       ∧ cache_of w' (SequenceField.cache f) !! key = Some second)
  ∧ (cache_of w (SequenceField.cache f) !! key = None →
     (SequenceField.start f).1 ≤ (SequenceField.start f).2 →
     ∃ seq w',
       SequenceField.generate name f info w = (Ok (VInt seq), w')
       ∧ (SequenceField.start f).1 ≤ seq ≤ (SequenceField.start f).2
       ∧ cache_of w' (SequenceField.cache f) !! key = Some seq).
Proof.
  intros Hkey. split.
  - intros first Hfirst Hstep.
    destruct (randint_range _ _ w Hstep) as (n & Hdraw & Hn).
    exists (first + n). eexists. split; [|split].
    + cbv [SequenceField.generate SequenceField._next_seq mbind M_bind
             mret M_ret lift cache_contains cache_getitem].
      rewrite Hkey, Hfirst. rewrite bool_decide_true by by eexists.
      rewrite Hfirst, Hdraw. reflexivity.
    + lia.
    + apply cache_of_setitem.
  - intros Hnone Hstart.
    destruct (randint_range _ _ w Hstart) as (n & Hdraw & Hn).
    exists n. eexists. split; [|split].
    + cbv [SequenceField.generate SequenceField._new_seq mbind M_bind
             mret M_ret lift cache_contains cache_getitem].
      rewrite Hkey, Hnone. rewrite bool_decide_false by by intros [? ?].
      rewrite Hdraw. reflexivity.
    + lia.
    + apply cache_of_setitem.
Qed.

Lemma sequence_generate_step_witness :
  ∃ second w',
    SequenceField.generate "sequence" order_sequence
      {[ "time" := VStr "2018-01-01 00:00:05" ]} used_world
    = (Ok (VInt second), w')
    ∧ 10 + 1 ≤ second ≤ 10 + 10
    ∧ cache_of w' 0%nat !! "2018-01-01 00:00:05" = Some second.
Proof.
  assert (SequenceField.key_of "sequence" order_sequence
            {[ "time" := VStr "2018-01-01 00:00:05" ]}
          = Ok "2018-01-01 00:00:05") as Hkey by (vm_compute; reflexivity).
  apply (proj1 (sequence_generate_step "sequence" order_sequence
                  {[ "time" := VStr "2018-01-01 00:00:05" ]}
                  "2018-01-01 00:00:05" used_world Hkey) 10).
  - vm_compute. reflexivity.
  - simpl. lia.
Defined.

(** ** IdGenerator.generate and the counter store *)

Lemma M_bind_Ok {A B} (m : M A) (f : A → M B) w a w' :
  m w = (Ok a, w') → (m ≫= f) w = f a w'.
Proof. intros H. unfold mbind, M_bind. by rewrite H. Qed.

Lemma M_bind_Raise {A B} (m : M A) (f : A → M B) w e w' :
  m w = (Raise e, w') → (m ≫= f) w = (Raise e, w').
Proof. intros H. unfold mbind, M_bind. by rewrite H. Qed.

Lemma M_bind_Ok_inv {A B} (m : M A) (f : A → M B) w b w2 :
  (m ≫= f) w = (Ok b, w2) →
  ∃ a w1, m w = (Ok a, w1) ∧ f a w1 = (Ok b, w2).
Proof.
  unfold mbind, M_bind. destruct (m w) as [[a|e] w1]; [by eauto|done].
Qed.

(** A field that is not a SequenceField leaves the store alone. *)
Lemma generate_other field info w r w' :
  (∀ f, subclass_of field ≠ IsSequenceField f) →
  generate field info w = (r, w') →
  journal w' = journal w ∧ caches w' = caches w.
Proof.
  intros Hsub. unfold generate.
  destruct (subclass_of field) as [f|f|f|f]; [| | |by destruct (Hsub f)].
  - cbv [NumberField.generate mbind M_bind mret M_ret randint].
    destruct (_ <? _); by intros [= _ <-].
  - cbv [DateTimeField.generate mbind M_bind mret M_ret datetime_now].
    by intros [= _ <-].
  - cbv [TimeField.generate mbind M_bind mret M_ret datetime_now].
    by intros [= _ <-].
Qed.

(** A SequenceField that returns has run its [cache[key] = seq]. *)
Lemma generate_sequence name f info w v w' :
  SequenceField.generate name f info w = (Ok v, w') →
  ∃ key seq,
    journal w' = (SequenceField.cache f, key, seq) :: journal w
    ∧ caches w' = apply_write (SequenceField.cache f, key, seq) (caches w).
Proof.
  cbv [SequenceField.generate SequenceField._next_seq SequenceField._new_seq
       mbind M_bind mret M_ret lift cache_contains cache_getitem randint].
  destruct (SequenceField.key_of name f info) as [key|e]; [|done].
  destruct (bool_decide _).
  - destruct (cache_of w (SequenceField.cache f) !! key) as [prev|]; [|done].
    destruct (_ <? _); [done|]. simpl. intros [= _ <-]. simpl. by eauto.
  - destruct (_ <? _); [done|]. simpl. intros [= _ <-]. simpl. by eauto.
Qed.

Lemma pending_caches_cons custom_data field rest :
  pending_caches custom_data (field :: rest)
  = match subclass_of field, custom_data !! name field with
    | IsSequenceField f, None =>
        SequenceField.cache f :: pending_caches custom_data rest
    | _, _ => pending_caches custom_data rest
    end.
Proof.
  unfold pending_caches. simpl.
  by destruct (subclass_of field), (custom_data !! name field).
Qed.

(** The generation phase writes one counter per pending SequenceField, in
    field order, and nothing else. *)
Lemma generate_loop_journal custom_data fields : ∀ info w info' w1,
  generate_loop custom_data info fields w = (Ok info', w1) →
  ∃ new,
    journal w1 = new ++ journal w
    ∧ caches w1 = replay new (caches w)
    ∧ (λ e, e.1.1) <$> new = reverse (pending_caches custom_data fields).
Proof.
  induction fields as [|field rest IH]; intros info w info' w1 Hloop.
  { injection Hloop as _ <-. by exists []. }
  rewrite pending_caches_cons. simpl in Hloop.
  destruct (custom_data !! name field) as [v|] eqn:Hcustom.
  { apply IH in Hloop. by destruct (subclass_of field). }
  apply M_bind_Ok_inv in Hloop as (v & w2 & Hgen & Hloop).
  apply IH in Hloop as (new & Hj & Hc & Hnew).
  destruct (subclass_of field) as [f|f|f|f] eqn:Hsub.
  4: { unfold generate in Hgen. rewrite Hsub in Hgen.
       apply generate_sequence in Hgen as (key & seq & Hj2 & Hc2).
       exists (new ++ [(SequenceField.cache f, key, seq)]).
       rewrite Hj, Hj2, Hc, Hc2, <- app_assoc, fmap_app, reverse_cons, Hnew.
       unfold replay. by rewrite foldr_app. }
  all: apply generate_other in Hgen as [Hj2 Hc2]; [|by rewrite Hsub].
  all: exists new; by rewrite Hj, Hj2, Hc, Hc2.
Qed.

(** C2, as the code has it.  When a field's encode step or the assembly
    fails, [generate] raises in the world its generation phase left: that
    phase has by then stored one counter for each SequenceField that
    [custom_data] does not supply, in field order, and the failing steps
    write nothing themselves. *)
Theorem generate_failure_after_writes self custom_data w info w1 e :
  _generate self custom_data w = (Ok info, w1) →
  (parts ← _encode self info; _assemble self parts) = Raise e →
  IdGenerator_generate self custom_data w = (Raise e, w1)
  ∧ ∃ new,
      journal w1 = new ++ journal w
      ∧ caches w1 = replay new (caches w)
      ∧ (λ e, e.1.1) <$> new
        = reverse (pending_caches custom_data (fields self)).
Proof.
  intros Hgen Hfail. split.
  - unfold IdGenerator_generate. rewrite (M_bind_Ok _ _ _ _ _ Hgen).
    destruct (_encode self info) as [parts|e'] eqn:Henc.
    + cbv [mbind M_bind lift]. simpl in Hfail. by rewrite Hfail.
    + cbv [mbind M_bind lift]. simpl in Hfail. by injection Hfail as ->.
  - by eapply generate_loop_journal.
Qed.

Example order_yesterday_generate :
  _generate order {[ "time" := VStr "yesterday" ]} fresh_world
  = (Ok yesterday_info, yesterday_world).
Proof. vm_compute. reflexivity. Defined.

Example order_yesterday_encode :
  (parts ← _encode order yesterday_info; _assemble order parts)
  = Raise (TimeDataMismatch "yesterday" "%Y-%m-%d %H:%M:%S").
Proof. vm_compute. reflexivity. Defined.

Lemma generate_failure_after_writes_witness :
  IdGenerator_generate order {[ "time" := VStr "yesterday" ]} fresh_world
  = (Raise (TimeDataMismatch "yesterday" "%Y-%m-%d %H:%M:%S"), yesterday_world).
Proof.
  exact (proj1 (generate_failure_after_writes order
                  {[ "time" := VStr "yesterday" ]} fresh_world
                  yesterday_info yesterday_world _
                  order_yesterday_generate order_yesterday_encode)).
Defined.

(** C2 fails as stated: on the generator ['order'] with the custom data
    [{"time": "yesterday"}] the encode step of the time field raises, and
    by then the sequence field has stored the counter 7 under the key
    ["yesterday"] of a cache that was empty. *)
Lemma generate_not_atomic :
  ¬ ∀ self custom_data w info w1 e w',
      _generate self custom_data w = (Ok info, w1) →
      (parts ← _encode self info; _assemble self parts) = Raise e →
      IdGenerator_generate self custom_data w = (Raise e, w') →
      caches w' = caches w.
Proof.
  intros Hclaim.
  assert (IdGenerator_generate order {[ "time" := VStr "yesterday" ]}
            fresh_world
          = (Raise (TimeDataMismatch "yesterday" "%Y-%m-%d %H:%M:%S"),
             yesterday_world)) as Hfail by (vm_compute; reflexivity).
  specialize (Hclaim order _ fresh_world _ _ _ _
                order_yesterday_generate order_yesterday_encode Hfail).
  apply (f_equal (λ store, store !! 0%nat)) in Hclaim.
  unfold yesterday_world, fresh_world in Hclaim. simpl in Hclaim.
  rewrite lookup_singleton_eq, lookup_empty in Hclaim. discriminate Hclaim.
Qed.

(** ** The calendar *)

(** A property checked on every integer of a range. *)
Lemma Z_range_check (P : Z → bool) lo n :
  forallb P (seqZ lo n) = true → ∀ v, lo ≤ v < lo + n → P v = true.
Proof.
  intros Hall v Hv. rewrite forallb_forall in Hall. apply Hall.
  apply list_elem_of_In, elem_of_seqZ. lia.
Qed.

Lemma is_leap_true y :
  _is_leap y = true ↔ y mod 4 = 0 ∧ (y mod 100 ≠ 0 ∨ y mod 400 = 0).
Proof.
  unfold _is_leap.
  destruct (Z.eqb_spec (y mod 4) 0), (Z.eqb_spec (y mod 100) 0),
    (Z.eqb_spec (y mod 400) 0); simpl; intuition (try done; try lia).
Qed.

(** A year counted in cycles of 400, 100, 4 and 1 years. *)
Lemma is_leap_cycles a b c e :
  0 ≤ b ≤ 3 → 0 ≤ c ≤ 24 → 0 ≤ e ≤ 3 →
  _is_leap (400 * a + 100 * b + 4 * c + e + 1)
  = (e =? 3) && (negb (c =? 24) || (b =? 3)).
Proof.
  intros Hb Hc He.
  pose proof (is_leap_true (400 * a + 100 * b + 4 * c + e + 1)) as Hleap.
  destruct (_is_leap _); symmetry.
  - destruct Hleap as [Hleap _]. specialize (Hleap eq_refl).
    destruct (Z.eqb_spec e 3), (Z.eqb_spec c 24), (Z.eqb_spec b 3); simpl;
      try done; exfalso; Z.div_mod_to_equations; lia.
  - destruct (Z.eqb_spec e 3), (Z.eqb_spec c 24), (Z.eqb_spec b 3); simpl;
      try done; exfalso; assert (false = true) as Hno; try done;
      apply Hleap; subst; Z.div_mod_to_equations; lia.
Qed.

Lemma days_before_year_cycles a b c e :
  0 ≤ b ≤ 3 → 0 ≤ c ≤ 24 → 0 ≤ e ≤ 3 →
  _days_before_year (400 * a + 100 * b + 4 * c + e + 1)
  = 146097 * a + 36524 * b + 1461 * c + 365 * e.
Proof.
  intros Hb Hc He. unfold _days_before_year.
  Z.div_mod_to_equations. lia.
Qed.

Lemma year_cycles y :
  ∃ a b c e, y = 400 * a + 100 * b + 4 * c + e + 1
             ∧ 0 ≤ b ≤ 3 ∧ 0 ≤ c ≤ 24 ∧ 0 ≤ e ≤ 3.
Proof.
  exists ((y - 1) / 400), ((y - 1) mod 400 / 100), ((y - 1) mod 100 / 4),
         ((y - 1) mod 4).
  repeat split; Z.div_mod_to_equations; lia.
Qed.

Lemma days_in_month_length y m :
  _days_in_month y m = month_length (_is_leap y) m.
Proof. done. Qed.

Lemma days_before_month_offset y m :
  _days_before_month y m = month_offset (_is_leap y) m.
Proof. done. Qed.

(** The first half of [_ord2ymd] on a day that is not the 366th of its
    year, and on a 366th day. *)
Lemma ord2ymd_cycles a b c e doy :
  0 ≤ b ≤ 3 → 0 ≤ c ≤ 24 → 0 ≤ e ≤ 3 →
  0 ≤ doy ≤ 364 →
  _ord2ymd (146097 * a + 36524 * b + 1461 * c + 365 * e + doy + 1)
  = let '(m, d) := month_day ((e =? 3) && (negb (c =? 24) || (b =? 3))) doy in
    (400 * a + 100 * b + 4 * c + e + 1, m, d).
Proof.
  intros Hb Hc He Hdoy. unfold _ord2ymd, divmod, _DI400Y, _DI100Y, _DI4Y.
  set (n0 := 146097 * a + 36524 * b + 1461 * c + 365 * e + doy + 1 - 1).
  assert (n0 / 146097 = a) as -> by (subst n0; Z.div_mod_to_equations; lia).
  assert (n0 mod 146097 = 36524 * b + 1461 * c + 365 * e + doy) as ->
    by (subst n0; Z.div_mod_to_equations; lia).
  set (n1 := 36524 * b + 1461 * c + 365 * e + doy).
  assert (n1 / 36524 = b) as -> by (subst n1; Z.div_mod_to_equations; lia).
  assert (n1 mod 36524 = 1461 * c + 365 * e + doy) as ->
    by (subst n1; Z.div_mod_to_equations; lia).
  set (n2 := 1461 * c + 365 * e + doy).
  assert (n2 / 1461 = c) as -> by (subst n2; Z.div_mod_to_equations; lia).
  assert (n2 mod 1461 = 365 * e + doy) as ->
    by (subst n2; Z.div_mod_to_equations; lia).
  set (n3 := 365 * e + doy).
  assert (n3 / 365 = e) as -> by (subst n3; Z.div_mod_to_equations; lia).
  assert (n3 mod 365 = doy) as -> by (subst n3; Z.div_mod_to_equations; lia).
  destruct (Z.eqb_spec e 4); [lia|]. destruct (Z.eqb_spec b 4); [lia|].
  cbn [orb]. unfold month_day.
  destruct (_ <? _); f_equal; f_equal; lia.
Qed.

Lemma ord2ymd_last_day a b c :
  0 ≤ b ≤ 3 → 0 ≤ c ≤ 24 → (c ≠ 24 ∨ b = 3) →
  _ord2ymd (146097 * a + 36524 * b + 1461 * c + 365 * 3 + 365 + 1)
  = (400 * a + 100 * b + 4 * c + 3 + 1, 12, 31).
Proof.
  intros Hb Hc Hleap. unfold _ord2ymd, divmod, _DI400Y, _DI100Y, _DI4Y.
  set (n0 := 146097 * a + 36524 * b + 1461 * c + 365 * 3 + 365 + 1 - 1).
  assert (n0 / 146097 = a) as -> by (subst n0; Z.div_mod_to_equations; lia).
  assert (n0 mod 146097 = 36524 * b + 1461 * c + 1460) as ->
    by (subst n0; Z.div_mod_to_equations; lia).
  destruct (Z.eq_dec c 24) as [->|Hc24].
  - assert (b = 3) as -> by lia.
    replace (36524 * 3 + 1461 * 24 + 1460) with (4 * 36524) by reflexivity.
    rewrite Z.div_mul, Z.mod_mul by done.
    change (0 mod 1461) with 0. change (0 / 1461) with 0.
    change (0 / 365) with 0.
    rewrite orb_true_r. f_equal. f_equal. lia.
  - set (n1 := 36524 * b + 1461 * c + 1460).
    assert (n1 / 36524 = b) as -> by (subst n1; Z.div_mod_to_equations; lia).
    assert (n1 mod 36524 = 1461 * c + 1460) as ->
      by (subst n1; Z.div_mod_to_equations; lia).
    set (n2 := 1461 * c + 1460).
    assert (n2 / 1461 = c) as -> by (subst n2; Z.div_mod_to_equations; lia).
    assert (n2 mod 1461 = 1460) as ->
      by (subst n2; Z.div_mod_to_equations; lia).
    change (1460 / 365) with 4. change (1460 mod 365) with 0.
    cbn [Z.eqb orb]. simpl. f_equal. f_equal. lia.
Qed.

(** The second half, checked on every day of both kinds of year. *)
Lemma month_length_le_31 leap m : 1 ≤ m ≤ 12 → month_length leap m ≤ 31.
Proof.
  intros Hm.
  assert (forallb (λ leap, month_length leap m <=? 31) [true; false] = true)
    as Hlen.
  { revert m Hm. intros m Hm.
    apply (Z_range_check
             (λ m, forallb (λ leap, month_length leap m <=? 31) [true; false])
             1 12); [vm_compute; reflexivity|lia]. }
  simpl in Hlen. destruct leap; lia.
Qed.

Lemma month_day_of_date leap m d :
  1 ≤ m ≤ 12 → 1 ≤ d ≤ month_length leap m →
  0 ≤ month_offset leap m + d - 1 ≤ (if leap then 365 else 364)
  ∧ (month_offset leap m + d - 1 = 365 → m = 12 ∧ d = 31)
  ∧ (month_offset leap m + d - 1 ≤ 364 →
     month_day leap (month_offset leap m + d - 1) = (m, d)).
Proof.
  intros Hm Hd.
  pose proof (month_length_le_31 leap m Hm) as H31.
  set (check := λ (leap : bool) (m d : Z),
    let n := month_offset leap m + d - 1 in
    implb (d <=? month_length leap m)
      ((0 <=? n) && (n <=? (if leap then 365 else 364))
       && implb (n =? 365) ((m =? 12) && (d =? 31))
       && implb (n <=? 364)
            (((month_day leap n).1 =? m) && ((month_day leap n).2 =? d)))).
  assert (check leap m d = true) as Hcheck.
  { apply (Z_range_check (check leap m) 1 31); [|lia].
    apply (Z_range_check (λ m, forallb (check leap m) (seqZ 1 31)) 1 12);
      [|lia].
    destruct leap; vm_compute; reflexivity. }
  unfold check in Hcheck. cbv zeta in Hcheck.
  destruct (Z.leb_spec d (month_length leap m)); [|lia]. simpl in Hcheck.
  destruct (month_day leap (month_offset leap m + d - 1)) as [m' d'].
  simpl in Hcheck.
  apply andb_prop in Hcheck as [Hcheck Hday].
  apply andb_prop in Hcheck as [Hcheck Hlast].
  apply andb_prop in Hcheck as [Hlo Hhi].
  split; [lia|]. split.
  - intros H365. rewrite H365 in Hlast. simpl in Hlast.
    apply andb_prop in Hlast. lia.
  - intros H364. destruct (Z.leb_spec (month_offset leap m + d - 1) 364);
      [|lia]. simpl in Hday. apply andb_prop in Hday. f_equal; lia.
Qed.

Lemma month_day_valid leap n :
  0 ≤ n ≤ 364 →
  1 ≤ (month_day leap n).1 ≤ 12
  ∧ 1 ≤ (month_day leap n).2 ≤ month_length leap (month_day leap n).1.
Proof.
  intros Hn.
  set (check := λ (leap : bool) (n : Z),
    let '(m, d) := month_day leap n in
    (1 <=? m) && (m <=? 12) && (1 <=? d) && (d <=? month_length leap m)).
  assert (check leap n = true) as Hcheck.
  { apply (Z_range_check (check leap) 0 365); [|lia].
    destruct leap; vm_compute; reflexivity. }
  unfold check in Hcheck. destruct (month_day leap n) as [m d]. simpl.
  repeat match type of Hcheck with
  | _ && _ = true => apply andb_prop in Hcheck as [Hcheck ?]
  end.
  lia.
Qed.

Lemma month_length_december leap : month_length leap 12 = 31.
Proof. by destruct leap. Qed.

(** [_ord2ymd] undoes [_ymd2ord] on every date of the calendar. *)
Lemma ord2ymd_ymd2ord y m d :
  valid_date y m d → _ord2ymd (_ymd2ord y m d) = (y, m, d).
Proof.
  intros (Hy & Hm & Hd). rewrite days_in_month_length in Hd.
  destruct (year_cycles y) as (a & b & c & e & -> & Hb & Hc & He).
  unfold _ymd2ord.
  rewrite days_before_year_cycles, days_before_month_offset by done.
  rewrite is_leap_cycles in * by done.
  set (leap := (e =? 3) && (negb (c =? 24) || (b =? 3))) in *.
  destruct (month_day_of_date leap m d Hm Hd) as (Hrange & Hlast & Hday).
  destruct (Z.eq_dec (month_offset leap m + d - 1) 365) as [H365|Hnot].
  - destruct (Hlast H365) as [-> ->].
    assert (leap = true) as Hleap by (destruct leap; [done|lia]).
    subst leap. apply andb_prop in Hleap as [He3 Hcb].
    apply Z.eqb_eq in He3 as ->.
    replace (146097 * a + 36524 * b + 1461 * c + 365 * 3
             + month_offset (_ && _) 12 + 31)
      with (146097 * a + 36524 * b + 1461 * c + 365 * 3 + 365 + 1) by lia.
    apply ord2ymd_last_day; [done..|].
    destruct (Z.eqb_spec c 24), (Z.eqb_spec b 3); simpl in Hcb; auto.
  - replace (146097 * a + 36524 * b + 1461 * c + 365 * e
             + month_offset leap m + d)
      with (146097 * a + 36524 * b + 1461 * c + 365 * e
            + (month_offset leap m + d - 1) + 1) by lia.
    rewrite ord2ymd_cycles by (done || destruct leap; lia).
    fold leap. rewrite Hday by (destruct leap; lia). done.
Qed.

Lemma ymd2ord_range y m d :
  valid_date y m d → 1 ≤ _ymd2ord y m d ≤ _MAXORDINAL.
Proof.
  intros (Hy & Hm & Hd). rewrite days_in_month_length in Hd.
  destruct (year_cycles y) as (a & b & c & e & -> & Hb & Hc & He).
  unfold _ymd2ord, _MAXORDINAL, MINYEAR, MAXYEAR in *.
  rewrite days_before_year_cycles, days_before_month_offset by done.
  rewrite is_leap_cycles in * by done.
  set (leap := (e =? 3) && (negb (c =? 24) || (b =? 3))) in *.
  destruct (month_day_of_date leap m d Hm Hd) as (Hrange & _ & _).
  assert (leap = true → e = 3) as Hleap.
  { subst leap. intros [He3 _]%andb_prop. by apply Z.eqb_eq. }
  destruct leap; [specialize (Hleap eq_refl)|clear Hleap]; lia.
Qed.

(** Every ordinal of the calendar, counted in cycles. *)
Lemma ordinal_cycles n :
  ∃ a b c e doy,
    n = 146097 * a + 36524 * b + 1461 * c + 365 * e + doy + 1
    ∧ 0 ≤ b ≤ 3 ∧ 0 ≤ c ≤ 24 ∧ 0 ≤ e ≤ 3
    ∧ (0 ≤ doy ≤ 364 ∨ (doy = 365 ∧ e = 3 ∧ (c ≠ 24 ∨ b = 3))).
Proof.
  set (a := (n - 1) / 146097). set (r1 := (n - 1) mod 146097).
  set (b := r1 / 36524). set (r2 := r1 mod 36524).
  set (c := r2 / 1461). set (r3 := r2 mod 1461).
  set (e := r3 / 365). set (doy := r3 mod 365).
  destruct (Z.eq_dec b 4) as [Hb4|Hb4].
  { exists a, 3, 24, 3, 365. subst a b r1.
    split; [Z.div_mod_to_equations; lia|].
    do 3 (split; [lia|]). right. auto. }
  destruct (Z.eq_dec e 4) as [He4|He4].
  { exists a, b, c, 3, 365. subst a b c e r3 r2 r1.
    do 4 (split; [Z.div_mod_to_equations; lia|]).
    right. split; [done|]. split; [done|]. Z.div_mod_to_equations. lia. }
  exists a, b, c, e, doy. subst a b c e doy r3 r2 r1.
  do 4 (split; [Z.div_mod_to_equations; lia|]).
  left. Z.div_mod_to_equations. lia.
Qed.

(** [_ord2ymd] gives a date of the calendar for every ordinal in range. *)
Lemma ord2ymd_valid n :
  1 ≤ n ≤ _MAXORDINAL →
  valid_date (_ord2ymd n).1.1 (_ord2ymd n).1.2 (_ord2ymd n).2.
Proof.
  unfold _MAXORDINAL. intros Hn.
  destruct (ordinal_cycles n)
    as (a & b & c & e & doy & -> & Hb & Hc & He & Hdoy).
  assert (1 ≤ 400 * a + 100 * b + 4 * c + e + 1 ≤ 9999) as Hyear by lia.
  destruct Hdoy as [Hdoy|(-> & -> & Hcb)].
  - rewrite ord2ymd_cycles by done.
    pose proof (month_day_valid
                  ((e =? 3) && (negb (c =? 24) || (b =? 3))) doy Hdoy)
      as [Hm Hd].
    destruct (month_day _ doy) as [m d]. simpl in *.
    split; [done|]. split; [done|].
    by rewrite days_in_month_length, is_leap_cycles.
  - rewrite ord2ymd_last_day by done. simpl.
    split; [unfold MINYEAR, MAXYEAR; lia|]. split; [lia|].
    rewrite days_in_month_length, month_length_december. lia.
Qed.

(** ** Constructors and arithmetic of the [datetime] library *)

Lemma check_time_fields_valid h m s :
  valid_time h m s → _check_time_fields h m s = Ok ().
Proof.
  intros (Hh & Hm & Hs). unfold _check_time_fields.
  repeat match goal with
  | |- context [?a <=? ?b] => destruct (Z.leb_spec a b); [|lia]
  end. done.
Qed.

Lemma check_time_fields_inv h m s r :
  _check_time_fields h m s = Ok r → valid_time h m s.
Proof.
  unfold _check_time_fields, valid_time.
  repeat match goal with
  | |- context [?a <=? ?b] => destruct (Z.leb_spec a b); simpl; try done
  end; intros; lia.
Qed.

Lemma check_time_fields_invalid h m s :
  ¬ valid_time h m s → _check_time_fields h m s = Raise TimeFieldOutOfRange.
Proof.
  intros Hno. destruct (_check_time_fields h m s) as [[]|e] eqn:Hc.
  - by apply check_time_fields_inv in Hc.
  - revert Hc. unfold _check_time_fields.
    repeat match goal with
    | |- context [if ?b then _ else _] => destruct b
    end; congruence.
Qed.

Lemma check_date_fields_valid y m d :
  valid_date y m d → _check_date_fields y m d = Ok ().
Proof.
  intros (Hy & Hm & Hd). unfold _check_date_fields.
  repeat match goal with
  | |- context [?a <=? ?b] => destruct (Z.leb_spec a b); [|lia]
  end. done.
Qed.

Lemma check_date_fields_inv y m d r :
  _check_date_fields y m d = Ok r → valid_date y m d.
Proof.
  unfold _check_date_fields, valid_date.
  repeat match goal with
  | |- context [?a <=? ?b] => destruct (Z.leb_spec a b); simpl; try done
  end; intros; lia.
Qed.

Lemma new_datetime_valid y m d h mi s :
  valid_date y m d → valid_time h mi s →
  new_datetime y m d h mi s
  = Ok {| year := y; month := m; day := d; hour := h; minute := mi; second := s |}.
Proof.
  intros Hd Ht. unfold new_datetime.
  by rewrite check_date_fields_valid, check_time_fields_valid.
Qed.

Lemma new_datetime_inv y m d h mi s dt :
  new_datetime y m d h mi s = Ok dt →
  valid_datetime dt
  ∧ dt = {| year := y; month := m; day := d; hour := h; minute := mi; second := s |}.
Proof.
  unfold new_datetime.
  destruct (_check_date_fields y m d) as [[]|] eqn:Hd; [|done].
  destruct (_check_time_fields h mi s) as [[]|] eqn:Ht; [|done].
  simpl. intros [= <-].
  apply check_date_fields_inv in Hd. apply check_time_fields_inv in Ht. done.
Qed.

Lemma time_of_day_range dt :
  valid_datetime dt → 0 ≤ time_of_day dt < 86400.
Proof. intros [_ (Hh & Hm & Hs)]. unfold time_of_day. lia. Qed.

Lemma instant_in_calendar dt : valid_datetime dt → in_calendar (instant dt).
Proof.
  intros Hv. pose proof (time_of_day_range dt Hv) as Ht.
  destruct Hv as [Hd _]. apply ymd2ord_range in Hd.
  unfold in_calendar, instant, toordinal, _MAXORDINAL in *. lia.
Qed.

Lemma datetime_of_instant_instant dt :
  valid_datetime dt → datetime_of_instant (instant dt) = dt.
Proof.
  intros Hv. pose proof (time_of_day_range dt Hv) as Ht.
  destruct Hv as [Hd (Hh & Hm & Hs)].
  unfold datetime_of_instant, instant.
  assert ((toordinal dt * 86400 + time_of_day dt) / 86400 = toordinal dt) as ->
    by (Z.div_mod_to_equations; lia).
  assert ((toordinal dt * 86400 + time_of_day dt) mod 86400 = time_of_day dt)
    as -> by (Z.div_mod_to_equations; lia).
  unfold toordinal. rewrite ord2ymd_ymd2ord by done.
  destruct dt as [y m d h mi s]. unfold time_of_day in *. simpl in *.
  f_equal; Z.div_mod_to_equations; lia.
Qed.

Lemma datetime_of_instant_valid t :
  in_calendar t → valid_datetime (datetime_of_instant t).
Proof.
  unfold in_calendar, _MAXORDINAL. intros Ht. unfold datetime_of_instant.
  pose proof (ord2ymd_valid (t / 86400)) as Hd.
  destruct (_ord2ymd (t / 86400)) as [[y m] d]. simpl in Hd.
  split; simpl.
  - apply Hd. unfold _MAXORDINAL. Z.div_mod_to_equations. lia.
  - unfold valid_time. Z.div_mod_to_equations. lia.
Qed.

Lemma new_timedelta_spec d s :
  new_timedelta d s
  = if decide (Z.abs (d + s / 86400) ≤ 999999999)
    then Ok {| days := d + s / 86400; seconds := s mod 86400 |}
    else Raise OverflowError.
Proof.
  unfold new_timedelta, divmod. change (24 * 3600) with 86400.
  destruct (Z.ltb_spec 999999999 (Z.abs (d + s / 86400))); case_decide;
    done || lia.
Qed.

Lemma timedelta_since_epoch dt delta :
  valid_datetime dt → 0 ≤ seconds delta < 86400 →
  (d1 ← new_timedelta (toordinal dt) (time_of_day dt);
   new_timedelta (days d1 + days delta) (seconds d1 + seconds delta))
  = new_timedelta 0 (instant dt + total_seconds delta).
Proof.
  intros Hv Hs. pose proof (time_of_day_range dt Hv) as Ht.
  destruct Hv as [Hd _]. apply ymd2ord_range in Hd. fold (toordinal dt) in Hd.
  rewrite !new_timedelta_spec.
  rewrite (Z.div_small (time_of_day dt)), (Z.mod_small (time_of_day dt)) by lia.
  rewrite decide_True by (unfold _MAXORDINAL in Hd; lia).
  cbn [mbind result_bind days seconds]. rewrite new_timedelta_spec.
  unfold instant, total_seconds.
  generalize dependent (toordinal dt). generalize dependent (time_of_day dt).
  intros tod Htod ord Hord.
  assert (ord + 0 + days delta + (tod + seconds delta) / 86400
          = 0 + (ord * 86400 + tod + (days delta * 86400 + seconds delta)) / 86400)
    as -> by (Z.div_mod_to_equations; lia).
  assert ((tod + seconds delta) mod 86400
          = (ord * 86400 + tod + (days delta * 86400 + seconds delta)) mod 86400)
    as -> by (Z.div_mod_to_equations; lia).
  done.
Qed.

Lemma datetime_add_spec dt delta :
  valid_datetime dt → 0 ≤ seconds delta < 86400 →
  datetime_add dt delta
  = if decide (in_calendar (instant dt + total_seconds delta))
    then Ok (datetime_of_instant (instant dt + total_seconds delta))
    else Raise OverflowError.
Proof.
  intros Hv Hs.
  assert (datetime_add dt delta
          = (delta ← new_timedelta 0 (instant dt + total_seconds delta);
             let '(hour, rem) := divmod (seconds delta) 3600 in
             let '(minute, second) := divmod rem 60 in
             if (0 <? days delta) && (days delta <=? _MAXORDINAL) then
               let '(y, m, d) := _ord2ymd (days delta) in
               new_datetime y m d hour minute second
             else Raise OverflowError)) as ->.
  { rewrite <- timedelta_since_epoch by done. unfold datetime_add.
    fold (time_of_day dt).
    by destruct (new_timedelta (toordinal dt) (time_of_day dt)). }
  generalize (instant dt + total_seconds delta). intros T.
  rewrite new_timedelta_spec, Z.add_0_l.
  destruct (decide (in_calendar T)) as [Hcal|Hcal].
  - pose proof (datetime_of_instant_valid T Hcal) as [Hdate Htime].
    unfold in_calendar, _MAXORDINAL in Hcal.
    assert (1 ≤ T / 86400 ≤ 3652059) as Hday by (Z.div_mod_to_equations; lia).
    rewrite decide_True by lia. cbn [mbind result_bind days seconds]. unfold divmod.
    destruct (Z.ltb_spec 0 (T / 86400)); [|lia].
    destruct (Z.leb_spec (T / 86400) _MAXORDINAL); [|unfold _MAXORDINAL in *; lia].
    cbn [andb]. unfold datetime_of_instant in *.
    destruct (_ord2ymd (T / 86400)) as [[y m] d].
    by rewrite new_datetime_valid.
  - case_decide; [|done]. cbn [mbind result_bind days seconds]. unfold divmod.
    destruct (Z.ltb_spec 0 (T / 86400)); [|done].
    destruct (Z.leb_spec (T / 86400) _MAXORDINAL); [|done].
    exfalso. apply Hcal. unfold in_calendar, _MAXORDINAL in *.
    Z.div_mod_to_equations. lia.
Qed.

(** ** Decoding the time fields *)

Lemma new_time_spec h m s :
  new_time h m s
  = if decide (valid_time h m s)
    then Ok {| time_hour := h; time_minute := m; time_second := s |}
    else Raise TimeFieldOutOfRange.
Proof.
  unfold new_time. case_decide as Hv.
  - by rewrite check_time_fields_valid.
  - by rewrite check_time_fields_invalid.
Qed.

(** [TimeField.decode] succeeds on the numbers that stay within a day. *)
Lemma TimeField_decode_spec f n :
  let seconds := n * TimeField.Precision_value (TimeField.precision f) in
  TimeField.decode f n
  = if decide (0 ≤ seconds < 86400)
    then Ok (VStr (time_strftime (TimeField.format f)
                     {| time_hour := seconds / 3600;
                        time_minute := seconds mod 3600 / 60;
                        time_second := seconds mod 3600 mod 60 |}))
    else Raise TimeFieldOutOfRange.
Proof.
  intros seconds. unfold TimeField.decode, divmod. fold seconds.
  rewrite new_time_spec. generalize seconds. clear seconds. intros seconds.
  unfold valid_time.
  destruct (decide (0 ≤ seconds < 86400)).
  - rewrite decide_True; [done|]. Z.div_mod_to_equations. lia.
  - rewrite decide_False; [done|]. Z.div_mod_to_equations. lia.
Qed.

Lemma TimeField_Precision_value_pos p : 0 < TimeField.Precision_value p.
Proof. by destruct p. Qed.

Lemma DateTimeField_Precision_value_pos p : 0 < DateTimeField.Precision_value p.
Proof. by destruct p. Qed.

(** [DateTimeField.decode] succeeds on the numbers that keep
    [base + number * precision] seconds on the calendar. *)
Lemma DateTimeField_decode_spec f n :
  valid_datetime (DateTimeField.base f) →
  let t := instant (DateTimeField.base f)
           + n * DateTimeField.Precision_value (DateTimeField.precision f) in
  DateTimeField.decode f n
  = if decide (in_calendar t)
    then Ok (VStr (strftime (DateTimeField.format f) (datetime_of_instant t)))
    else Raise OverflowError.
Proof.
  intros Hbase t. unfold DateTimeField.decode.
  pose proof (instant_in_calendar _ Hbase) as Hi.
  rewrite new_timedelta_spec, Z.add_0_l.
  set (s := n * DateTimeField.Precision_value (DateTimeField.precision f)) in *.
  destruct (decide (Z.abs (s / 86400) ≤ 999999999)) as [Hs|Hs].
  - cbn [mbind result_bind]. rewrite datetime_add_spec; [|done|simpl].
    + unfold total_seconds. simpl.
      replace (s / 86400 * 86400 + s mod 86400) with s
        by (Z.div_mod_to_equations; lia).
      fold t. by case_decide.
    + Z.div_mod_to_equations. lia.
  - simpl. rewrite decide_False; [done|].
    subst t. unfold in_calendar, _MAXORDINAL in *.
    Z.div_mod_to_equations. lia.
Qed.

(** C6, as the code has it.  [decode] of a SequenceField succeeds on every
    integer.  [decode] of a TimeField succeeds on [n] exactly when
    [n * precision] seconds stay within one day, and [decode] of a
    DateTimeField (with a valid [base]) exactly when [base + n * precision]
    seconds stay on the calendar, up to 9999-12-31 23:59:59; so they
    succeed on all of [0 .. mask] exactly when the mask itself does. *)
Theorem decode_succeeds_iff field n :
  (∀ f, subclass_of field = IsSequenceField f → decode field n = Ok (VInt n))
  ∧ (∀ f, subclass_of field = IsTimeField f →
       let unit := TimeField.Precision_value (TimeField.precision f) in
       (is_Ok (decode field n) ↔ 0 ≤ n * unit < 86400)
       ∧ (0 ≤ bits field →
          (∀ k, 0 ≤ k ≤ 2 ^ bits field - 1 → is_Ok (decode field k))
          ↔ (2 ^ bits field - 1) * unit < 86400))
  ∧ (∀ f, subclass_of field = IsDateTimeField f →
       valid_datetime (DateTimeField.base f) →
       let unit := DateTimeField.Precision_value (DateTimeField.precision f) in
       let start := instant (DateTimeField.base f) in
       (is_Ok (decode field n) ↔ in_calendar (start + n * unit))
       ∧ (0 ≤ bits field →
          (∀ k, 0 ≤ k ≤ 2 ^ bits field - 1 → is_Ok (decode field k))
          ↔ in_calendar (start + (2 ^ bits field - 1) * unit))).
Proof.
  split; [|split].
  - intros f Hsub. unfold decode. by rewrite Hsub.
  - intros f Hsub unit.
    pose proof (TimeField_Precision_value_pos (TimeField.precision f)) as Hu.
    fold unit in Hu.
    assert (∀ k, is_Ok (decode field k) ↔ 0 ≤ k * unit < 86400) as Hpoint.
    { intros k. unfold decode. rewrite Hsub, TimeField_decode_spec.
      fold unit. case_decide; split; try done.
      - by eexists.
      - by intros [? ?]. }
    split; [apply Hpoint|]. intros Hbits.
    pose proof (pow2_pos _ Hbits) as Hpow. split.
    + intros Hall. apply Hpoint, Hall. lia.
    + intros Hmask k Hk. apply Hpoint. nia.
  - intros f Hsub Hbase unit start.
    pose proof (DateTimeField_Precision_value_pos (DateTimeField.precision f))
      as Hu.
    fold unit in Hu.
    assert (∀ k, is_Ok (decode field k) ↔ in_calendar (start + k * unit))
      as Hpoint.
    { intros k. unfold decode. rewrite Hsub, DateTimeField_decode_spec by done.
      fold unit start. case_decide; split; try done.
      - by eexists.
      - by intros [? ?]. }
    split; [apply Hpoint|]. intros Hbits.
    pose proof (pow2_pos _ Hbits) as Hpow.
    pose proof (instant_in_calendar _ Hbase) as Hstart. fold start in Hstart.
    split.
    + intros Hall. apply Hpoint, Hall. lia.
    + intros Hmask k Hk. apply Hpoint.
      unfold in_calendar in *. nia.
Qed.

Lemma decode_succeeds_iff_witness :
  subclass_of (TimeField "hour" 5 TimeField.HOUR)
  = IsTimeField {| TimeField.precision := TimeField.HOUR |}
  ∧ (is_Ok (decode (TimeField "hour" 5 TimeField.HOUR) 23)
     ↔ 0 ≤ 23 * 3600 < 86400)
  ∧ (is_Ok (decode (TimeField "hour" 5 TimeField.HOUR) 24)
     ↔ 0 ≤ 24 * 3600 < 86400).
Proof.
  split; [reflexivity|]. split.
  - exact (proj1 (proj1 (proj2 (decode_succeeds_iff
             (TimeField "hour" 5 TimeField.HOUR) 23)) _ eq_refl)).
  - exact (proj1 (proj1 (proj2 (decode_succeeds_iff
             (TimeField "hour" 5 TimeField.HOUR) 24)) _ eq_refl)).
Defined.

(** C6 fails as stated: a TimeField of 5 bits with hour precision has the
    mask 31, and decoding 24 raises, there being no hour 24. *)
Lemma decode_in_mask_raises :
  ¬ ∀ field n,
      (∀ f, subclass_of field ≠ IsNumberField f) →
      0 ≤ n ≤ 2 ^ bits field - 1 →
      is_Ok (decode field n).
Proof.
  intros Hclaim.
  destruct (Hclaim (TimeField "hour" 5 TimeField.HOUR) 24) as [v Hv].
  - intros f. discriminate.
  - simpl. lia.
  - vm_compute in Hv. discriminate Hv.
Qed.

Example TimeField_decode_24 :
  decode (TimeField "hour" 5 TimeField.HOUR) 24 = Raise TimeFieldOutOfRange
  ∧ decode (TimeField "hour" 5 TimeField.HOUR) 23 = Ok (VStr "23").
Proof. split; reflexivity. Qed.

Example DateTimeField_decode_overflow :
  decode (DateTimeField "time" 40 DateTimeField.SECOND
            {| year := 2018; month := 1; day := 1;
               hour := 0; minute := 0; second := 0 |}) (2 ^ 38)
  = Raise OverflowError.
Proof. vm_compute. reflexivity. Qed.

(** ** Parsing: what [strptime] returns *)

Lemma items_match_keys items : ∀ s groups rest,
  (groups, rest) ∈ items_match items s → groups.*1 = item_keys items.
Proof.
  induction items as [|it items IH]; intros s groups rest Hin.
  { apply list_elem_of_singleton in Hin. by injection Hin as -> _. }
  simpl in Hin. apply list_elem_of_bind in Hin as ([m s1] & Hin & _).
  apply list_elem_of_bind in Hin as ([groups' s2] & Hin & Hrest).
  apply list_elem_of_singleton in Hin. injection Hin as -> ->.
  apply IH in Hrest. unfold item_keys in *.
  destruct it; simpl; try exact Hrest. f_equal. exact Hrest.
Qed.

Lemma found_field_absent groups c default :
  c ∉ groups.*1 → found_field groups c default = Ok default.
Proof.
  intros Hc. unfold found_field.
  destruct (find _ groups) as [[c' text]|] eqn:Hfind; [|done].
  apply find_some in Hfind as [Hin Heq]. simpl in Heq.
  apply Ascii.eqb_eq in Heq as <-. destruct Hc.
  apply list_elem_of_fmap. exists (c, text). split; [done|].
  by apply list_elem_of_In.
Qed.

(** A successful [strptime] returns a valid instant whose fields without a
    directive in the format are 1900-01-01 and midnight. *)
Lemma strptime_str_inv x format items dt :
  pattern false format = Some items →
  strptime_str x format = Ok dt →
  valid_datetime dt
  ∧ ("Y"%char ∉ item_keys items → year dt = 1900)
  ∧ ("m"%char ∉ item_keys items → month dt = 1)
  ∧ ("d"%char ∉ item_keys items → day dt = 1)
  ∧ ("H"%char ∉ item_keys items → hour dt = 0)
  ∧ ("M"%char ∉ item_keys items → minute dt = 0)
  ∧ ("S"%char ∉ item_keys items → second dt = 0).
Proof.
  intros Hpat. unfold strptime_str. rewrite Hpat.
  destruct (head (items_match items x)) as [[groups rest]|] eqn:Hhead; [|done].
  apply head_Some_elem_of, items_match_keys in Hhead. rewrite <- Hhead.
  destruct (negb _); [done|].
  destruct (found_field groups "Y" 1900) as [y|] eqn:Hy; [|done].
  destruct (found_field groups "m" 1) as [mo|] eqn:Hmo; [|done].
  destruct (found_field groups "d" 1) as [d|] eqn:Hd; [|done].
  destruct (found_field groups "H" 0) as [h|] eqn:Hh; [|done].
  destruct (found_field groups "M" 0) as [mi|] eqn:Hmi; [|done].
  destruct (found_field groups "S" 0) as [s|] eqn:Hs; [|done].
  cbn [mbind result_bind]. intros [Hvalid ->]%new_datetime_inv.
  split; [done|]. simpl.
  repeat split; intros Habsent;
    match goal with
    | H : found_field groups ?c _ = Ok _ |- _ =>
        rewrite (found_field_absent groups c) in H by done;
        by injection H as <-
    end.
Qed.

(** ** Parsing the text that [strftime] wrote *)

Lemma digit_char_class d :
  0 ≤ d ≤ 9 →
  is_digit (digit_char d) = true ∧ is_space (digit_char d) = false.
Proof.
  intros Hd.
  assert (is_digit (digit_char d) && negb (is_space (digit_char d)) = true)
    as [H1 H2%negb_true_iff]%andb_prop; [|done].
  apply (Z_range_check (λ d, is_digit (digit_char d)
                             && negb (is_space (digit_char d))) 0 10);
    [vm_compute; reflexivity|lia].
Qed.

Lemma padded2_app v s :
  zero_padded 2 v "" +:+ s
  = String (digit_char (v / 10 mod 10)) (String (digit_char (v mod 10)) s).
Proof. done. Qed.

Lemma padded4_app v s :
  zero_padded 4 v "" +:+ s
  = String (digit_char (v / 10 / 10 / 10 mod 10))
      (String (digit_char (v / 10 / 10 mod 10))
         (String (digit_char (v / 10 mod 10))
            (String (digit_char (v mod 10)) s))).
Proof. done. Qed.

Lemma int_of_str_padded2 v :
  0 ≤ v < 100 → int_of_str (zero_padded 2 v "") = Ok v.
Proof.
  intros Hv.
  assert (match int_of_str (zero_padded 2 v "") with
          | Ok n => n =? v
          | Raise _ => false
          end = true) as Hcheck.
  { apply (Z_range_check (λ v, match int_of_str (zero_padded 2 v "") with
                               | Ok n => n =? v
                               | Raise _ => false
                               end) 0 100); [vm_compute; reflexivity|lia]. }
  destruct (int_of_str _); [|done]. f_equal. lia.
Qed.

Lemma int_of_str_padded4 v :
  0 ≤ v < 10000 → int_of_str (zero_padded 4 v "") = Ok v.
Proof.
  intros Hv.
  assert (match int_of_str (zero_padded 4 v "") with
          | Ok n => n =? v
          | Raise _ => false
          end = true) as Hcheck.
  { apply (Z_range_check (λ v, match int_of_str (zero_padded 4 v "") with
                               | Ok n => n =? v
                               | Raise _ => false
                               end) 0 10000); [vm_compute; reflexivity|lia]. }
  destruct (int_of_str _); [|done]. f_equal. lia.
Qed.

(** The first match of each directive on a zero-padded field is the whole
    field. *)
Tactic Notation "first_match_upto" integer(n) constr(bound) constr(v) :=
  let k := fresh "k" in
  let Hk := fresh "Hk" in
  assert (∃ k : nat, v = Z.of_nat k ∧ (k < bound)%nat) as (k & -> & Hk)
    by (exists (Z.to_nat v); lia);
  do n (destruct k as [|k]; [first [vm_compute; reflexivity|lia]|]);
  lia.

Lemma re_H_padded v s :
  0 ≤ v ≤ 23 →
  head (re_match re_H (zero_padded 2 v "" +:+ s)) = Some (zero_padded 2 v "", s).
Proof. intros Hv. first_match_upto 24 24%nat v. Qed.

Lemma re_M_padded v s :
  0 ≤ v ≤ 59 →
  head (re_match re_M (zero_padded 2 v "" +:+ s)) = Some (zero_padded 2 v "", s).
Proof. intros Hv. first_match_upto 60 60%nat v. Qed.

Lemma re_S_padded v s :
  0 ≤ v ≤ 59 →
  head (re_match re_S (zero_padded 2 v "" +:+ s)) = Some (zero_padded 2 v "", s).
Proof. intros Hv. first_match_upto 60 60%nat v. Qed.

Lemma re_m_padded v s :
  1 ≤ v ≤ 12 →
  head (re_match re_m (zero_padded 2 v "" +:+ s)) = Some (zero_padded 2 v "", s).
Proof.
  intros Hv. first_match_upto 13 13%nat v.
Qed.

Lemma re_d_padded v s :
  1 ≤ v ≤ 31 →
  head (re_match re_d (zero_padded 2 v "" +:+ s)) = Some (zero_padded 2 v "", s).
Proof. intros Hv. first_match_upto 32 32%nat v. Qed.

Lemma re_match_digit a s :
  is_digit a = true → re_match digit (String a s) = [(String a "", s)].
Proof. intros Ha. unfold digit. cbn [re_match]. by rewrite Ha. Qed.

Lemma re_match_digit_then r a s text rest :
  is_digit a = true → re_match r s = [(text, rest)] →
  re_match (ReSeq digit r) (String a s) = [(String a text, rest)].
Proof.
  intros Ha Hr.
  change (re_match (ReSeq digit r) (String a s))
    with ('(m1, s1) ← re_match digit (String a s);
          '(m2, s2) ← re_match r s1; [(m1 +:+ m2, s2)]).
  rewrite re_match_digit by done.
  rewrite bind_cons, app_nil_r. cbn beta iota.
  rewrite Hr. by rewrite bind_cons, app_nil_r.
Qed.

Lemma re_Y_padded v s :
  0 ≤ v ≤ 9999 →
  head (re_match re_Y (zero_padded 4 v "" +:+ s)) = Some (zero_padded 4 v "", s).
Proof.
  intros Hv.
  assert (∀ d, is_digit (digit_char (d mod 10)) = true) as Hdigit.
  { intros d. apply digit_char_class. Z.div_mod_to_equations. lia. }
  rewrite padded4_app. unfold re_Y.
  erewrite re_match_digit_then; [done|apply Hdigit|].
  erewrite re_match_digit_then; [done|apply Hdigit|].
  erewrite re_match_digit_then; [done|apply Hdigit|].
  by apply re_match_digit.
Qed.

(** The steps of [items_match] along a text that matches at once. *)
Lemma head_bind_first {A B} (f : A → list B) l x y :
  head l = Some x → head (f x) = Some y → head (l ≫= f) = Some y.
Proof.
  intros [l' ->]%head_Some [t Hy]%head_Some.
  by rewrite bind_cons, Hy.
Qed.

Lemma head_items_nil s : head (items_match [] s) = Some ([], s).
Proof. done. Qed.

Lemma head_items_Group c r items text s groups rest :
  head (re_match r (text +:+ s)) = Some (text, s) →
  head (items_match items s) = Some (groups, rest) →
  head (items_match (Group c r :: items) (text +:+ s))
  = Some ((c, text) :: groups, rest).
Proof.
  intros Hre Hitems. cbn [items_match item_match].
  eapply head_bind_first; [exact Hre|]. cbn beta iota.
  eapply head_bind_first; [exact Hitems|]. done.
Qed.

Lemma head_items_Lit a items s groups rest :
  head (items_match items s) = Some (groups, rest) →
  head (items_match (Lit a :: items) (String a s)) = Some (groups, rest).
Proof.
  intros Hitems. cbn [items_match item_match].
  rewrite (proj2 (Ascii.eqb_eq _ _) eq_refl).
  eapply head_bind_first; [done|]. cbn beta iota.
  eapply head_bind_first; [exact Hitems|]. done.
Qed.

Lemma head_items_Spaces items v s groups rest :
  head (items_match items (zero_padded 2 v "" +:+ s)) = Some (groups, rest) →
  head (items_match (Spaces :: items) (String " " (zero_padded 2 v "" +:+ s)))
  = Some (groups, rest).
Proof.
  intros Hitems. cbn [items_match item_match].
  assert (spaces_match (String " " (zero_padded 2 v "" +:+ s))
          = [(" ", zero_padded 2 v "" +:+ s)]) as ->.
  { rewrite padded2_app. cbn [spaces_match].
    change (is_space " ") with true. cbn iota.
    destruct (digit_char_class (v / 10 mod 10)) as [_ ->];
      [Z.div_mod_to_equations; lia|]. done. }
  eapply head_bind_first; [done|]. cbn beta iota.
  eapply head_bind_first; [exact Hitems|]. done.
Qed.

Lemma found_field_here c text groups default :
  found_field ((c, text) :: groups) c default = int_of_str text.
Proof.
  unfold found_field. cbn [find fst].
  by rewrite (proj2 (Ascii.eqb_eq c c) eq_refl).
Qed.

Lemma found_field_later c c' text groups default :
  c ≠ c' →
  found_field ((c', text) :: groups) c default = found_field groups c default.
Proof.
  intros Hne. unfold found_field. cbn [find fst].
  by rewrite (proj2 (Ascii.eqb_neq c c') Hne).
Qed.

Lemma found_field_nil c default : found_field [] c default = Ok default.
Proof. done. Qed.

Lemma valid_datetime_ranges dt :
  valid_datetime dt →
  (1 ≤ year dt ≤ 9999 ∧ 1 ≤ month dt ≤ 12 ∧ 1 ≤ day dt ≤ 31)
  ∧ (0 ≤ hour dt ≤ 23 ∧ 0 ≤ minute dt ≤ 59 ∧ 0 ≤ second dt ≤ 59).
Proof.
  intros [(Hy & Hm & Hd) Ht]. split; [|done].
  rewrite days_in_month_length in Hd.
  pose proof (month_length_le_31 (_is_leap (year dt)) (month dt) Hm).
  unfold MINYEAR, MAXYEAR in Hy. lia.
Qed.

Ltac match_step :=
  lazymatch goal with
  | |- head (items_match [] _) = _ => eapply head_items_nil
  | |- head (items_match (Lit _ :: _) _) = _ => eapply head_items_Lit
  | |- head (items_match (Spaces :: _) _) = _ => eapply head_items_Spaces
  | |- head (items_match (Group _ re_Y :: _) _) = _ =>
      eapply head_items_Group; [apply re_Y_padded; lia|]
  | |- head (items_match (Group _ re_m :: _) _) = _ =>
      eapply head_items_Group; [apply re_m_padded; lia|]
  | |- head (items_match (Group _ re_d :: _) _) = _ =>
      eapply head_items_Group; [apply re_d_padded; lia|]
  | |- head (items_match (Group _ re_H :: _) _) = _ =>
      eapply head_items_Group; [apply re_H_padded; lia|]
  | |- head (items_match (Group _ re_M :: _) _) = _ =>
      eapply head_items_Group; [apply re_M_padded; lia|]
  | |- head (items_match (Group _ re_S :: _) _) = _ =>
      eapply head_items_Group; [apply re_S_padded; lia|]
  end.

Ltac match_steps := repeat match_step.

Lemma strptime_str_matched x format items groups :
  pattern false format = Some items →
  head (items_match items x) = Some (groups, "") →
  strptime_str x format
  = (year ← found_field groups "Y" 1900;
     month ← found_field groups "m" 1;
     day ← found_field groups "d" 1;
     hour ← found_field groups "H" 0;
     minute ← found_field groups "M" 0;
     second ← found_field groups "S" 0;
     new_datetime year month day hour minute second).
Proof. intros Hpat Hhead. unfold strptime_str. by rewrite Hpat, Hhead. Qed.

Ltac parse_with items text :=
  let Hhead := fresh "Hhead" in
  eassert (head (items_match items text) = Some (_, "")) as Hhead
    by match_steps;
  lazymatch goal with
  | |- strptime_str _ ?format = _ =>
      rewrite (strptime_str_matched text format items _ eq_refl Hhead)
  end;
  clear Hhead.

Ltac read_fields :=
  repeat first
    [ rewrite found_field_here
    | rewrite found_field_later by discriminate
    | rewrite found_field_nil ];
  rewrite ?int_of_str_padded4, ?int_of_str_padded2 by lia;
  cbn [mbind result_bind].

(** From the year 1000 on the year is written with four digits. *)
Lemma pretty_year y : 1000 ≤ y ≤ 9999 → pretty y = zero_padded 4 y "".
Proof.
  intros Hy.
  assert (String.eqb (pretty y) (zero_padded 4 y "") = true) as Hcheck.
  { apply (Z_range_check (λ y, String.eqb (pretty y) (zero_padded 4 y ""))
             1000 9000); [by vm_compute|lia]. }
  by apply String.eqb_eq.
Qed.

(** [strptime] reads back the text [strftime] wrote for a valid instant of
    the year 1000 or later, up to the fields the format leaves out. *)
Lemma DateTimeField_strptime_strftime p dt :
  valid_datetime dt → 1000 ≤ year dt →
  ∃ dt', strptime_str (strftime (DateTimeField.DATE_TIME_FORMATS p) dt)
           (DateTimeField.DATE_TIME_FORMATS p) = Ok dt'
         ∧ strftime (DateTimeField.DATE_TIME_FORMATS p) dt'
           = strftime (DateTimeField.DATE_TIME_FORMATS p) dt.
Proof.
  intros Hv Hyear. pose proof (valid_datetime_ranges dt Hv) as [Hd Ht].
  destruct Hv as [Hdate Htime].
  destruct p; cbn [DateTimeField.DATE_TIME_FORMATS]; eexists; split.
  - change (strftime "%Y-%m-%d" dt)
      with (pretty (year dt) +:+ String "-"
             (zero_padded 2 (month dt) "" +:+ String "-"
               (zero_padded 2 (day dt) "" +:+ ""))).
    rewrite pretty_year by lia.
    parse_with [Group "Y" re_Y; Lit "-"; Group "m" re_m; Lit "-";
                Group "d" re_d]
      (zero_padded 4 (year dt) "" +:+ String "-"
        (zero_padded 2 (month dt) "" +:+ String "-"
          (zero_padded 2 (day dt) "" +:+ ""))).
    read_fields. by apply new_datetime_valid; [|unfold valid_time; lia].
  - reflexivity.
  - change (strftime "%Y-%m-%d %H" dt)
      with (pretty (year dt) +:+ String "-"
             (zero_padded 2 (month dt) "" +:+ String "-"
               (zero_padded 2 (day dt) "" +:+ String " "
                 (zero_padded 2 (hour dt) "" +:+ "")))).
    rewrite pretty_year by lia.
    parse_with [Group "Y" re_Y; Lit "-"; Group "m" re_m; Lit "-";
                Group "d" re_d; Spaces; Group "H" re_H]
      (zero_padded 4 (year dt) "" +:+ String "-"
        (zero_padded 2 (month dt) "" +:+ String "-"
          (zero_padded 2 (day dt) "" +:+ String " "
            (zero_padded 2 (hour dt) "" +:+ "")))).
    read_fields. by apply new_datetime_valid; [|unfold valid_time; lia].
  - reflexivity.
  - change (strftime "%Y-%m-%d %H:%M" dt)
      with (pretty (year dt) +:+ String "-"
             (zero_padded 2 (month dt) "" +:+ String "-"
               (zero_padded 2 (day dt) "" +:+ String " "
                 (zero_padded 2 (hour dt) "" +:+ String ":"
                   (zero_padded 2 (minute dt) "" +:+ ""))))).
    rewrite pretty_year by lia.
    parse_with [Group "Y" re_Y; Lit "-"; Group "m" re_m; Lit "-";
                Group "d" re_d; Spaces; Group "H" re_H; Lit ":";
                Group "M" re_M]
      (zero_padded 4 (year dt) "" +:+ String "-"
        (zero_padded 2 (month dt) "" +:+ String "-"
          (zero_padded 2 (day dt) "" +:+ String " "
            (zero_padded 2 (hour dt) "" +:+ String ":"
              (zero_padded 2 (minute dt) "" +:+ ""))))).
    read_fields. by apply new_datetime_valid; [|unfold valid_time; lia].
  - reflexivity.
  - change (strftime "%Y-%m-%d %H:%M:%S" dt)
      with (pretty (year dt) +:+ String "-"
             (zero_padded 2 (month dt) "" +:+ String "-"
               (zero_padded 2 (day dt) "" +:+ String " "
                 (zero_padded 2 (hour dt) "" +:+ String ":"
                   (zero_padded 2 (minute dt) "" +:+ String ":"
                     (zero_padded 2 (second dt) "" +:+ "")))))).
    rewrite pretty_year by lia.
    parse_with [Group "Y" re_Y; Lit "-"; Group "m" re_m; Lit "-";
                Group "d" re_d; Spaces; Group "H" re_H; Lit ":";
                Group "M" re_M; Lit ":"; Group "S" re_S]
      (zero_padded 4 (year dt) "" +:+ String "-"
        (zero_padded 2 (month dt) "" +:+ String "-"
          (zero_padded 2 (day dt) "" +:+ String " "
            (zero_padded 2 (hour dt) "" +:+ String ":"
              (zero_padded 2 (minute dt) "" +:+ String ":"
                (zero_padded 2 (second dt) "" +:+ "")))))).
    read_fields. by apply new_datetime_valid; [|unfold valid_time; lia].
  - reflexivity.
Qed.

Lemma valid_date_1900 : valid_date 1900 1 1.
Proof.
  unfold valid_date, MINYEAR, MAXYEAR.
  change (_days_in_month 1900 1) with 31. lia.
Qed.

Lemma TimeField_strptime_strftime p dt :
  valid_datetime dt →
  ∃ dt', strptime_str (strftime (TimeField.TIME_FORMATS p) dt)
           (TimeField.TIME_FORMATS p) = Ok dt'
         ∧ strftime (TimeField.TIME_FORMATS p) dt'
           = strftime (TimeField.TIME_FORMATS p) dt.
Proof.
  intros Hv. pose proof (valid_datetime_ranges dt Hv) as [Hd Ht].
  destruct p; cbn [TimeField.TIME_FORMATS]; eexists; split.
  - change (strftime "%H" dt) with (zero_padded 2 (hour dt) "" +:+ "").
    parse_with [Group "H" re_H] (zero_padded 2 (hour dt) "" +:+ "").
    read_fields.
    by apply new_datetime_valid; [apply valid_date_1900|unfold valid_time; lia].
  - reflexivity.
  - change (strftime "%H:%M" dt)
      with (zero_padded 2 (hour dt) "" +:+ String ":"
             (zero_padded 2 (minute dt) "" +:+ "")).
    parse_with [Group "H" re_H; Lit ":"; Group "M" re_M]
      (zero_padded 2 (hour dt) "" +:+ String ":"
        (zero_padded 2 (minute dt) "" +:+ "")).
    read_fields.
    by apply new_datetime_valid; [apply valid_date_1900|unfold valid_time; lia].
  - reflexivity.
  - change (strftime "%H:%M:%S" dt)
      with (zero_padded 2 (hour dt) "" +:+ String ":"
             (zero_padded 2 (minute dt) "" +:+ String ":"
               (zero_padded 2 (second dt) "" +:+ ""))).
    parse_with [Group "H" re_H; Lit ":"; Group "M" re_M; Lit ":";
                Group "S" re_S]
      (zero_padded 2 (hour dt) "" +:+ String ":"
        (zero_padded 2 (minute dt) "" +:+ String ":"
          (zero_padded 2 (second dt) "" +:+ ""))).
    read_fields.
    by apply new_datetime_valid; [apply valid_date_1900|unfold valid_time; lia].
  - reflexivity.
Qed.

(** ** The round trip of the time fields *)

Ltac absent := by apply (bool_decide_unpack _); vm_compute.

(** What [strptime] accepts under a field's format is a valid instant on
    the grid of the field's precision. *)
Lemma DateTimeField_strptime_grid p x dt :
  strptime_str x (DateTimeField.DATE_TIME_FORMATS p) = Ok dt →
  valid_datetime dt ∧ on_grid (DateTimeField.Precision_value p) dt.
Proof.
  intros Hparse. unfold on_grid, time_of_day.
  destruct p; cbn [DateTimeField.DATE_TIME_FORMATS] in Hparse;
    eapply strptime_str_inv in Hparse
      as (Hv & _ & _ & _ & HH & HM & HS); try reflexivity;
    (split; [done|]); cbn [DateTimeField.Precision_value].
  - rewrite HH, HM, HS by absent. done.
  - rewrite HM, HS by absent. Z.div_mod_to_equations. lia.
  - rewrite HS by absent. Z.div_mod_to_equations. lia.
  - apply Z.mod_1_r.
Qed.

Lemma TimeField_strptime_grid p x dt :
  strptime_str x (TimeField.TIME_FORMATS p) = Ok dt →
  valid_datetime dt ∧ on_grid (TimeField.Precision_value p) dt.
Proof.
  intros Hparse. unfold on_grid, time_of_day.
  destruct p; cbn [TimeField.TIME_FORMATS] in Hparse;
    eapply strptime_str_inv in Hparse
      as (Hv & _ & _ & _ & HH & HM & HS); try reflexivity;
    (split; [done|]); cbn [TimeField.Precision_value].
  - rewrite HM, HS by absent. Z.div_mod_to_equations. lia.
  - rewrite HS by absent. Z.div_mod_to_equations. lia.
  - apply Z.mod_1_r.
Qed.

Lemma datetime_sub_spec dt other :
  valid_datetime dt → valid_datetime other →
  ∃ delta, datetime_sub dt other = Ok delta
           ∧ total_seconds delta = instant dt - instant other.
Proof.
  intros Hdt Hother.
  pose proof (time_of_day_range _ Hdt) as Ht1.
  pose proof (time_of_day_range _ Hother) as Ht2.
  destruct Hdt as [Hd1 _]. destruct Hother as [Hd2 _].
  apply ymd2ord_range in Hd1, Hd2. unfold _MAXORDINAL in *.
  fold (toordinal dt) in Hd1. fold (toordinal other) in Hd2.
  unfold datetime_sub, instant, time_of_day in *.
  rewrite new_timedelta_spec.
  set (s := second dt + minute dt * 60 + hour dt * 3600
            - (second other + minute other * 60 + hour other * 3600)).
  assert (-86400 < s < 86400) as Hs by (subst s; lia).
  rewrite decide_True by (Z.div_mod_to_equations; lia).
  eexists. split; [done|]. unfold total_seconds. simpl.
  subst s. Z.div_mod_to_equations. lia.
Qed.

Lemma quot_on_grid a unit : 0 < unit → a mod unit = 0 → Z.quot a unit * unit = a.
Proof.
  intros Hu Hmod. apply Z.div_exact in Hmod; [|lia].
  rewrite Hmod at 1. rewrite (Z.mul_comm unit), Z.quot_mul by lia. lia.
Qed.

Lemma DateTimeField_encode_spec f x dt :
  valid_datetime (DateTimeField.base f) →
  strptime_str x (DateTimeField.format f) = Ok dt →
  DateTimeField.encode f (VStr x)
  = Ok (Z.quot (instant dt - instant (DateTimeField.base f))
          (DateTimeField.Precision_value (DateTimeField.precision f))).
Proof.
  intros Hbase Hparse. unfold DateTimeField.encode, strptime.
  rewrite Hparse. cbn [mbind result_bind].
  apply DateTimeField_strptime_grid in Hparse as [Hdt _].
  destruct (datetime_sub_spec dt _ Hdt Hbase) as (delta & -> & Htotal).
  cbn [mbind result_bind]. by rewrite Htotal.
Qed.

Lemma DateTimeField_round_trip f x n :
  valid_datetime (DateTimeField.base f) →
  on_grid (DateTimeField.Precision_value (DateTimeField.precision f))
          (DateTimeField.base f) →
  DateTimeField.encode f (VStr x) = Ok n →
  ∃ dt, strptime_str x (DateTimeField.format f) = Ok dt
        ∧ DateTimeField.decode f n
          = Ok (VStr (strftime (DateTimeField.format f) dt)).
Proof.
  intros Hbase Hgrid Hencode.
  destruct (strptime_str x (DateTimeField.format f)) as [dt|e] eqn:Hparse.
  2: { unfold DateTimeField.encode, strptime in Hencode.
       by rewrite Hparse in Hencode. }
  rewrite (DateTimeField_encode_spec f x dt) in Hencode by done.
  injection Hencode as <-. exists dt. split; [done|].
  apply DateTimeField_strptime_grid in Hparse as [Hdt Hdtgrid].
  rewrite DateTimeField_decode_spec by done. cbv zeta.
  rewrite quot_on_grid.
  - replace (instant (DateTimeField.base f)
             + (instant dt - instant (DateTimeField.base f)))
      with (instant dt) by lia.
    rewrite decide_True by by apply instant_in_calendar.
    by rewrite datetime_of_instant_instant.
  - apply DateTimeField_Precision_value_pos.
  - unfold on_grid, instant in *.
    destruct (DateTimeField.precision f);
      cbn [DateTimeField.Precision_value] in *;
      Z.div_mod_to_equations; lia.
Qed.

Lemma TimeField_round_trip f x n :
  TimeField.encode f (VStr x) = Ok n →
  ∃ dt, strptime_str x (TimeField.format f) = Ok dt
        ∧ TimeField.decode f n = Ok (VStr (strftime (TimeField.format f) dt)).
Proof.
  unfold TimeField.encode, strptime.
  destruct (strptime_str x (TimeField.format f)) as [dt|e] eqn:Hparse; [|done].
  cbn [mbind result_bind]. intros [= <-]. exists dt. split; [done|].
  apply TimeField_strptime_grid in Hparse as [Hdt Hgrid].
  pose proof (time_of_day_range _ Hdt) as Hrange.
  destruct Hdt as [_ (Hh & Hm & Hs)].
  rewrite TimeField_decode_spec. cbv zeta.
  unfold datetime_time. cbn [time_hour time_minute time_second].
  fold (time_of_day dt).
  assert (time_of_day dt / TimeField.Precision_value (TimeField.precision f)
          * TimeField.Precision_value (TimeField.precision f)
          = time_of_day dt) as ->.
  { unfold on_grid in Hgrid.
    pose proof (TimeField_Precision_value_pos (TimeField.precision f)).
    apply Z.div_exact in Hgrid; lia. }
  rewrite decide_True by done. do 2 f_equal.
  unfold time_of_day in *.
  assert ((hour dt * 3600 + minute dt * 60 + second dt) / 3600 = hour dt)
    as -> by (Z.div_mod_to_equations; lia).
  assert ((hour dt * 3600 + minute dt * 60 + second dt) mod 3600 / 60
          = minute dt) as -> by (Z.div_mod_to_equations; lia).
  assert ((hour dt * 3600 + minute dt * 60 + second dt) mod 3600 mod 60
          = second dt) as -> by (Z.div_mod_to_equations; lia).
  unfold TimeField.format. by destruct (TimeField.precision f).
Qed.

Lemma DateTimeField_encode_written f dt :
  valid_datetime (DateTimeField.base f) →
  on_grid (DateTimeField.Precision_value (DateTimeField.precision f))
          (DateTimeField.base f) →
  valid_datetime dt → 1000 ≤ year dt →
  ∃ n, DateTimeField.encode f (VStr (strftime (DateTimeField.format f) dt))
       = Ok n
       ∧ DateTimeField.decode f n
         = Ok (VStr (strftime (DateTimeField.format f) dt)).
Proof.
  intros Hbase Hgrid Hdt Hyear.
  destruct (DateTimeField_strptime_strftime (DateTimeField.precision f) dt
              Hdt Hyear) as (dt' & Hparse & Hsame).
  fold (DateTimeField.format f) in Hparse, Hsame.
  eexists. split; [by apply DateTimeField_encode_spec|].
  destruct (DateTimeField_round_trip f _ _ Hbase Hgrid
              (DateTimeField_encode_spec f _ _ Hbase Hparse))
    as (dt'' & Hparse' & ->).
  rewrite Hparse in Hparse'. injection Hparse' as <-. by rewrite Hsame.
Qed.

Lemma TimeField_encode_written f dt :
  valid_datetime dt →
  ∃ n, TimeField.encode f (VStr (strftime (TimeField.format f) dt)) = Ok n
       ∧ TimeField.decode f n = Ok (VStr (strftime (TimeField.format f) dt)).
Proof.
  intros Hdt.
  destruct (TimeField_strptime_strftime (TimeField.precision f) dt Hdt)
    as (dt' & Hparse & Hsame).
  fold (TimeField.format f) in Hparse, Hsame.
  assert (∃ n, TimeField.encode f (VStr (strftime (TimeField.format f) dt))
               = Ok n) as [n Hencode].
  { unfold TimeField.encode, strptime. rewrite Hparse. by eexists. }
  exists n. split; [done|].
  destruct (TimeField_round_trip f _ _ Hencode) as (dt'' & Hparse' & ->).
  rewrite Hparse in Hparse'. injection Hparse' as <-. by rewrite Hsame.
Qed.

(** C7, as the code has it.  For a TimeField, and for a DateTimeField
    whose [base] is a valid instant on the grid of its precision, every
    text [x] that [encode] accepts decodes to the text [strftime] writes
    for the instant [x] denotes; that is [x] itself whenever [x] is such
    a text that [encode] accepts: the text of any time of day for a
    TimeField, and of any instant of the year 1000 or later for a
    DateTimeField, as every value the field generates then is. *)
Theorem time_fields_round_trip field :
  (∀ f, subclass_of field = IsTimeField f →
     (∀ x n, encode field (VStr x) = Ok n →
        ∃ dt, strptime_str x (TimeField.format f) = Ok dt
              ∧ decode field n = Ok (VStr (strftime (TimeField.format f) dt)))
     ∧ (∀ dt, valid_datetime dt →
          ∃ n, encode field (VStr (strftime (TimeField.format f) dt)) = Ok n
               ∧ decode field n
                 = Ok (VStr (strftime (TimeField.format f) dt))))
  ∧ (∀ f, subclass_of field = IsDateTimeField f →
     valid_datetime (DateTimeField.base f) →
     on_grid (DateTimeField.Precision_value (DateTimeField.precision f))
             (DateTimeField.base f) →
     (∀ x n, encode field (VStr x) = Ok n →
        ∃ dt, strptime_str x (DateTimeField.format f) = Ok dt
              ∧ decode field n
                = Ok (VStr (strftime (DateTimeField.format f) dt)))
     ∧ (∀ dt, valid_datetime dt → 1000 ≤ year dt →
          ∃ n, encode field (VStr (strftime (DateTimeField.format f) dt))
               = Ok n
               ∧ decode field n
                 = Ok (VStr (strftime (DateTimeField.format f) dt)))).
Proof.
  split.
  - intros f Hsub. unfold encode, decode. rewrite Hsub. split.
    + intros x n. apply TimeField_round_trip.
    + intros dt. apply TimeField_encode_written.
  - intros f Hsub Hbase Hgrid. unfold encode, decode. rewrite Hsub. split.
    + intros x n. by apply DateTimeField_round_trip.
    + intros dt. by apply DateTimeField_encode_written.
Qed.

Lemma order_base_valid :
  valid_datetime {| year := 2018; month := 1; day := 1;
                    hour := 0; minute := 0; second := 0 |}.
Proof.
  split.
  - unfold valid_date, MINYEAR, MAXYEAR. simpl.
    change (_days_in_month 2018 1) with 31. lia.
  - unfold valid_time. simpl. lia.
Defined.

Lemma time_fields_round_trip_witness :
  ∃ n, encode (DateTimeField "time" 29 DateTimeField.SECOND
                 {| year := 2018; month := 1; day := 1;
                    hour := 0; minute := 0; second := 0 |})
         (VStr "2018-01-01 00:00:05") = Ok n
       ∧ decode (DateTimeField "time" 29 DateTimeField.SECOND
                   {| year := 2018; month := 1; day := 1;
                      hour := 0; minute := 0; second := 0 |}) n
         = Ok (VStr "2018-01-01 00:00:05").
Proof.
  assert (valid_datetime (now fresh_world)) as Hnow.
  { split.
    - unfold valid_date, MINYEAR, MAXYEAR. simpl.
      change (_days_in_month 2018 1) with 31. lia.
    - unfold valid_time. simpl. lia. }
  exact (proj2 (proj2 (time_fields_round_trip
                  (DateTimeField "time" 29 DateTimeField.SECOND
                     {| year := 2018; month := 1; day := 1;
                        hour := 0; minute := 0; second := 0 |}))
                  _ eq_refl order_base_valid eq_refl)
               (now fresh_world) Hnow ltac:(simpl; lia)).
Defined.

Example TimeField_unpadded_hour :
  encode (TimeField "hour" 5 TimeField.HOUR) (VStr "5") = Ok 5
  ∧ decode (TimeField "hour" 5 TimeField.HOUR) 5 = Ok (VStr "05").
Proof. split; vm_compute; reflexivity. Qed.

(** A [base] off the grid of the precision breaks the round trip even on
    zero-padded text: with day precision and a base at noon, the day after
    the base encodes to 0 and decodes to the day of the base. *)
Example DateTimeField_base_off_grid :
  let field := DateTimeField "day" 16 DateTimeField.DAY
                 {| year := 2018; month := 1; day := 1;
                    hour := 12; minute := 0; second := 0 |} in
  encode field (VStr "2018-01-02") = Ok 0
  ∧ decode field 0 = Ok (VStr "2018-01-01").
Proof. split; vm_compute; reflexivity. Qed.

(** Before the year 1000 the text that [decode] writes is not one that
    [encode] accepts, and a zero-padded text that [encode] accepts does
    not come back: the year is written without padding. *)
Example DateTimeField_year_unpadded :
  let field := DateTimeField "day" 32 DateTimeField.DAY
                 {| year := 1; month := 1; day := 1;
                    hour := 0; minute := 0; second := 0 |} in
  encode field (VStr "0999-01-01") = Ok 364512
  ∧ decode field 364512 = Ok (VStr "999-01-01")
  ∧ encode field (VStr "999-01-01")
    = Raise (TimeDataMismatch "999-01-01" "%Y-%m-%d").
Proof. repeat split; vm_compute; reflexivity. Qed.

(** C7 fails as stated: a TimeField with hour precision accepts the text
    ["5"], encodes it to 5, and decodes 5 to ["05"]. *)
Lemma round_trip_not_exact :
  ¬ ∀ field x n,
      (∃ f, subclass_of field = IsTimeField f)
      ∨ (∃ f, subclass_of field = IsDateTimeField f) →
      encode field (VStr x) = Ok n →
      decode field n = Ok (VStr x).
Proof.
  intros Hclaim.
  specialize (Hclaim (TimeField "hour" 5 TimeField.HOUR) "5" 5).
  destruct TimeField_unpadded_hour as [Hencode Hdecode].
  rewrite Hdecode in Hclaim.
  assert (Ok (VStr "05") = Ok (VStr "5")) as Hsame.
  { apply Hclaim; [|done]. left. by eexists. }
  discriminate Hsame.
Qed.

(** ** More on the pack/unpack engine *)

Lemma assemble_loop_Ok_fits fields : ∀ parts acc id_num,
  length parts = length fields →
  assemble_loop acc (zip parts fields) = Ok id_num →
  Forall2 fits parts fields.
Proof.
  induction fields as [|f fs IH]; intros [|p ps] acc id_num Hlen Hloop;
    try done.
  change (zip (p :: ps) (f :: fs)) with ((p, f) :: zip ps fs) in Hloop.
  cbn [assemble_loop] in Hloop.
  destruct (Z.leb_spec 0 p) as [Hp0|?].
  2: { by destruct (mask f). }
  destruct (mask f) as [m|e] eqn:Hmask; [|done].
  apply mask_Ok_inv in Hmask as [Hb ->]. cbn [mbind result_bind] in Hloop.
  destruct (Z.leb_spec p (2 ^ bits f - 1)) as [Hpm|?]; [|done].
  constructor; [done|]. eapply IH; [|done]. simpl in Hlen. lia.
Qed.

Lemma assemble_Ok_fits self parts id_num :
  _assemble self parts = Ok id_num → Forall2 fits parts (fields self).
Proof.
  unfold _assemble.
  destruct (Nat.eqb_spec (length parts) (length (fields self))); [|done].
  simpl. by apply assemble_loop_Ok_fits.
Qed.

Lemma disassemble_packed self parts :
  Forall2 fits parts (fields self) →
  _disassemble self (packed_rec (bits <$> fields self) parts) = Ok parts.
Proof.
  intros Hfit. unfold _disassemble.
  pose proof (disassemble_loop_packed _ _ Hfit 0 []) as Hloop.
  rewrite Z.mul_0_l, Z.add_0_l in Hloop. rewrite Hloop.
  cbn [mbind result_bind]. simpl. by rewrite reverse_involutive.
Qed.

(** X1. [_assemble] returns exactly when it is given one part per field,
    each within its field's mask; there is no other way to make it
    succeed. *)
Theorem assemble_succeeds_iff self parts :
  is_Ok (_assemble self parts) ↔ Forall2 fits parts (fields self).
Proof.
  split.
  - intros [id_num Hok]. by eapply assemble_Ok_fits.
  - intros Hfit. eexists. by apply assemble_fits.
Qed.

Lemma assemble_succeeds_iff_witness :
  is_Ok (_assemble order [1; 5; 42]) ∧ ¬ is_Ok (_assemble order [1; 5]).
Proof.
  split.
  - apply (proj2 (assemble_succeeds_iff order [1; 5; 42])). exact order_fits.
  - intros Hok. apply (proj1 (assemble_succeeds_iff order [1; 5])) in Hok.
    apply Forall2_length in Hok. discriminate Hok.
Defined.

(** X2. Two lists of parts that [_assemble] packs into the same number are
    the same list: no two different infos share an id. *)
Theorem assemble_injective self parts1 parts2 id_num :
  _assemble self parts1 = Ok id_num → _assemble self parts2 = Ok id_num →
  parts1 = parts2.
Proof.
  intros H1 H2.
  pose proof (assemble_Ok_fits _ _ _ H1) as Hfit1.
  pose proof (assemble_Ok_fits _ _ _ H2) as Hfit2.
  rewrite assemble_fits in H1, H2 by done.
  injection H1 as H1. injection H2 as H2.
  pose proof (disassemble_packed self _ Hfit1) as Hd1.
  pose proof (disassemble_packed self _ Hfit2) as Hd2.
  rewrite H1 in Hd1. rewrite H2, Hd1 in Hd2. by injection Hd2.
Qed.

Lemma assemble_injective_witness :
  _assemble order [1; 5; 42] = Ok 35184372416554
  ∧ [1; 5; 42] = [1; 5; 42].
Proof.
  split; [reflexivity|].
  exact (assemble_injective order [1; 5; 42] [1; 5; 42] 35184372416554
           eq_refl eq_refl).
Defined.

Lemma disassemble_Ok_bits self id_num parts :
  _disassemble self id_num = Ok parts → nonneg_bits self.
Proof.
  unfold _disassemble. intros Hok.
  destruct (disassemble_loop id_num [] (reverse (fields self)))
    as [r|e] eqn:Hloop; [|done].
  apply disassemble_loop_Ok_bits in Hloop. by apply Forall_reverse.
Qed.

(** X3. [_disassemble] returns only on the numbers of the generator's width:
    never on a negative number, never on one of [2^W] or more. *)
Theorem disassemble_returns_in_range self id_num parts :
  _disassemble self id_num = Ok parts →
  0 ≤ id_num < 2 ^ total_bits (fields self).
Proof.
  intros Hok. pose proof (disassemble_Ok_bits _ _ _ Hok) as Hb.
  rewrite disassemble_nonneg_bits in Hok by done.
  pose proof (fields_total_bits_nonneg _ Hb) as HW.
  destruct (Z.eqb_spec (Z.shiftr id_num (total_bits (fields self))) 0)
    as [Hzero|?]; [|done].
  rewrite Z.shiftr_div_pow2 in Hzero by done.
  pose proof (pow2_pos _ HW).
  apply Z.div_small_iff in Hzero; lia.
Qed.

Lemma disassemble_returns_in_range_witness :
  0 ≤ 35184372416554 < 2 ^ total_bits (fields order).
Proof.
  exact (disassemble_returns_in_range order 35184372416554 [1; 5; 42] eq_refl).
Defined.

(** The windows of a number put together again are the number, cut to the
    total width. *)
Lemma packed_rec_windows id_num fields :
  Forall (λ f, 0 ≤ bits f) fields →
  packed_rec (bits <$> fields) (windows id_num fields)
  = id_num mod 2 ^ total_bits fields.
Proof.
  induction 1 as [|f fs Hb Hfs IH].
  { unfold total_bits. simpl. by rewrite Z.mod_1_r. }
  pose proof (fields_total_bits_nonneg _ Hfs) as HW.
  cbn [windows]. rewrite fmap_cons. cbn [packed_rec]. rewrite IH.
  fold (total_bits fs). rewrite total_bits_cons.
  replace (2 ^ bits f - 1) with (Z.ones (bits f))
    by (rewrite Z.ones_equiv; lia).
  rewrite Z.land_ones, Z.shiftr_div_pow2 by done.
  rewrite (Z.add_comm (bits f)), Z.pow_add_r by done.
  pose proof (pow2_pos _ HW). pose proof (pow2_pos _ Hb).
  rewrite Z.rem_mul_r by lia. lia.
Qed.

(** X4. Whatever [_disassemble] returns, [_assemble] puts together into
    the same number. *)
Theorem assemble_after_disassemble self id_num parts :
  _disassemble self id_num = Ok parts → _assemble self parts = Ok id_num.
Proof.
  intros Hok. pose proof (disassemble_Ok_bits _ _ _ Hok) as Hb.
  assert (0 ≤ id_num < 2 ^ total_bits (fields self)) as Hrange.
  { pose proof (fields_total_bits_nonneg _ Hb) as HW.
    rewrite disassemble_nonneg_bits in Hok by done.
    destruct (Z.eqb_spec (Z.shiftr id_num (total_bits (fields self))) 0)
      as [Hzero|?]; [|done].
    rewrite Z.shiftr_div_pow2 in Hzero by done.
    pose proof (pow2_pos _ HW).
    apply Z.div_small_iff in Hzero; lia. }
  rewrite disassemble_nonneg_bits in Hok by done.
  destruct (negb _); [done|]. injection Hok as <-.
  rewrite assemble_fits by by apply windows_fits.
  rewrite packed_rec_windows by done. f_equal. by apply Z.mod_small.
Qed.

Lemma assemble_after_disassemble_witness :
  _disassemble order 35184372416554 = Ok [1; 5; 42]
  ∧ _assemble order [1; 5; 42] = Ok 35184372416554.
Proof.
  split; [reflexivity|].
  exact (assemble_after_disassemble order 35184372416554 [1; 5; 42] eq_refl).
Defined.

Lemma packed_rec_lt fields : ∀ pre x y r1 r2,
  Forall2 fits (pre ++ x :: r1) fields →
  Forall2 fits (pre ++ y :: r2) fields →
  x < y →
  packed_rec (bits <$> fields) (pre ++ x :: r1)
  < packed_rec (bits <$> fields) (pre ++ y :: r2).
Proof.
  induction fields as [|f fs IH]; intros pre x y r1 r2 H1 H2 Hxy.
  { apply Forall2_length in H1. rewrite length_app in H1. simpl in H1. lia. }
  destruct pre as [|p pre]; simpl in H1, H2.
  - apply Forall2_cons_1 in H1 as [Hx Hr1].
    apply Forall2_cons_1 in H2 as [Hy Hr2].
    pose proof (packed_rec_range _ _ Hr1) as Hrec1.
    pose proof (packed_rec_range _ _ Hr2) as Hrec2.
    rewrite fmap_cons. simpl. fold (total_bits fs).
    pose proof (total_bits_nonneg _ _ Hr1) as HW.
    pose proof (pow2_pos _ HW). nia.
  - apply Forall2_cons_1 in H1 as [Hp Hr1].
    apply Forall2_cons_1 in H2 as [_ Hr2].
    rewrite fmap_cons. simpl.
    specialize (IH pre x y r1 r2 Hr1 Hr2 Hxy). lia.
Qed.

(** X5. Identifiers order like their parts, the first field weighing
    most: of two part lists that first differ at some field, the one with
    the smaller part there assembles to the smaller number. *)
Theorem assemble_orders_by_first_difference self pre x y r1 r2 a b :
  _assemble self (pre ++ x :: r1) = Ok a →
  _assemble self (pre ++ y :: r2) = Ok b →
  x < y → a < b.
Proof.
  intros Ha Hb Hxy.
  pose proof (assemble_Ok_fits _ _ _ Ha) as Hfa.
  pose proof (assemble_Ok_fits _ _ _ Hb) as Hfb.
  rewrite assemble_fits in Ha, Hb by done.
  injection Ha as <-. injection Hb as <-. by apply packed_rec_lt.
Qed.

Lemma assemble_orders_by_first_difference_witness :
  _assemble order ([1] ++ 5 :: [42]) = Ok 35184372416554
  ∧ _assemble order ([1] ++ 6 :: [1]) = Ok 35184372482049
  ∧ 35184372416554 < 35184372482049.
Proof.
  split; [reflexivity|]. split; [reflexivity|].
  exact (assemble_orders_by_first_difference order [1] 5 6 [42] [1]
           35184372416554 35184372482049 eq_refl eq_refl ltac:(lia)).
Defined.

(** ** More on generation *)

Lemma generate_loop_app custom_data l1 l2 : ∀ info w,
  generate_loop custom_data info (l1 ++ l2) w
  = (info' ← generate_loop custom_data info l1;
     generate_loop custom_data info' l2) w.
Proof.
  induction l1 as [|field l1 IH]; intros info w; [done|].
  simpl. destruct (custom_data !! name field) as [v|].
  - apply IH.
  - destruct (generate field info w) as [[v|e] w1] eqn:Hgen.
    + rewrite (M_bind_Ok _ _ _ _ _ Hgen).
      rewrite IH. unfold mbind at 2. unfold M_bind.
      by rewrite (M_bind_Ok _ _ _ _ _ Hgen).
    + rewrite (M_bind_Raise _ _ _ _ _ Hgen).
      unfold mbind at 1. unfold M_bind.
      by rewrite (M_bind_Raise _ _ _ _ _ Hgen).
Qed.

(** The context [_generate] builds: its keys, and the custom values. *)
Lemma generate_loop_info custom_data fields : ∀ info0 w info w',
  generate_loop custom_data info0 fields w = (Ok info, w') →
  dom info = dom info0 ∪ list_to_set (name <$> fields)
  ∧ ∀ k v, custom_data !! k = Some v →
      info0 !! k = Some v ∨ k ∈ name <$> fields →
      info !! k = Some v.
Proof.
  induction fields as [|field rest IH]; intros info0 w info w' Hloop.
  { injection Hloop as <- _. split; [simpl; by rewrite (right_id_L ∅ (∪))|].
    intros k v _ [?|Hin]; [done|]. by apply elem_of_nil in Hin. }
  simpl in Hloop.
  assert (∃ x w1, generate_loop custom_data (<[name field := x]> info0) rest w1
                  = (Ok info, w')
                  ∧ (∀ v, custom_data !! name field = Some v → x = v))
    as (x & w1 & Hrest & Hx).
  { destruct (custom_data !! name field) as [v|].
    - exists v, w. split; [done|]. by intros ? [= <-].
    - apply M_bind_Ok_inv in Hloop as (x & w1 & _ & Hloop).
      exists x, w1. by split. }
  apply IH in Hrest as [Hdom Hvals]. split.
  - rewrite Hdom, dom_insert_L, fmap_cons. simpl.
    rewrite (comm_L (∪) {[name field]} (dom info0)).
    by rewrite (assoc_L (∪)).
  - intros k v Hk Hor. apply Hvals; [done|].
    destruct (decide (k = name field)) as [->|Hne].
    + left. rewrite lookup_insert_eq. f_equal. by apply Hx.
    + rewrite lookup_insert_ne by done.
      destruct Hor as [?|Hin]; [by left|]. right.
      rewrite fmap_cons in Hin. apply elem_of_cons in Hin as [?|?]; done.
Qed.

(** X6. The context [_generate] returns has exactly the names of the fields
    as its keys, and holds the custom value for every field that
    [custom_data] supplies; other keys of [custom_data] are ignored. *)
Theorem generate_info_keys self custom_data w info w' :
  _generate self custom_data w = (Ok info, w') →
  dom info = list_to_set (name <$> fields self)
  ∧ ∀ field v, field ∈ fields self →
      custom_data !! name field = Some v → info !! name field = Some v.
Proof.
  intros Hgen. apply generate_loop_info in Hgen as [Hdom Hvals]. split.
  - by rewrite Hdom, dom_empty_L, (left_id_L ∅ (∪)).
  - intros field v Hin Hcustom. apply (Hvals _ _ Hcustom). right.
    apply list_elem_of_fmap. by exists field.
Qed.

Lemma generate_info_keys_witness :
  dom yesterday_info = list_to_set (name <$> fields order)
  ∧ yesterday_info !! "time" = Some (VStr "yesterday").
Proof.
  destruct (generate_info_keys order {[ "time" := VStr "yesterday" ]}
              fresh_world yesterday_info yesterday_world
              order_yesterday_generate) as [Hdom Hvals].
  split; [exact Hdom|].
  apply (Hvals (DateTimeField "time" 29 DateTimeField.SECOND
                  {| year := 2018; month := 1; day := 1;
                     hour := 0; minute := 0; second := 0 |})).
  - unfold order. simpl. apply list_elem_of_further, list_elem_of_here.
  - vm_compute. reflexivity.
Defined.

Lemma generate_loop_all_custom custom_data fields : ∀ info w,
  Forall (λ field, is_Some (custom_data !! name field)) fields →
  ∃ info', generate_loop custom_data info fields w = (Ok info', w).
Proof.
  induction fields as [|field rest IH]; intros info w Hall.
  { by eexists. }
  apply Forall_cons in Hall as [[v Hv] Hrest].
  simpl. rewrite Hv. by apply IH.
Qed.

(** X7. When [custom_data] supplies every field, [_generate] returns the
    custom values of the fields, under the fields' names and nothing
    else, and leaves the world as it was: no counter is written and no
    number is drawn. *)
Theorem generate_all_custom self custom_data w :
  Forall (λ field, is_Some (custom_data !! name field)) (fields self) →
  ∃ info,
    _generate self custom_data w = (Ok info, w)
    ∧ dom info = list_to_set (name <$> fields self)
    ∧ ∀ field, field ∈ fields self →
        info !! name field = custom_data !! name field.
Proof.
  intros Hall.
  destruct (generate_loop_all_custom custom_data (fields self) ∅ w Hall)
    as [info Hgen].
  exists info. split; [exact Hgen|].
  apply generate_loop_info in Hgen as [Hdom Hvals]. split.
  - by rewrite Hdom, dom_empty_L, (left_id_L ∅ (∪)).
  - intros field Hin. rewrite Forall_forall in Hall.
    destruct (Hall field Hin) as [v Hv]. rewrite Hv.
    apply (Hvals _ _ Hv). right. apply list_elem_of_fmap. by exists field.
Qed.

(** X8. What [generate] returns is a number of the generator's width, and
    [parse] of it decodes exactly the parts that [generate] encoded. *)
Theorem parse_after_generate self custom_data w the_id w' :
  IdGenerator_generate self custom_data w = (Ok the_id, w') →
  ∃ info parts id_num,
    _generate self custom_data w = (Ok info, w')
    ∧ _encode self info = Ok parts
    ∧ the_id = VInt id_num
    ∧ 0 ≤ id_num < 2 ^ total_bits (fields self)
    ∧ IdGenerator_parse self the_id = _decode self parts.
Proof.
  unfold IdGenerator_generate. intros Hgen.
  apply M_bind_Ok_inv in Hgen as (info & w1 & Hinfo & Hgen).
  apply M_bind_Ok_inv in Hgen as (parts & w2 & Hparts & Hgen).
  apply M_bind_Ok_inv in Hgen as (id_num & w3 & Hid & Hgen).
  unfold lift in Hparts, Hid. injection Hparts as Hparts <-.
  injection Hid as Hid <-. injection Hgen as <- <-.
  exists info, parts, id_num. split; [done|]. split; [done|].
  split; [done|].
  pose proof (assemble_Ok_fits _ _ _ Hid) as Hfit.
  split.
  - rewrite assemble_fits in Hid by done. injection Hid as <-.
    by apply packed_rec_range.
  - unfold IdGenerator_parse, _parse, _format. cbn [int mbind result_bind].
    assert (_disassemble self id_num = Ok parts) as ->; [|done].
    rewrite assemble_fits in Hid by done. injection Hid as <-.
    by apply disassemble_packed.
Qed.

(** ** More on SequenceField *)

(** The two ways [SequenceField.generate] returns. *)
Lemma sequence_generate_known name f info key first w :
  SequenceField.key_of name f info = Ok key →
  cache_of w (SequenceField.cache f) !! key = Some first →
  SequenceField.generate name f info w
  = (seq ← SequenceField._next_seq f first;
     _ ← cache_setitem (SequenceField.cache f) key seq;
     mret (VInt seq)) w.
Proof.
  intros Hkey Hfirst.
  cbv [SequenceField.generate mbind M_bind mret M_ret lift cache_contains
       cache_getitem].
  rewrite Hkey, Hfirst. rewrite bool_decide_true by by eexists.
  by rewrite Hfirst.
Qed.

Lemma sequence_generate_new name f info key w :
  SequenceField.key_of name f info = Ok key →
  cache_of w (SequenceField.cache f) !! key = None →
  SequenceField.generate name f info w
  = (seq ← SequenceField._new_seq f;
     _ ← cache_setitem (SequenceField.cache f) key seq;
     mret (VInt seq)) w.
Proof.
  intros Hkey Hnone.
  cbv [SequenceField.generate mbind M_bind mret M_ret lift cache_contains
       cache_getitem].
  rewrite Hkey, Hnone. by rewrite bool_decide_false by by intros [? ?].
Qed.

Lemma str_Raise v e : str v = Raise e → e = DigitLimitExceeded.
Proof.
  destruct v as [n|text]; [|done]. unfold str.
  destruct (_ <? _); [|done]. by intros [= <-].
Qed.

Lemma key_of_missing name f (info : gmap string value) k :
  k ∈ SequenceField.keys f → info !! k = None →
  ∃ e, SequenceField.key_of name f info = Raise e
       ∧ ((∃ k', e = KeyError k' ∧ k' ∈ SequenceField.keys f
                 ∧ info !! k' = None)
          ∨ (e = DigitLimitExceeded
             ∧ ∃ k' v, k' ∈ SequenceField.keys f ∧ info !! k' = Some v
                       ∧ str v = Raise DigitLimitExceeded)).
Proof.
  intros Hin Hnone. unfold SequenceField.key_of.
  destruct (SequenceField.keys f) as [|k0 ks] eqn:Hkeys.
  { by apply elem_of_nil in Hin. }
  revert Hin. generalize (k0 :: ks). clear Hkeys k0 ks. intros ks Hin.
  induction ks as [|k1 ks IH]; [by apply elem_of_nil in Hin|].
  cbn [for_each]. destruct (info !! k1) as [v|] eqn:Hk1.
  - destruct (str v) as [text|e] eqn:Hstr.
    + apply elem_of_cons in Hin as [->|Hin]; [congruence|].
      destruct (IH Hin) as (e & Hraise & Hcases).
      exists e. split.
      * cbn [mbind result_bind].
        destruct (for_each _ ks) as [parts|e']; [done|].
        simpl in *. congruence.
      * destruct Hcases as [(k' & -> & Hk' & Hnone')
                           |(-> & k' & v' & Hk' & Hv' & Hstr')].
        -- left. exists k'.
           split; [done|]. split; [by apply list_elem_of_further|done].
        -- right. split; [done|]. exists k', v'.
           split; [by apply list_elem_of_further|done].
    + pose proof (str_Raise _ _ Hstr) as ->.
      exists DigitLimitExceeded. split; [done|]. right. split; [done|].
      exists k1, v. split; [apply list_elem_of_here|done].
  - exists (KeyError k1). split; [done|]. left. exists k1.
    split; [done|]. split; [apply list_elem_of_here|done].
Qed.

(** X9. When the info lacks one of the [keys], [SequenceField.generate]
    raises and leaves the world as it was: no counter is written and no
    number is drawn.  It raises KeyError for a missing key, unless a key
    before it holds an integer that [str] refuses for its length. *)
Theorem sequence_generate_missing_key name f info k w :
  k ∈ SequenceField.keys f → info !! k = None →
  ∃ e, SequenceField.generate name f info w = (Raise e, w)
       ∧ ((∃ k', e = KeyError k' ∧ k' ∈ SequenceField.keys f
                 ∧ info !! k' = None)
          ∨ (e = DigitLimitExceeded
             ∧ ∃ k' v, k' ∈ SequenceField.keys f ∧ info !! k' = Some v
                       ∧ str v = Raise DigitLimitExceeded)).
Proof.
  intros Hin Hnone.
  destruct (key_of_missing name f info k Hin Hnone) as (e & Hkey & Hcases).
  exists e. split; [|done].
  cbv [SequenceField.generate mbind M_bind lift]. by rewrite Hkey.
Qed.

Lemma sequence_generate_missing_key_witness :
  ∃ e, SequenceField.generate "sequence" order_sequence ∅ fresh_world
       = (Raise e, fresh_world)
       ∧ ((∃ k', e = KeyError k' ∧ k' ∈ SequenceField.keys order_sequence
                 ∧ (∅ : gmap string value) !! k' = None)
          ∨ (e = DigitLimitExceeded
             ∧ ∃ k' v, k' ∈ SequenceField.keys order_sequence
                       ∧ (∅ : gmap string value) !! k' = Some v
                       ∧ str v = Raise DigitLimitExceeded)).
Proof.
  apply (sequence_generate_missing_key "sequence" order_sequence ∅ "time").
  - apply list_elem_of_here.
  - apply lookup_empty.
Defined.

(** X10. A failing [SequenceField.generate] changes nothing at all, and a
    returning one changes, of all counters, only the one under its key in
    its own cache. *)
Theorem sequence_generate_frame name f info w r w' :
  SequenceField.generate name f info w = (r, w') →
  (∀ e, r = Raise e → w' = w)
  ∧ (∀ c key, SequenceField.key_of name f info ≠ Ok key
              ∨ c ≠ SequenceField.cache f →
       cache_of w' c !! key = cache_of w c !! key).
Proof.
  cbv [SequenceField.generate SequenceField._next_seq SequenceField._new_seq
       mbind M_bind mret M_ret lift cache_contains cache_getitem randint].
  destruct (SequenceField.key_of name f info) as [key0|e0].
  2: { intros [= <- <-]. by split. }
  assert (∀ n c key,
            Ok key0 ≠ Ok key ∨ c ≠ SequenceField.cache f →
            cache_of (cache_setitem (SequenceField.cache f) key0 n
                        {| caches := caches w; journal := journal w;
                           tape := tape w; drawn := S (drawn w);
                           now := now w |}).2 c !! key
            = cache_of w c !! key) as Hframe.
  { intros n c key Hor. unfold cache_setitem, cache_of. simpl.
    destruct (decide (c = SequenceField.cache f)) as [->|Hc].
    - rewrite lookup_insert_eq. simpl.
      destruct Hor as [Hkey|?]; [|done].
      rewrite lookup_insert_ne; [done|]. congruence.
    - by rewrite lookup_insert_ne. }
  destruct (bool_decide _).
  - destruct (cache_of w (SequenceField.cache f) !! key0) as [prev|].
    2: { intros [= <- <-]. by split. }
    destruct (_ <? _).
    + intros [= <- <-]. by split.
    + simpl. intros [= <- <-]. split; [done|]. apply Hframe.
  - destruct (_ <? _).
    + intros [= <- <-]. by split.
    + simpl. intros [= <- <-]. split; [done|]. apply Hframe.
Qed.

(** X11. With an empty step range (min above max) a known counter can never
    advance: [generate] raises and the counter stays; likewise an empty
    start range for a new key. *)
Theorem sequence_generate_empty_range name f info key w :
  SequenceField.key_of name f info = Ok key →
  (is_Some (cache_of w (SequenceField.cache f) !! key) →
   (SequenceField.step f).2 < (SequenceField.step f).1 →
   SequenceField.generate name f info w = (Raise EmptyRange, w))
  ∧ (cache_of w (SequenceField.cache f) !! key = None →
     (SequenceField.start f).2 < (SequenceField.start f).1 →
     SequenceField.generate name f info w = (Raise EmptyRange, w)).
Proof.
  intros Hkey. split.
  - intros [first Hfirst] Hempty.
    rewrite (sequence_generate_known _ _ _ _ _ _ Hkey Hfirst).
    cbv [SequenceField._next_seq mbind M_bind].
    by rewrite randint_empty.
  - intros Hnone Hempty.
    rewrite (sequence_generate_new _ _ _ _ _ Hkey Hnone).
    cbv [SequenceField._new_seq mbind M_bind].
    by rewrite randint_empty.
Qed.

(** X12. Two generations in a row for the same key: the second returns the
    first plus a step of the range, so with a step of at least one the
    counter strictly grows. *)
Theorem sequence_generate_twice name f info w first w1 :
  SequenceField.generate name f info w = (Ok (VInt first), w1) →
  (SequenceField.step f).1 ≤ (SequenceField.step f).2 →
  ∃ second w2,
    SequenceField.generate name f info w1 = (Ok (VInt second), w2)
    ∧ first + (SequenceField.step f).1 ≤ second
              ≤ first + (SequenceField.step f).2
    ∧ (1 ≤ (SequenceField.step f).1 → first < second).
Proof.
  intros Hgen Hstep.
  assert (∃ key, SequenceField.key_of name f info = Ok key
                 ∧ cache_of w1 (SequenceField.cache f) !! key = Some first)
    as (key & Hkey & Hstored).
  { revert Hgen.
    cbv [SequenceField.generate SequenceField._next_seq
         SequenceField._new_seq mbind M_bind mret M_ret lift cache_contains
         cache_getitem randint].
    destruct (SequenceField.key_of name f info) as [key|e]; [|done].
    intros Hgen. exists key. split; [done|]. revert Hgen.
    destruct (bool_decide _).
    - destruct (cache_of w (SequenceField.cache f) !! key) as [prev|];
        [|done].
      destruct (_ <? _); [done|]. simpl. intros [= <- <-].
      unfold cache_of. simpl. rewrite lookup_insert_eq. simpl.
      by rewrite lookup_insert_eq.
    - destruct (_ <? _); [done|]. simpl. intros [= <- <-].
      unfold cache_of. simpl. rewrite lookup_insert_eq. simpl.
      by rewrite lookup_insert_eq. }
  rewrite (sequence_generate_known _ _ _ _ _ _ Hkey Hstored).
  destruct (randint_range _ _ w1 Hstep) as (n & Hdraw & Hn).
  exists (first + n). eexists. split; [|split; lia].
  cbv [SequenceField._next_seq mbind M_bind mret M_ret]. rewrite Hdraw.
  reflexivity.
Qed.

(** ** NumberField.generate *)

(** X13. A NumberField generates a number of [start..end], which its own
    [decode] accepts and [encode] maps to itself; it touches no counter.
    When [end] is left to default to the mask and [start] is not negative,
    the number fits the field.  With [end < start] it raises. *)
Theorem NumberField_generate_range name bits start end_ field info w :
  NumberField name bits start end_ = Ok field →
  let end' := default (2 ^ bits - 1) end_ in
  (start ≤ end' →
   ∃ n w', generate field info w = (Ok (VInt n), w')
           ∧ start ≤ n ≤ end'
           ∧ decode field n = Ok (VInt n)
           ∧ encode field (VInt n) = Ok n
           ∧ (end_ = None → 0 ≤ start → fits n field)
           ∧ caches w' = caches w ∧ journal w' = journal w)
  ∧ (end' < start → generate field info w = (Raise EmptyRange, w)).
Proof.
  intros Hnew end'. unfold NumberField, NumberField.init in Hnew.
  assert (∃ f, field = {| name := name; bits := bits;
                          subclass_of := IsNumberField f |}
               ∧ NumberField.start f = start ∧ NumberField.end_ f = end')
    as (f & -> & Hs & He).
  { destruct end_ as [e|]; simpl in Hnew.
    - injection Hnew as <-. by eexists.
    - unfold mask_of_bits in Hnew.
      destruct (Z.ltb_spec bits 0); [done|]. simpl in Hnew.
      injection Hnew as <-. eexists. split; [done|]. split; [done|].
      simpl. subst end'. simpl. rewrite Z.shiftl_1_l. done. }
  unfold generate, decode, encode, fits. cbn [subclass_of].
  rewrite <- Hs, <- He. split.
  - intros Hrange.
    destruct (randint_range _ _ w Hrange) as (n & Hdraw & Hn).
    exists n. eexists. split.
    { cbv [NumberField.generate mbind M_bind mret M_ret]. rewrite Hdraw.
      reflexivity. }
    split; [done|]. split.
    { unfold NumberField.decode.
      destruct (Z.leb_spec (NumberField.start f) n); [|lia].
      destruct (Z.leb_spec n (NumberField.end_ f)); [done|lia]. }
    split; [done|]. split; [|done].
    intros -> Hstart. subst end'. simpl in *. lia.
  - intros Hempty. cbv [NumberField.generate mbind M_bind].
    by rewrite randint_empty.
Qed.

Lemma NumberField_generate_range_witness :
  ∃ n w', generate placeholder ∅ fresh_world = (Ok (VInt n), w')
          ∧ 1 ≤ n ≤ 1
          ∧ decode placeholder n = Ok (VInt n)
          ∧ encode placeholder (VInt n) = Ok n
          ∧ (@None Z = None → 0 ≤ 1 → fits n placeholder)
          ∧ caches w' = caches fresh_world ∧ journal w' = journal fresh_world.
Proof.
  apply (proj1 (NumberField_generate_range "placeholder" 1 1 None placeholder
                  ∅ fresh_world eq_refl)).
  simpl. lia.
Defined.

(** ** _decode and _encode *)

Lemma decode_loop_app fields extra : ∀ parts i info,
  (i + length fields ≤ length parts)%nat →
  decode_loop (parts ++ extra) i info fields = decode_loop parts i info fields.
Proof.
  induction fields as [|field rest IH]; intros parts i info Hlen; [done|].
  simpl in *. rewrite lookup_app_l by lia.
  destruct (parts !! i) as [number|]; [|done].
  destruct (decode field number) as [v|e]; [|done].
  cbn [mbind result_bind]. apply IH. lia.
Qed.

Lemma decode_loop_short fields : ∀ parts i info,
  (i ≤ length parts < i + length fields)%nat →
  ∃ e, decode_loop parts i info fields = Raise e.
Proof.
  induction fields as [|field rest IH]; intros parts i info Hlen.
  { simpl in Hlen. lia. }
  simpl in *. destruct (parts !! i) as [number|] eqn:Hi; [|by eexists].
  destruct (decode field number) as [v|e]; [|by eexists].
  cbn [mbind result_bind]. apply IH.
  apply lookup_lt_Some in Hi. lia.
Qed.

Lemma decode_loop_dom fields : ∀ parts i info0 info,
  decode_loop parts i info0 fields = Ok info →
  dom info = dom info0 ∪ list_to_set (name <$> fields).
Proof.
  induction fields as [|field rest IH]; intros parts i info0 info Hloop.
  { injection Hloop as <-. simpl. by rewrite (right_id_L ∅ (∪)). }
  simpl in Hloop. destruct (parts !! i) as [number|]; [|done].
  destruct (decode field number) as [v|e]; [|done].
  cbn [mbind result_bind] in Hloop. apply IH in Hloop.
  rewrite Hloop, dom_insert_L, fmap_cons. simpl.
  rewrite (comm_L (∪) {[name field]} (dom info0)).
  by rewrite (assoc_L (∪)).
Qed.

(** X14. [_decode] reads one part per field by position: parts beyond the
    last field are ignored, and with fewer parts than fields it raises.
    The info it returns has the fields' names as its keys. *)
Theorem decode_parts_by_position self parts :
  (∀ extra, length (fields self) ≤ length parts →
     _decode self (parts ++ extra) = _decode self parts)%nat
  ∧ ((length parts < length (fields self))%nat →
     ∃ e, _decode self parts = Raise e)
  ∧ (∀ info, _decode self parts = Ok info →
       dom info = list_to_set (name <$> fields self)).
Proof.
  unfold _decode. split; [|split].
  - intros extra Hlen. apply decode_loop_app. lia.
  - intros Hlen. apply decode_loop_short. lia.
  - intros info Hok. apply decode_loop_dom in Hok.
    by rewrite Hok, dom_empty_L, (left_id_L ∅ (∪)).
Qed.

(** The errors of [_encode]: a missing key, or what a field's [encode]
    raised on the field's value. *)
Lemma for_each_encode_error (info : gmap string value)
    (fields : list IdField) e :
  for_each (λ field, match info !! name field with
                     | Some v => encode field v
                     | None => Raise (KeyError (name field))
                     end) fields = Raise e →
  (∃ field, field ∈ fields ∧ info !! name field = None
            ∧ e = KeyError (name field))
  ∨ (∃ field v, field ∈ fields ∧ info !! name field = Some v
                ∧ encode field v = Raise e).
Proof.
  induction fields as [|field rest IH]; [done|].
  cbn [for_each]. destruct (info !! name field) as [v|] eqn:Hv.
  - destruct (encode field v) as [n|e'] eqn:Henc.
    + cbn [mbind result_bind].
      destruct (for_each _ rest) as [ns|e'] eqn:Hrest; [done|].
      simpl. intros [= ->].
      destruct (IH eq_refl) as [(f & Hin & Hf)|(f & v' & Hin & Hf)].
      * left. exists f. split; [by apply list_elem_of_further|done].
      * right. exists f, v'. split; [by apply list_elem_of_further|done].
    + simpl. intros [= ->]. right. exists field, v.
      split; [apply list_elem_of_here|done].
  - simpl. intros [= <-]. left. exists field.
    split; [apply list_elem_of_here|done].
Qed.

Lemma for_each_length {A B} (f : A → result B) xs ys :
  for_each f xs = Ok ys → length ys = length xs.
Proof.
  revert ys. induction xs as [|x xs IH]; intros ys.
  { by intros [= <-]. }
  cbn [for_each]. destruct (f x) as [y|e]; [|done].
  cbn [mbind result_bind]. destruct (for_each f xs) as [ys'|e]; [|done].
  simpl. intros [= <-]. simpl. f_equal. by apply IH.
Qed.

(** X15. On the info that [_generate] returned, [_encode] never fails for a
    missing key: it returns one part per field, or raises what the
    [encode] of one of the fields raised on that field's value. *)
Theorem encode_after_generate self custom_data w info w' :
  _generate self custom_data w = (Ok info, w') →
  (∀ parts, _encode self info = Ok parts →
     length parts = length (fields self))
  ∧ (∀ e, _encode self info = Raise e →
       ∃ field v, field ∈ fields self ∧ info !! name field = Some v
                  ∧ encode field v = Raise e).
Proof.
  intros Hgen. apply generate_loop_info in Hgen as [Hdom _].
  rewrite dom_empty_L, (left_id_L ∅ (∪)) in Hdom.
  unfold _encode. split.
  - intros parts. apply for_each_length.
  - intros e Herr.
    apply for_each_encode_error in Herr as [(f & Hin & Hnone & _)|?];
      [|done].
    apply not_elem_of_dom in Hnone. destruct Hnone.
    rewrite Hdom. apply elem_of_list_to_set, list_elem_of_fmap.
    by exists f.
Qed.

Lemma encode_after_generate_witness :
  (∀ parts, _encode order yesterday_info = Ok parts →
     length parts = length (fields order))
  ∧ (∀ e, _encode order yesterday_info = Raise e →
       ∃ field v, field ∈ fields order
                  ∧ yesterday_info !! name field = Some v
                  ∧ encode field v = Raise e).
Proof.
  exact (encode_after_generate order {[ "time" := VStr "yesterday" ]}
           fresh_world yesterday_info yesterday_world
           order_yesterday_generate).
Defined.

(** ** Keys of a SequenceField *)

(** X16. The [keys] of a SequenceField can only name fields that come before
    it: with a key that no earlier field bears, and no custom value for the
    SequenceField itself, [_generate] raises whatever the custom data
    are. *)
Theorem generate_key_of_later_field self custom_data l1 field l2 f k w :
  fields self = l1 ++ field :: l2 →
  subclass_of field = IsSequenceField f →
  custom_data !! name field = None →
  k ∈ SequenceField.keys f → k ∉ name <$> l1 →
  ∃ e w', _generate self custom_data w = (Raise e, w').
Proof.
  intros Hfields Hsub Hcustom Hkey Hearlier. unfold _generate.
  rewrite Hfields, generate_loop_app.
  destruct (generate_loop custom_data ∅ l1 w) as [[info1|e] w1] eqn:Hl1.
  2: { exists e, w1. by rewrite (M_bind_Raise _ _ _ _ _ Hl1). }
  rewrite (M_bind_Ok _ _ _ _ _ Hl1).
  apply generate_loop_info in Hl1 as [Hdom _].
  assert (info1 !! k = None) as Hnone.
  { apply not_elem_of_dom. rewrite Hdom, dom_empty_L, (left_id_L ∅ (∪)).
    by rewrite elem_of_list_to_set. }
  destruct (key_of_missing (name field) f info1 k Hkey Hnone)
    as (e & Hraise & _).
  cbn [generate_loop]. rewrite Hcustom.
  exists e, w1. apply M_bind_Raise.
  unfold generate. rewrite Hsub.
  cbv [SequenceField.generate mbind M_bind lift]. by rewrite Hraise.
Qed.

Lemma generate_key_of_later_field_witness :
  ∃ e w',
    _generate {| generator_name := "reversed";
                 fields := [ SequenceField "sequence" 16 (Pair 0 10000)
                               (Pair 1 10) ["time"] 0%nat;
                             DateTimeField "time" 29 DateTimeField.SECOND
                               (now fresh_world) ] |}
      {[ "time" := VStr "2018-01-01 00:00:05" ]} fresh_world
    = (Raise e, w').
Proof.
  eapply (generate_key_of_later_field _ _ [] _ _ order_sequence "time").
  - reflexivity.
  - reflexivity.
  - vm_compute. reflexivity.
  - apply list_elem_of_here.
  - apply not_elem_of_nil.
Defined.

(** ** Runs of ['order'] in [fresh_world] *)

Lemma fresh_world_now_valid : valid_datetime (now fresh_world).
Proof.
  split.
  - unfold valid_date, MINYEAR, MAXYEAR. simpl.
    change (_days_in_month 2018 1) with 31. lia.
  - unfold valid_time. simpl. lia.
Defined.

Example order_first_generate :
  IdGenerator_generate order ∅ fresh_world
  = (Ok (VInt 35184372416519), first_world).
Proof. vm_compute. reflexivity. Defined.

Lemma decode_parts_by_position_witness :
  _decode order ([1; 5; 42] ++ [99]) = _decode order [1; 5; 42]
  ∧ ∃ e, _decode order [1; 5] = Raise e.
Proof.
  pose proof (decode_parts_by_position order [1; 5; 42]) as [Hextra _].
  pose proof (decode_parts_by_position order [1; 5]) as (_ & Hshort & _).
  split.
  - apply Hextra. simpl. lia.
  - apply Hshort. simpl. lia.
Defined.

Lemma generate_all_custom_witness :
  ∃ info,
    _generate order
      {[ "placeholder" := VInt 1; "time" := VStr "2018-01-01 00:00:05";
         "sequence" := VInt 7 ]} fresh_world
    = (Ok info, fresh_world)
    ∧ dom info = list_to_set (name <$> fields order)
    ∧ ∀ field, field ∈ fields order →
        info !! name field
        = ({[ "placeholder" := VInt 1;
              "time" := VStr "2018-01-01 00:00:05";
              "sequence" := VInt 7 ]} : gmap string value) !! name field.
Proof.
  apply (generate_all_custom order).
  repeat (apply Forall_cons; split; [eexists; vm_compute; reflexivity|]).
  apply Forall_nil_2.
Defined.

Lemma parse_after_generate_witness :
  ∃ info parts id_num,
    _generate order ∅ fresh_world = (Ok info, first_world)
    ∧ _encode order info = Ok parts
    ∧ VInt 35184372416519 = VInt id_num
    ∧ 0 ≤ id_num < 2 ^ total_bits (fields order)
    ∧ IdGenerator_parse order (VInt 35184372416519) = _decode order parts.
Proof.
  exact (parse_after_generate order ∅ fresh_world (VInt 35184372416519)
           first_world order_first_generate).
Defined.

Example order_sequence_generate :
  SequenceField.generate "sequence" order_sequence
    {[ "time" := VStr "2018-01-01 00:00:05" ]} fresh_world
  = (Ok (VInt 7),
     {| caches := {[ 0%nat := {[ "2018-01-01 00:00:05" := 7 ]} ]};
        journal := [(0%nat, "2018-01-01 00:00:05", 7)];
        tape := tape fresh_world; drawn := 1; now := now fresh_world |}).
Proof. vm_compute. reflexivity. Defined.

Lemma sequence_generate_frame_witness :
  cache_of {| caches := {[ 0%nat := {[ "2018-01-01 00:00:05" := 7 ]} ]};
              journal := [(0%nat, "2018-01-01 00:00:05", 7)];
              tape := tape fresh_world; drawn := 1;
              now := now fresh_world |} 0%nat !! "2018-01-01 00:00:04"
  = cache_of fresh_world 0%nat !! "2018-01-01 00:00:04".
Proof.
  apply (proj2 (sequence_generate_frame _ _ _ _ _ _ order_sequence_generate)).
  left. vm_compute. discriminate.
Defined.

Lemma sequence_generate_empty_range_witness :
  SequenceField.generate "stuck" stuck_sequence ∅
    {| caches := {[ 0%nat := {[ "stuck" := 3 ]} ]}; journal := [];
       tape := tape fresh_world; drawn := 0; now := now fresh_world |}
  = (Raise EmptyRange,
     {| caches := {[ 0%nat := {[ "stuck" := 3 ]} ]}; journal := [];
        tape := tape fresh_world; drawn := 0; now := now fresh_world |}).
Proof.
  apply (proj1 (sequence_generate_empty_range "stuck" stuck_sequence ∅
                  "stuck" _ eq_refl)).
  - exists 3. vm_compute. reflexivity.
  - simpl. lia.
Defined.

Lemma sequence_generate_twice_witness :
  ∃ second w2,
    SequenceField.generate "sequence" order_sequence
      {[ "time" := VStr "2018-01-01 00:00:05" ]}
      {| caches := {[ 0%nat := {[ "2018-01-01 00:00:05" := 7 ]} ]};
         journal := [(0%nat, "2018-01-01 00:00:05", 7)];
         tape := tape fresh_world; drawn := 1; now := now fresh_world |}
    = (Ok (VInt second), w2)
    ∧ 7 + 1 ≤ second ≤ 7 + 10
    ∧ (1 ≤ 1 → 7 < second).
Proof.
  apply (sequence_generate_twice _ _ _ _ _ _ order_sequence_generate).
  simpl. lia.
Defined.

(** ** What the time fields generate *)

(** The instant [strptime] reads from the text [strftime] wrote: the
    instant written, cut down to the grid of the precision. *)
Lemma DateTimeField_strptime_instant p dt :
  valid_datetime dt → 1000 ≤ year dt →
  ∃ dt', strptime_str (strftime (DateTimeField.DATE_TIME_FORMATS p) dt)
           (DateTimeField.DATE_TIME_FORMATS p) = Ok dt'
         ∧ instant dt'
           = instant dt - time_of_day dt mod DateTimeField.Precision_value p.
Proof.
  intros Hv Hyear. pose proof (valid_datetime_ranges dt Hv) as [Hd Ht].
  destruct Hv as [Hdate Htime].
  destruct p; cbn [DateTimeField.DATE_TIME_FORMATS]; eexists; split.
  - change (strftime "%Y-%m-%d" dt)
      with (pretty (year dt) +:+ String "-"
             (zero_padded 2 (month dt) "" +:+ String "-"
               (zero_padded 2 (day dt) "" +:+ ""))).
    rewrite pretty_year by lia.
    parse_with [Group "Y" re_Y; Lit "-"; Group "m" re_m; Lit "-";
                Group "d" re_d]
      (zero_padded 4 (year dt) "" +:+ String "-"
        (zero_padded 2 (month dt) "" +:+ String "-"
          (zero_padded 2 (day dt) "" +:+ ""))).
    read_fields. by apply new_datetime_valid; [|unfold valid_time; lia].
  - unfold instant, time_of_day, toordinal. simpl.
    Z.div_mod_to_equations. lia.
  - change (strftime "%Y-%m-%d %H" dt)
      with (pretty (year dt) +:+ String "-"
             (zero_padded 2 (month dt) "" +:+ String "-"
               (zero_padded 2 (day dt) "" +:+ String " "
                 (zero_padded 2 (hour dt) "" +:+ "")))).
    rewrite pretty_year by lia.
    parse_with [Group "Y" re_Y; Lit "-"; Group "m" re_m; Lit "-";
                Group "d" re_d; Spaces; Group "H" re_H]
      (zero_padded 4 (year dt) "" +:+ String "-"
        (zero_padded 2 (month dt) "" +:+ String "-"
          (zero_padded 2 (day dt) "" +:+ String " "
            (zero_padded 2 (hour dt) "" +:+ "")))).
    read_fields. by apply new_datetime_valid; [|unfold valid_time; lia].
  - unfold instant, time_of_day, toordinal. simpl.
    Z.div_mod_to_equations. lia.
  - change (strftime "%Y-%m-%d %H:%M" dt)
      with (pretty (year dt) +:+ String "-"
             (zero_padded 2 (month dt) "" +:+ String "-"
               (zero_padded 2 (day dt) "" +:+ String " "
                 (zero_padded 2 (hour dt) "" +:+ String ":"
                   (zero_padded 2 (minute dt) "" +:+ ""))))).
    rewrite pretty_year by lia.
    parse_with [Group "Y" re_Y; Lit "-"; Group "m" re_m; Lit "-";
                Group "d" re_d; Spaces; Group "H" re_H; Lit ":";
                Group "M" re_M]
      (zero_padded 4 (year dt) "" +:+ String "-"
        (zero_padded 2 (month dt) "" +:+ String "-"
          (zero_padded 2 (day dt) "" +:+ String " "
            (zero_padded 2 (hour dt) "" +:+ String ":"
              (zero_padded 2 (minute dt) "" +:+ ""))))).
    read_fields. by apply new_datetime_valid; [|unfold valid_time; lia].
  - unfold instant, time_of_day, toordinal. simpl.
    Z.div_mod_to_equations. lia.
  - change (strftime "%Y-%m-%d %H:%M:%S" dt)
      with (pretty (year dt) +:+ String "-"
             (zero_padded 2 (month dt) "" +:+ String "-"
               (zero_padded 2 (day dt) "" +:+ String " "
                 (zero_padded 2 (hour dt) "" +:+ String ":"
                   (zero_padded 2 (minute dt) "" +:+ String ":"
                     (zero_padded 2 (second dt) "" +:+ "")))))).
    rewrite pretty_year by lia.
    parse_with [Group "Y" re_Y; Lit "-"; Group "m" re_m; Lit "-";
                Group "d" re_d; Spaces; Group "H" re_H; Lit ":";
                Group "M" re_M; Lit ":"; Group "S" re_S]
      (zero_padded 4 (year dt) "" +:+ String "-"
        (zero_padded 2 (month dt) "" +:+ String "-"
          (zero_padded 2 (day dt) "" +:+ String " "
            (zero_padded 2 (hour dt) "" +:+ String ":"
              (zero_padded 2 (minute dt) "" +:+ String ":"
                (zero_padded 2 (second dt) "" +:+ "")))))).
    read_fields. by apply new_datetime_valid; [|unfold valid_time; lia].
  - unfold instant, time_of_day, toordinal. simpl.
    Z.div_mod_to_equations. lia.
Qed.

Lemma TimeField_strptime_instant p dt :
  valid_datetime dt →
  ∃ dt', strptime_str (strftime (TimeField.TIME_FORMATS p) dt)
           (TimeField.TIME_FORMATS p) = Ok dt'
         ∧ time_of_day dt'
           = time_of_day dt - time_of_day dt mod TimeField.Precision_value p.
Proof.
  intros Hv. pose proof (valid_datetime_ranges dt Hv) as [Hd Ht].
  destruct p; cbn [TimeField.TIME_FORMATS]; eexists; split.
  - change (strftime "%H" dt) with (zero_padded 2 (hour dt) "" +:+ "").
    parse_with [Group "H" re_H] (zero_padded 2 (hour dt) "" +:+ "").
    read_fields.
    by apply new_datetime_valid; [apply valid_date_1900|unfold valid_time; lia].
  - unfold time_of_day. simpl. Z.div_mod_to_equations. lia.
  - change (strftime "%H:%M" dt)
      with (zero_padded 2 (hour dt) "" +:+ String ":"
             (zero_padded 2 (minute dt) "" +:+ "")).
    parse_with [Group "H" re_H; Lit ":"; Group "M" re_M]
      (zero_padded 2 (hour dt) "" +:+ String ":"
        (zero_padded 2 (minute dt) "" +:+ "")).
    read_fields.
    by apply new_datetime_valid; [apply valid_date_1900|unfold valid_time; lia].
  - unfold time_of_day. simpl. Z.div_mod_to_equations. lia.
  - change (strftime "%H:%M:%S" dt)
      with (zero_padded 2 (hour dt) "" +:+ String ":"
             (zero_padded 2 (minute dt) "" +:+ String ":"
               (zero_padded 2 (second dt) "" +:+ ""))).
    parse_with [Group "H" re_H; Lit ":"; Group "M" re_M; Lit ":";
                Group "S" re_S]
      (zero_padded 2 (hour dt) "" +:+ String ":"
        (zero_padded 2 (minute dt) "" +:+ String ":"
          (zero_padded 2 (second dt) "" +:+ ""))).
    read_fields.
    by apply new_datetime_valid; [apply valid_date_1900|unfold valid_time; lia].
  - unfold time_of_day. simpl. Z.div_mod_to_equations. lia.
Qed.

(** Before the year 1000 the year is written with fewer than four
    digits, and [%Y] does not match them. *)
Lemma pretty_year_short y :
  1 ≤ y < 1000 → (String.length (pretty y) < 4)%nat.
Proof.
  intros Hy.
  assert ((String.length (pretty y) <? 4)%nat = true) as Hcheck.
  { apply (Z_range_check (λ y, (String.length (pretty y) <? 4)%nat) 1 999);
      [by vm_compute|lia]. }
  by apply Nat.ltb_lt.
Qed.

Lemma re_match_not_digit r a s :
  is_digit a = false → re_match (ReSeq digit r) (String a s) = [].
Proof.
  intros Ha.
  change (re_match (ReSeq digit r) (String a s))
    with ('(m1, s1) ← re_match digit (String a s);
          '(m2, s2) ← re_match r s1; [(m1 +:+ m2, s2)]).
  unfold digit. cbn [re_match]. by rewrite Ha.
Qed.

Lemma re_match_digit_no_more r a s :
  re_match r s = [] → re_match (ReSeq digit r) (String a s) = [].
Proof.
  intros Hr.
  change (re_match (ReSeq digit r) (String a s))
    with ('(m1, s1) ← re_match digit (String a s);
          '(m2, s2) ← re_match r s1; [(m1 +:+ m2, s2)]).
  unfold digit. cbn [re_match]. destruct (is_digit a); [|done].
  cbn [mbind list_bind]. by rewrite Hr.
Qed.

Lemma re_Y_short y rest :
  (String.length y < 4)%nat → re_match re_Y (y +:+ String "-" rest) = [].
Proof.
  intros Hlen. unfold re_Y.
  destruct y as [|a [|b [|c [|d y]]]]; cbv [String.append].
  - by apply re_match_not_digit.
  - apply re_match_digit_no_more. by apply re_match_not_digit.
  - do 2 apply re_match_digit_no_more. by apply re_match_not_digit.
  - do 3 apply re_match_digit_no_more. done.
  - simpl in Hlen. lia.
Qed.

Lemma strptime_str_year_short y rest format items :
  pattern false format = Some (Group "Y" re_Y :: items) →
  (String.length y < 4)%nat →
  strptime_str (y +:+ String "-" rest) format
  = Raise (TimeDataMismatch (y +:+ String "-" rest) format).
Proof.
  intros Hpat Hlen. unfold strptime_str. rewrite Hpat.
  cbn [items_match item_match]. by rewrite re_Y_short.
Qed.

(** [encode] refuses the text that the field writes for an instant before
    the year 1000. *)
Lemma DateTimeField_encode_unpadded f dt :
  valid_datetime dt → year dt < 1000 →
  DateTimeField.encode f (VStr (strftime (DateTimeField.format f) dt))
  = Raise (TimeDataMismatch (strftime (DateTimeField.format f) dt)
             (DateTimeField.format f)).
Proof.
  intros Hv Hyear. pose proof (valid_datetime_ranges dt Hv) as [Hd _].
  pose proof (pretty_year_short (year dt) ltac:(lia)) as Hshort.
  unfold DateTimeField.encode, strptime, DateTimeField.format.
  destruct (DateTimeField.precision f);
    cbn [DateTimeField.DATE_TIME_FORMATS].
  - change (strftime "%Y-%m-%d" dt)
      with (pretty (year dt) +:+ String "-" (strftime "%m-%d" dt)).
    by erewrite strptime_str_year_short.
  - change (strftime "%Y-%m-%d %H" dt)
      with (pretty (year dt) +:+ String "-" (strftime "%m-%d %H" dt)).
    by erewrite strptime_str_year_short.
  - change (strftime "%Y-%m-%d %H:%M" dt)
      with (pretty (year dt) +:+ String "-" (strftime "%m-%d %H:%M" dt)).
    by erewrite strptime_str_year_short.
  - change (strftime "%Y-%m-%d %H:%M:%S" dt)
      with (pretty (year dt) +:+ String "-"
              (strftime "%m-%d %H:%M:%S" dt)).
    by erewrite strptime_str_year_short.
Qed.

(** The number of a written instant of the year 1000 or later: the whole
    units from [base] to it, rounded down. *)
Lemma DateTimeField_encode_strftime f dt :
  valid_datetime (DateTimeField.base f) →
  on_grid (DateTimeField.Precision_value (DateTimeField.precision f))
          (DateTimeField.base f) →
  valid_datetime dt → 1000 ≤ year dt →
  DateTimeField.encode f (VStr (strftime (DateTimeField.format f) dt))
  = Ok ((instant dt - instant (DateTimeField.base f))
        / DateTimeField.Precision_value (DateTimeField.precision f)).
Proof.
  intros Hbase Hgrid Hdt Hyear.
  destruct (DateTimeField_strptime_instant (DateTimeField.precision f) dt
              Hdt Hyear) as (dt' & Hparse & Hinstant).
  fold (DateTimeField.format f) in Hparse.
  rewrite (DateTimeField_encode_spec f _ dt' Hbase Hparse). f_equal.
  rewrite Hinstant. unfold on_grid, instant in *.
  set (tb := time_of_day (DateTimeField.base f)) in *.
  set (ob := toordinal (DateTimeField.base f)) in *.
  set (t := time_of_day dt) in *. set (o := toordinal dt) in *.
  clearbody tb ob t o.
  pose proof (DateTimeField_Precision_value_pos (DateTimeField.precision f))
    as Hpos.
  assert (∃ k, 86400 = k * DateTimeField.Precision_value
                             (DateTimeField.precision f)) as [k Hk].
  { destruct (DateTimeField.precision f); cbn [DateTimeField.Precision_value];
      [by exists 1|by exists 24|by exists 1440|by exists 86400]. }
  revert Hgrid Hpos Hk.
  generalize (DateTimeField.Precision_value (DateTimeField.precision f)).
  intros unit Hgrid Hpos Hk.
  apply Z.div_exact in Hgrid; [|lia].
  pose proof (Z.div_mod t unit ltac:(lia)) as Ht.
  pose proof (Z.mod_pos_bound t unit Hpos) as Hr.
  set (q := t / unit) in *. set (r := t mod unit) in *.
  set (qb := tb / unit) in *. clearbody q r qb.
  replace (o * 86400 + t - r - (ob * 86400 + tb))
    with (((o - ob) * k + q - qb) * unit) by (rewrite Hk; lia).
  rewrite Z.quot_mul by lia.
  replace (o * 86400 + t - (ob * 86400 + tb))
    with (((o - ob) * k + q - qb) * unit + r) by (rewrite Hk; lia).
  rewrite Z.div_add_l by lia. rewrite Z.div_small by lia. lia.
Qed.

Lemma valid_time_of_day dt :
  valid_datetime dt →
  valid_datetime {| year := 1900; month := 1; day := 1; hour := hour dt;
                    minute := minute dt; second := second dt |}.
Proof. intros [_ Ht]. split; [apply valid_date_1900|done]. Qed.

(** X17. A DateTimeField generates the text of the clock and does nothing
    else.  From the year 1000 on that text encodes to the number of whole
    units of the precision from [base] to the clock, rounded down, and
    this number decodes to the generated text again.  Before the year
    1000 the year is written with fewer than four digits, and [encode]
    refuses the text the field generated. *)
Theorem DateTimeField_generate_encode field f info w :
  subclass_of field = IsDateTimeField f →
  valid_datetime (DateTimeField.base f) →
  on_grid (DateTimeField.Precision_value (DateTimeField.precision f))
          (DateTimeField.base f) →
  valid_datetime (now w) →
  let n := (instant (now w) - instant (DateTimeField.base f))
           / DateTimeField.Precision_value (DateTimeField.precision f) in
  let x := strftime (DateTimeField.format f) (now w) in
  generate field info w = (Ok (VStr x), w)
  ∧ (1000 ≤ year (now w) →
     encode field (VStr x) = Ok n ∧ decode field n = Ok (VStr x))
  ∧ (year (now w) < 1000 →
     encode field (VStr x)
     = Raise (TimeDataMismatch x (DateTimeField.format f))).
Proof.
  intros Hsub Hbase Hgrid Hnow n x. unfold generate, encode, decode.
  rewrite Hsub. split; [reflexivity|]. split.
  - intros Hyear.
    pose proof (DateTimeField_encode_strftime f _ Hbase Hgrid Hnow Hyear)
      as Henc.
    split; [exact Henc|].
    destruct (DateTimeField_encode_written f _ Hbase Hgrid Hnow Hyear)
      as (n' & Henc' & Hdec).
    rewrite Henc in Henc'. injection Henc' as <-. exact Hdec.
  - intros Hyear. by apply DateTimeField_encode_unpadded.
Qed.

(** X18. The numbers of a DateTimeField grow with the instants written. *)
Theorem DateTimeField_encode_monotone field f dt1 dt2 n1 n2 :
  subclass_of field = IsDateTimeField f →
  valid_datetime (DateTimeField.base f) →
  on_grid (DateTimeField.Precision_value (DateTimeField.precision f))
          (DateTimeField.base f) →
  valid_datetime dt1 → valid_datetime dt2 →
  encode field (VStr (strftime (DateTimeField.format f) dt1)) = Ok n1 →
  encode field (VStr (strftime (DateTimeField.format f) dt2)) = Ok n2 →
  instant dt1 ≤ instant dt2 → n1 ≤ n2.
Proof.
  intros Hsub Hbase Hgrid Hdt1 Hdt2. unfold encode. rewrite Hsub.
  intros Hn1 Hn2 Hle.
  destruct (Z.lt_ge_cases (year dt1) 1000) as [Hshort|Hyear1].
  { by rewrite DateTimeField_encode_unpadded in Hn1. }
  destruct (Z.lt_ge_cases (year dt2) 1000) as [Hshort|Hyear2].
  { by rewrite DateTimeField_encode_unpadded in Hn2. }
  rewrite DateTimeField_encode_strftime in Hn1, Hn2 by done.
  injection Hn1 as <-. injection Hn2 as <-.
  apply Z.div_le_mono; [apply DateTimeField_Precision_value_pos|lia].
Qed.

(** X19. A TimeField generates the text of the clock's time of day; that
    text encodes to the whole units of the precision since midnight, and
    the number decodes to the text again.  Whatever text [encode] accepts,
    its number is at least 0 and stays within the day. *)
Theorem TimeField_generate_encode field f info w :
  subclass_of field = IsTimeField f →
  let unit := TimeField.Precision_value (TimeField.precision f) in
  (valid_datetime (now w) →
   ∃ x, generate field info w = (Ok (VStr x), w)
        ∧ encode field (VStr x) = Ok (time_of_day (now w) / unit)
        ∧ decode field (time_of_day (now w) / unit) = Ok (VStr x))
  ∧ (∀ x n, encode field (VStr x) = Ok n → 0 ≤ n ∧ n * unit < 86400).
Proof.
  intros Hsub unit. unfold generate, encode, decode. rewrite Hsub.
  pose proof (TimeField_Precision_value_pos (TimeField.precision f)) as Hpos.
  fold unit in Hpos. split.
  - intros Hnow. eexists. split; [reflexivity|].
    unfold TimeField.generate, datetime_time, time_strftime.
    cbn [time_hour time_minute time_second].
    pose proof (valid_time_of_day _ Hnow) as Hday.
    set (today := {| year := 1900; month := 1; day := 1;
                     hour := hour (now w); minute := minute (now w);
                     second := second (now w) |}) in *.
    assert (TimeField.encode f (VStr (strftime (TimeField.format f) today))
            = Ok (time_of_day (now w) / unit)) as Henc.
    { destruct (TimeField_strptime_instant (TimeField.precision f) today Hday)
        as (dt' & Hparse & Htod).
      fold (TimeField.format f) in Hparse.
      unfold TimeField.encode, strptime. rewrite Hparse.
      cbn [mbind result_bind]. f_equal.
      unfold datetime_time. cbn [time_hour time_minute time_second].
      fold (time_of_day dt'). rewrite Htod.
      change (time_of_day today) with (time_of_day (now w)).
      fold unit. generalize (time_of_day (now w)). intros t.
      pose proof (Z.div_mod t unit ltac:(lia)) as Ht.
      replace (t - t mod unit) with (t / unit * unit) by lia.
      by rewrite Z.div_mul by lia. }
    split; [exact Henc|].
    destruct (TimeField_encode_written f today Hday) as (n' & Henc' & Hdec).
    rewrite Henc in Henc'. injection Henc' as <-. exact Hdec.
  - intros x n. unfold TimeField.encode, strptime.
    destruct (strptime_str x (TimeField.format f)) as [dt|e] eqn:Hparse;
      [|done].
    cbn [mbind result_bind]. intros [= <-].
    apply TimeField_strptime_grid in Hparse as [Hdt _].
    pose proof (time_of_day_range _ Hdt) as Hrange.
    unfold datetime_time. cbn [time_hour time_minute time_second].
    fold (time_of_day dt). fold unit.
    generalize dependent (time_of_day dt). intros t Ht.
    split; [apply Z.div_pos; lia|].
    pose proof (Z.mul_div_le t unit Hpos). lia.
Qed.

Lemma DateTimeField_generate_encode_witness :
  generate (DateTimeField "time" 29 DateTimeField.SECOND
              {| year := 2018; month := 1; day := 1;
                 hour := 0; minute := 0; second := 0 |}) ∅ fresh_world
  = (Ok (VStr "2018-01-01 00:00:05"), fresh_world)
  ∧ encode (DateTimeField "time" 29 DateTimeField.SECOND
              {| year := 2018; month := 1; day := 1;
                 hour := 0; minute := 0; second := 0 |})
      (VStr "2018-01-01 00:00:05") = Ok 5
  ∧ decode (DateTimeField "time" 29 DateTimeField.SECOND
              {| year := 2018; month := 1; day := 1;
                 hour := 0; minute := 0; second := 0 |}) 5
    = Ok (VStr "2018-01-01 00:00:05").
Proof.
  destruct (DateTimeField_generate_encode
              (DateTimeField "time" 29 DateTimeField.SECOND
                 {| year := 2018; month := 1; day := 1;
                    hour := 0; minute := 0; second := 0 |})
              _ ∅ fresh_world eq_refl order_base_valid eq_refl
              fresh_world_now_valid) as (Hgen & Hround & _).
  split; [exact Hgen|]. apply Hround. simpl. lia.
Defined.

Lemma DateTimeField_encode_monotone_witness :
  encode (DateTimeField "time" 29 DateTimeField.SECOND
            {| year := 2018; month := 1; day := 1;
               hour := 0; minute := 0; second := 0 |})
    (VStr "2018-01-01 00:00:00") = Ok 0
  ∧ encode (DateTimeField "time" 29 DateTimeField.SECOND
              {| year := 2018; month := 1; day := 1;
                 hour := 0; minute := 0; second := 0 |})
      (VStr "2018-01-01 00:00:05") = Ok 5
  ∧ 0 ≤ 5.
Proof.
  assert (encode (DateTimeField "time" 29 DateTimeField.SECOND
                    {| year := 2018; month := 1; day := 1;
                       hour := 0; minute := 0; second := 0 |})
            (VStr "2018-01-01 00:00:00") = Ok 0) as H0
    by (vm_compute; reflexivity).
  assert (encode (DateTimeField "time" 29 DateTimeField.SECOND
                    {| year := 2018; month := 1; day := 1;
                       hour := 0; minute := 0; second := 0 |})
            (VStr "2018-01-01 00:00:05") = Ok 5) as H5
    by (vm_compute; reflexivity).
  split; [exact H0|]. split; [exact H5|].
  apply (DateTimeField_encode_monotone
           (DateTimeField "time" 29 DateTimeField.SECOND
              {| year := 2018; month := 1; day := 1;
                 hour := 0; minute := 0; second := 0 |})
           _ {| year := 2018; month := 1; day := 1;
                hour := 0; minute := 0; second := 0 |}
           (now fresh_world) 0 5 eq_refl order_base_valid eq_refl
           order_base_valid fresh_world_now_valid H0 H5).
  vm_compute. discriminate.
Defined.

Lemma TimeField_generate_encode_witness :
  ∃ x, generate (TimeField "clock" 17 TimeField.SECOND) ∅ fresh_world
       = (Ok (VStr x), fresh_world)
       ∧ encode (TimeField "clock" 17 TimeField.SECOND) (VStr x) = Ok 5
       ∧ decode (TimeField "clock" 17 TimeField.SECOND) 5 = Ok (VStr x).
Proof.
  exact (proj1 (TimeField_generate_encode
                  (TimeField "clock" 17 TimeField.SECOND) _ ∅ fresh_world
                  eq_refl) fresh_world_now_valid).
Defined.

(** ** The decimal text of a number *)

Lemma append_empty_r s : s +:+ "" = s.
Proof.
  induction s as [|a s IH]; [done|].
  change (String a s +:+ "") with (String a (s +:+ "")). by rewrite IH.
Qed.

Lemma rev_app_rev_app s1 : ∀ s2 s3,
  String.rev_app (String.rev_app s1 s2) s3 = String.rev_app s2 (s1 +:+ s3).
Proof.
  induction s1 as [|a s1 IH]; intros s2 s3; [done|].
  simpl. by rewrite IH.
Qed.

Lemma rev_rev s : String.rev (String.rev s) = s.
Proof.
  unfold String.rev. rewrite rev_app_rev_app. simpl. apply append_empty_r.
Qed.

Lemma all_chars_rev_app P s1 : ∀ s2,
  all_chars P s1 = true → all_chars P s2 = true →
  all_chars P (String.rev_app s1 s2) = true.
Proof.
  induction s1 as [|a s1 IH]; intros s2 H1 H2; [done|].
  simpl in *. apply andb_prop in H1 as [Ha H1]. apply IH; [done|].
  simpl. by rewrite Ha.
Qed.

Lemma lstrip_no_space s :
  all_chars (λ a, negb (is_c_space a)) s = true → lstrip s = s.
Proof.
  destruct s as [|a s]; [done|]. simpl.
  intros [Ha _]%andb_prop. by apply negb_true_iff in Ha as ->.
Qed.

(** [strip] leaves a text without white space as it is. *)
Lemma strip_no_space s :
  all_chars (λ a, negb (is_c_space a)) s = true → strip s = s.
Proof.
  intros Hs. unfold strip. rewrite (lstrip_no_space s Hs).
  rewrite lstrip_no_space; [apply rev_rev|].
  by apply all_chars_rev_app.
Qed.

Lemma is_digit_no_space a : is_digit a = true → is_c_space a = false.
Proof.
  unfold is_digit, is_c_space. intros [H1 H2]%andb_prop.
  apply Z.leb_le in H1, H2.
  destruct (Z.eqb_spec (code a) 32); [lia|].
  repeat match goal with
  | |- context [?x <=? ?y] => destruct (Z.leb_spec x y); try lia
  end; done.
Qed.

Lemma pretty_N_char_digit y :
  (y < 10)%N →
  is_digit (pretty_N_char y) = true
  ∧ digit_val (pretty_N_char y) = Z.of_N y.
Proof.
  intros Hy.
  assert (∃ k : nat, y = N.of_nat k ∧ (k < 10)%nat) as (k & -> & Hk)
    by (exists (N.to_nat y); lia).
  do 10 (destruct k as [|k]; [by vm_compute|]). lia.
Qed.

(** The digits [pretty_N_go] puts before [s] are not white space, and read
    as a literal they continue the number read so far. *)
Lemma pretty_N_go_digits x : ∀ s,
  all_chars is_digit s = true → all_chars is_digit (pretty_N_go x s) = true.
Proof.
  induction (N.lt_wf_0 x) as [x _ IH]; intros s Hs.
  assert (x = 0 ∨ 0 < x)%N as [->|Hx] by lia; [done|].
  rewrite pretty_N_go_step by done. apply IH; [by apply N.div_lt|].
  simpl. rewrite Hs.
  by rewrite (proj1 (pretty_N_char_digit (x `mod` 10)%N
                       ltac:(by apply N.mod_lt))).
Qed.

Lemma pretty_N_go_nonempty x s :
  (0 < x)%N → pretty_N_go x s ≠ "".
Proof.
  revert s. induction (N.lt_wf_0 x) as [x _ IH]; intros s Hx.
  rewrite pretty_N_go_step by done.
  destruct (N.eq_0_gt_0_cases (x `div` 10)) as [->|Hdiv]; [done|].
  apply IH; [by apply N.div_lt|done].
Qed.

Lemma literal_digits_pretty_N_go x :
  ∃ k, 0 ≤ k ∧ ∀ acc s,
    literal_digits acc false (pretty_N_go x s)
    = literal_digits (acc * 10 ^ k + Z.of_N x) false s.
Proof.
  induction (N.lt_wf_0 x) as [x _ IH].
  assert (x = 0 ∨ 0 < x)%N as [->|Hx] by lia.
  { exists 0. split; [done|]. intros acc s. rewrite pretty_N_go_0.
    f_equal. lia. }
  destruct (IH (x `div` 10)%N ltac:(by apply N.div_lt)) as (k & Hk & Hread).
  exists (k + 1). split; [lia|]. intros acc s.
  rewrite pretty_N_go_step, Hread by done.
  destruct (pretty_N_char_digit (x `mod` 10)%N ltac:(by apply N.mod_lt))
    as [Hdigit Hval].
  cbn [literal_digits]. rewrite Hdigit, Hval. f_equal.
  rewrite Z.pow_add_r by lia.
  pose proof (N.div_mod x 10 ltac:(done)) as Hdm.
  apply (f_equal Z.of_N) in Hdm. rewrite N2Z.inj_add, N2Z.inj_mul in Hdm.
  change (Z.of_N 10) with 10 in Hdm. lia.
Qed.

Lemma all_chars_impl (P Q : ascii → bool) s :
  (∀ a, P a = true → Q a = true) →
  all_chars P s = true → all_chars Q s = true.
Proof.
  intros HPQ. induction s as [|a s IH]; [done|]. simpl.
  intros [Ha Hs]%andb_prop. by rewrite (HPQ a Ha), IH.
Qed.

Lemma literal_pretty_N x :
  (0 < x)%N →
  all_chars is_digit (pretty_N_go x "") = true
  ∧ literal (pretty_N_go x "") = Some (Z.of_N x).
Proof.
  intros Hx. pose proof (pretty_N_go_digits x "" eq_refl) as Hdigits.
  split; [done|].
  destruct (literal_digits_pretty_N_go x) as (k & Hk & Hread).
  specialize (Hread 0 ""). simpl in Hread.
  destruct (pretty_N_go x "") as [|a r] eqn:Hgo.
  { by apply pretty_N_go_nonempty in Hgo. }
  simpl in Hdigits. apply andb_prop in Hdigits as [Ha _].
  unfold literal. rewrite Ha. cbn [literal_digits] in Hread.
  by rewrite Ha in Hread.
Qed.

(** [int] on a text that starts with a digit and has no white space. *)
Lemma int_of_str_digits a r :
  is_digit a = true → all_chars is_digit r = true →
  int_of_str (String a r)
  = match literal (String a r) with
    | Some n =>
        if MAX_STR_DIGITS <? count_digits (String a r)
        then Raise (InvalidLiteral (String a r))
        else Ok n
    | None => Raise (InvalidLiteral (String a r))
    end.
Proof.
  intros Ha Hr. unfold int_of_str. rewrite strip_no_space.
  2: { simpl. rewrite (is_digit_no_space a Ha). simpl.
       apply (all_chars_impl is_digit); [|done].
       intros c Hc. by rewrite (is_digit_no_space c Hc). }
  destruct a as [[] [] [] [] [] [] [] []]; try discriminate Ha; reflexivity.
Qed.

Lemma int_of_str_minus a r :
  is_digit a = true → all_chars is_digit r = true →
  int_of_str (String "-" (String a r))
  = match literal (String a r) with
    | Some n =>
        if MAX_STR_DIGITS <? count_digits (String "-" (String a r))
        then Raise (InvalidLiteral (String "-" (String a r)))
        else Ok (- n)
    | None => Raise (InvalidLiteral (String "-" (String a r)))
    end.
Proof.
  intros Ha Hr. unfold int_of_str. rewrite strip_no_space.
  2: { simpl. rewrite (is_digit_no_space a Ha). simpl.
       apply (all_chars_impl is_digit); [|done].
       intros c Hc. by rewrite (is_digit_no_space c Hc). }
  by destruct (literal (String a r)).
Qed.

(** [int] reads the decimal text of [n] as [n], within the limit of
    digits. *)
Lemma int_of_str_pretty (n : Z) :
  (MAX_STR_DIGITS <? count_digits (pretty n)) = false →
  int_of_str (pretty n) = Ok n.
Proof.
  destruct n as [|p|p]; [done| |].
  - change (pretty (Z.pos p)) with (pretty_N_go (N.pos p) "").
    destruct (literal_pretty_N (N.pos p) ltac:(done)) as [Hdigits Hlit].
    destruct (pretty_N_go (N.pos p) "") as [|a r]; [done|].
    simpl in Hdigits. apply andb_prop in Hdigits as [Ha Hr].
    intros Hlimit.
    by rewrite int_of_str_digits, Hlit, Hlimit by done.
  - change (pretty (Z.neg p)) with (String "-" (pretty_N_go (N.pos p) "")).
    destruct (literal_pretty_N (N.pos p) ltac:(done)) as [Hdigits Hlit].
    destruct (pretty_N_go (N.pos p) "") as [|a r]; [done|].
    simpl in Hdigits. apply andb_prop in Hdigits as [Ha Hr].
    intros Hlimit.
    by rewrite int_of_str_minus, Hlit, Hlimit by done.
Qed.

(** The decimal text of a number has as many digits as the number. *)
Lemma count_digits_pretty_N_go x :
  ∃ k, 0 ≤ k ∧ (x = 0%N → k = 0)
       ∧ ((0 < x)%N → 1 ≤ k ∧ 10 ^ (k - 1) ≤ Z.of_N x)
       ∧ ∀ s, count_digits (pretty_N_go x s) = k + count_digits s.
Proof.
  induction (N.lt_wf_0 x) as [x _ IH].
  assert (x = 0 ∨ 0 < x)%N as [->|Hx] by lia.
  { exists 0. split; [done|]. split; [done|]. split; [lia|].
    intros s. by rewrite pretty_N_go_0. }
  destruct (IH (x `div` 10)%N ltac:(by apply N.div_lt))
    as (k & Hk & Hzero & Hlow & Hcount).
  exists (k + 1). split; [lia|]. split; [lia|]. split.
  - intros _. replace (k + 1 - 1) with k by lia.
    pose proof (N.div_mod x 10 ltac:(done)) as Hdm.
    apply (f_equal Z.of_N) in Hdm. rewrite N2Z.inj_add, N2Z.inj_mul in Hdm.
    change (Z.of_N 10) with 10 in Hdm.
    destruct (N.eq_0_gt_0_cases (x `div` 10)) as [Hdiv|Hdiv].
    + rewrite (Hzero Hdiv). simpl. lia.
    + destruct (Hlow Hdiv) as [Hk1 Hlow']. split; [lia|].
      replace k with (Z.succ (k - 1)) by lia.
      rewrite Z.pow_succ_r by lia.
      pose proof (N2Z.is_nonneg (x `mod` 10)) as Hmod.
      revert Hlow' Hdm Hmod. generalize (10 ^ (k - 1)).
      generalize (Z.of_N x), (Z.of_N (x `div` 10)), (Z.of_N (x `mod` 10)).
      intros; lia.
  - intros s. rewrite pretty_N_go_step, Hcount by done.
    cbn [count_digits].
    rewrite (proj1 (pretty_N_char_digit (x `mod` 10)%N
                      ltac:(by apply N.mod_lt))). lia.
Qed.

Lemma count_digits_pretty (n : Z) :
  Z.abs n < 10 ^ MAX_STR_DIGITS →
  (MAX_STR_DIGITS <? count_digits (pretty n)) = false.
Proof.
  intros Hn. apply Z.ltb_ge.
  assert (∀ p, Z.pos p < 10 ^ MAX_STR_DIGITS →
               count_digits (pretty_N_go (N.pos p) "") ≤ MAX_STR_DIGITS)
    as Hpos.
  { intros p Hp.
    destruct (count_digits_pretty_N_go (N.pos p))
      as (k & Hk & _ & Hlow & Hcount).
    rewrite Hcount. cbn [count_digits].
    destruct (Hlow ltac:(done)) as [_ Hlow'].
    destruct (Z.le_gt_cases k MAX_STR_DIGITS) as [?|Hbig]; [lia|].
    pose proof (Z.pow_le_mono_r 10 MAX_STR_DIGITS (k - 1) ltac:(lia)
                  ltac:(lia)) as Hpow.
    change (Z.of_N (N.pos p)) with (Z.pos p) in Hlow'. lia. }
  destruct n as [|p|p].
  - done.
  - change (pretty (Z.pos p)) with (pretty_N_go (N.pos p) "").
    by apply Hpos.
  - change (pretty (Z.neg p)) with (String "-" (pretty_N_go (N.pos p) "")).
    cbn [count_digits]. change (is_digit "-") with false. cbv iota.
    rewrite Z.add_0_l. by apply Hpos.
Qed.

(** X20. [str] returns the decimal text of every integer of at most
    4300 digits.  Whenever [str(n)] returns, [int] of the text is [n]:
    [parse] takes an id as its decimal text, as the command line gives
    it, for the number itself, and a NumberField or SequenceField encodes
    the text as the number. *)
Theorem parse_decimal_text self n :
  (Z.abs n < 10 ^ MAX_STR_DIGITS → is_Ok (str (VInt n)))
  ∧ ∀ text, str (VInt n) = Ok text →
      _parse (VStr text) = Ok n
      ∧ IdGenerator_parse self (VStr text) = IdGenerator_parse self (VInt n)
      ∧ ∀ field,
          (∀ f, subclass_of field ≠ IsDateTimeField f) →
          (∀ f, subclass_of field ≠ IsTimeField f) →
          encode field (VStr text) = Ok n.
Proof.
  split.
  { intros Hn. unfold str. rewrite count_digits_pretty by done.
    by eexists. }
  intros text. unfold str.
  destruct (MAX_STR_DIGITS <? count_digits (pretty n)) eqn:Hlimit; [done|].
  intros [= <-].
  assert (_parse (VStr (pretty n)) = Ok n) as Hparse
    by by apply int_of_str_pretty.
  split; [done|]. split.
  - unfold IdGenerator_parse. by rewrite Hparse.
  - intros field Hdt Ht. unfold encode.
    destruct (subclass_of field) as [f|f|f|f];
      [exact Hparse|by destruct (Hdt f)|by destruct (Ht f)|exact Hparse].
Qed.

Lemma parse_decimal_text_witness :
  str (VInt 35184372416519) = Ok "35184372416519"
  ∧ IdGenerator_parse order (VStr "35184372416519")
    = IdGenerator_parse order (VInt 35184372416519).
Proof.
  split; [reflexivity|].
  apply (proj2 (parse_decimal_text order 35184372416519)
           "35184372416519" eq_refl).
Defined.

(** ** parse_variable_definition *)

Lemma partition_Some sep text before after :
  str_partition sep text = Some (before, after) →
  text = before +:+ String sep after
  ∧ all_chars (λ a, negb (Ascii.eqb a sep)) before = true.
Proof.
  revert before. induction text as [|a rest IH]; intros before; [done|].
  simpl. destruct (Ascii.eqb a sep) eqn:Heq.
  - apply Ascii.eqb_eq in Heq as ->. by intros [= <- <-].
  - destruct (str_partition sep rest) as [[b c]|]; [|done]. simpl.
    intros [= <- <-]. destruct (IH b eq_refl) as [-> Hb].
    simpl. by rewrite Heq, Hb.
Qed.

Lemma partition_None sep text :
  str_partition sep text = None
  ↔ all_chars (λ a, negb (Ascii.eqb a sep)) text = true.
Proof.
  induction text as [|a rest IH]; [done|].
  simpl. destruct (Ascii.eqb a sep); [done|]. simpl. rewrite <- IH.
  destruct (str_partition sep rest) as [[b c]|]; done.
Qed.

Lemma partition_app sep before after :
  all_chars (λ a, negb (Ascii.eqb a sep)) before = true →
  str_partition sep (before +:+ String sep after) = Some (before, after).
Proof.
  induction before as [|a before IH].
  - intros _. simpl. by rewrite (proj2 (Ascii.eqb_eq sep sep) eq_refl).
  - simpl. intros [Ha Hb]%andb_prop. apply negb_true_iff in Ha.
    by rewrite Ha, IH.
Qed.

(** X21. [parse_variable_definition] splits a text at its first ['=']: it
    returns the name before it, which has no ['='], and the value after
    it, which may; and it raises exactly on the texts without ['=']. *)
Theorem parse_variable_definition_first_equals text :
  (∀ name value,
     all_chars (λ a, negb (Ascii.eqb a "=")) name = true →
     parse_variable_definition (name +:+ String "=" value)
     = inr [name; value])
  ∧ (∀ parts, parse_variable_definition text = inr parts →
       ∃ name value,
         parts = [name; value] ∧ text = name +:+ String "=" value
         ∧ all_chars (λ a, negb (Ascii.eqb a "=")) name = true)
  ∧ (parse_variable_definition text
     = inl (UnrecognizedVariableDefinition text)
     ↔ all_chars (λ a, negb (Ascii.eqb a "=")) text = true).
Proof.
  unfold parse_variable_definition, split_once. split; [|split].
  - intros name value Hname. by rewrite partition_app.
  - intros parts.
    destruct (str_partition "=" text) as [[b c]|] eqn:Hpart; [|done].
    simpl. intros [= <-]. exists b, c.
    by destruct (partition_Some _ _ _ _ Hpart).
  - rewrite <- partition_None.
    destruct (str_partition "=" text) as [[b c]|]; simpl; split; done.
Qed.

Lemma parse_variable_definition_first_equals_witness :
  parse_variable_definition ("sequence" +:+ String "=" "a=b")
  = inr ["sequence"; "a=b"].
Proof.
  apply (proj1 (parse_variable_definition_first_equals "")).
  reflexivity.
Defined.

(** ** generate, then parse *)

(** [_decode] on the parts [_encode] made, when every field decodes its
    own number to the value it encoded. *)
Lemma decode_loop_encoded (info : gmap string value) fields :
  ∀ pre acc parts,
    for_each (λ field, match info !! name field with
                       | Some v => encode field v
                       | None => Raise (KeyError (name field))
                       end) fields = Ok parts →
    (∀ field v n, field ∈ fields → info !! name field = Some v →
       encode field v = Ok n → decode field n = Ok v) →
    ∃ info', decode_loop (pre ++ parts) (length pre) acc fields = Ok info'
             ∧ ∀ k, info' !! k
                    = if decide (k ∈ name <$> fields) then info !! k
                      else acc !! k.
Proof.
  induction fields as [|field rest IH]; intros pre acc parts Henc Hround.
  { exists acc. split; [done|]. intros k.
    by rewrite decide_False by apply not_elem_of_nil. }
  cbn [for_each] in Henc.
  destruct (info !! name field) as [v|] eqn:Hv; [|done].
  destruct (encode field v) as [n|e] eqn:Hn; [|done].
  cbn [mbind result_bind] in Henc.
  destruct (for_each _ rest) as [ps|e] eqn:Hrest; [|done].
  simpl in Henc. injection Henc as <-.
  cbn [decode_loop]. rewrite list_lookup_middle by done.
  rewrite (Hround field v n (list_elem_of_here _ _) Hv Hn).
  cbn [mbind result_bind].
  destruct (IH (pre ++ [n]) (<[name field := v]> acc) ps eq_refl)
    as (info' & Hloop & Hinfo').
  { intros f v' n' Hin. apply Hround. by apply list_elem_of_further. }
  rewrite length_app, Nat.add_1_r, <- (assoc_L (++)) in Hloop.
  exists info'. split; [exact Hloop|]. intros k. rewrite Hinfo', fmap_cons.
  destruct (decide (k ∈ name <$> rest)) as [Hin|Hout].
  - by rewrite decide_True by by apply list_elem_of_further.
  - destruct (decide (k = name field)) as [->|Hne].
    + rewrite lookup_insert_eq.
      by rewrite decide_True by apply list_elem_of_here.
    + rewrite lookup_insert_ne by done.
      rewrite decide_False; [done|].
      intros [?|?]%elem_of_cons; done.
Qed.

(** X22. [parse] gives back the info that [generate] worked from, whenever
    each field decodes the number of its value to that value. *)
Theorem parse_generate_round_trip self custom_data w the_id w' :
  IdGenerator_generate self custom_data w = (Ok the_id, w') →
  ∃ info, _generate self custom_data w = (Ok info, w')
          ∧ ((∀ field v n, field ∈ fields self →
                info !! name field = Some v →
                encode field v = Ok n → decode field n = Ok v) →
             IdGenerator_parse self the_id = Ok info).
Proof.
  unfold IdGenerator_generate. intros Hgen.
  apply M_bind_Ok_inv in Hgen as (info & w1 & Hinfo & Hgen).
  apply M_bind_Ok_inv in Hgen as (parts & w2 & Hparts & Hgen).
  apply M_bind_Ok_inv in Hgen as (id_num & w3 & Hid & Hgen).
  unfold lift in Hparts, Hid. injection Hparts as Hparts <-.
  injection Hid as Hid <-. injection Hgen as <- <-.
  exists info. split; [done|]. intros Hround.
  pose proof (assemble_Ok_fits _ _ _ Hid) as Hfit.
  unfold IdGenerator_parse, _parse, _format. cbn [int mbind result_bind].
  assert (_disassemble self id_num = Ok parts) as ->.
  { rewrite assemble_fits in Hid by done. injection Hid as <-.
    by apply disassemble_packed. }
  cbn [mbind result_bind]. unfold _decode.
  destruct (decode_loop_encoded info (fields self) [] ∅ parts Hparts Hround)
    as (info' & Hloop & Hinfo').
  simpl in Hloop. rewrite Hloop. f_equal. apply map_eq. intros k.
  rewrite Hinfo'. apply generate_loop_info in Hinfo as [Hdom _].
  rewrite dom_empty_L, (left_id_L ∅ (∪)) in Hdom.
  destruct (decide (k ∈ name <$> fields self)) as [Hin|Hout]; [done|].
  rewrite lookup_empty. symmetry. apply not_elem_of_dom.
  by rewrite Hdom, elem_of_list_to_set.
Qed.

Lemma parse_generate_round_trip_witness :
  ∃ info, _generate order ∅ fresh_world = (Ok info, first_world)
          ∧ ((∀ field v n, field ∈ fields order →
                info !! name field = Some v →
                encode field v = Ok n → decode field n = Ok v) →
             IdGenerator_parse order (VInt 35184372416519) = Ok info).
Proof.
  exact (parse_generate_round_trip order ∅ fresh_world (VInt 35184372416519)
           first_world order_first_generate).
Defined.

(** ** The generator ['order'] *)

(** An instant not before 2018 is not before the year 1000 either. *)
Lemma ymd2ord_year_bound y m d :
  valid_date y m d → _ymd2ord y m d ≤ _days_before_year y + 366.
Proof.
  intros (Hy & Hm & Hd). rewrite days_in_month_length in Hd.
  unfold _ymd2ord. rewrite days_before_month_offset by done.
  destruct (month_day_of_date (_is_leap y) m d Hm Hd) as (Hrange & _ & _).
  destruct (_is_leap y); lia.
Qed.

Lemma year_since_2018 dt :
  valid_datetime dt →
  instant {| year := 2018; month := 1; day := 1;
             hour := 0; minute := 0; second := 0 |} ≤ instant dt →
  1000 ≤ year dt.
Proof.
  intros Hv Hle. pose proof (time_of_day_range dt Hv) as Ht.
  destruct Hv as [Hd _].
  pose proof (ymd2ord_year_bound _ _ _ Hd) as Hord.
  destruct Hd as ([Hy _] & _). unfold MINYEAR in Hy.
  destruct (Z.lt_ge_cases (year dt) 1000) as [Hshort|?]; [|done].
  let v := eval vm_compute in
    (instant {| year := 2018; month := 1; day := 1;
                hour := 0; minute := 0; second := 0 |}) in
  change (instant {| year := 2018; month := 1; day := 1;
                     hour := 0; minute := 0; second := 0 |}) with v in Hle.
  unfold instant, toordinal in Hle. unfold _days_before_year in Hord.
  revert Hle Hord Ht.
  generalize (_ymd2ord (year dt) (month dt) (day dt)), (time_of_day dt).
  intros ord t Hle Hord Ht. Z.div_mod_to_equations. lia.
Qed.

(** What ['order'] generates on its own, whatever the world: the marker,
    the text of the clock and the counter of that text, which it leaves in
    the cache; and the parts of these. *)
Lemma order_generate_info w :
  let key := strftime "%Y-%m-%d %H:%M:%S" (now w) in
  let elapsed :=
    instant (now w)
    - instant {| year := 2018; month := 1; day := 1;
                 hour := 0; minute := 0; second := 0 |} in
  valid_datetime (now w) →
  ∃ seq w',
    _generate order ∅ w
    = (Ok (<["sequence" := VInt seq]>
             (<["time" := VStr key]> (<["placeholder" := VInt 1]> ∅))), w')
    ∧ (1000 ≤ year (now w) →
       _encode order (<["sequence" := VInt seq]>
                        (<["time" := VStr key]>
                           (<["placeholder" := VInt 1]> ∅)))
       = Ok [1; elapsed; seq]
       ∧ decode (DateTimeField "time" 29 DateTimeField.SECOND
                   {| year := 2018; month := 1; day := 1;
                      hour := 0; minute := 0; second := 0 |}) elapsed
         = Ok (VStr key))
    ∧ (year (now w) < 1000 →
       _encode order (<["sequence" := VInt seq]>
                        (<["time" := VStr key]>
                           (<["placeholder" := VInt 1]> ∅)))
       = Raise (TimeDataMismatch key "%Y-%m-%d %H:%M:%S"))
    ∧ cache_of w' 0%nat !! key = Some seq
    ∧ match cache_of w 0%nat !! key with
      | Some prev => prev + 1 ≤ seq ≤ prev + 10
      | None => 0 ≤ seq ≤ 10000
      end.
Proof.
  intros key elapsed Hnow.
  set (base := {| year := 2018; month := 1; day := 1;
                  hour := 0; minute := 0; second := 0 |}) in *.
  set (time_field := {| DateTimeField.precision := DateTimeField.SECOND;
                        DateTimeField.base := base |}).
  (* the placeholder *)
  destruct (randint_range 1 1 w ltac:(lia)) as (one & Hdraw1 & Hone).
  assert (one = 1) as -> by lia.
  set (w1 := {| caches := caches w; journal := journal w; tape := tape w;
                drawn := S (drawn w); now := now w |}) in *.
  (* the counter *)
  set (info2 := <["time" := VStr key]>
                  (<["placeholder" := VInt 1]> (∅ : gmap string value))).
  assert (SequenceField.key_of "sequence" order_sequence info2 = Ok key)
    as Hkey.
  { unfold SequenceField.key_of. cbn [SequenceField.keys order_sequence].
    cbn [for_each]. subst info2. by rewrite lookup_insert_eq. }
  assert (∃ seq w2,
            SequenceField.generate "sequence" order_sequence info2 w1
            = (Ok (VInt seq), w2)
            ∧ cache_of w2 0%nat !! key = Some seq
            ∧ match cache_of w 0%nat !! key with
              | Some prev => prev + 1 ≤ seq ≤ prev + 10
              | None => 0 ≤ seq ≤ 10000
              end)
    as (seq & w2 & Hseq & Hstored & Hrange).
  { destruct (cache_of w 0%nat !! key) as [prev|] eqn:Hprev.
    - rewrite (sequence_generate_known _ _ _ _ prev _ Hkey) by exact Hprev.
      destruct (randint_range 1 10 w1 ltac:(lia)) as (n & Hdraw & Hn).
      exists (prev + n). eexists. split; [|split].
      + cbv [SequenceField._next_seq mbind M_bind mret M_ret].
        cbn [SequenceField.step order_sequence fst snd]. rewrite Hdraw.
        reflexivity.
      + apply cache_of_setitem.
      + lia.
    - rewrite (sequence_generate_new _ _ _ _ _ Hkey) by exact Hprev.
      destruct (randint_range 0 10000 w1 ltac:(lia)) as (n & Hdraw & Hn).
      exists n. eexists. split; [|split].
      + cbv [SequenceField._new_seq mbind M_bind mret M_ret].
        cbn [SequenceField.start order_sequence fst snd]. rewrite Hdraw.
        reflexivity.
      + apply cache_of_setitem.
      + lia. }
  assert (_encode order (<["sequence" := VInt seq]> info2)
          = (number ← DateTimeField.encode time_field (VStr key);
             Ok [1; number; seq])) as Hencode.
  { unfold _encode. cbn [fields order for_each].
    cbn [name placeholder DateTimeField SequenceField].
    subst info2.
    repeat first [rewrite lookup_insert_eq
                 |rewrite lookup_insert_ne by done].
    cbv beta iota. fold base.
    change (encode placeholder (VInt 1)) with (Ok 1).
    change (encode (DateTimeField "time" 29 DateTimeField.SECOND base)
              (VStr key))
      with (DateTimeField.encode time_field (VStr key)).
    by destruct (DateTimeField.encode time_field (VStr key)). }
  exists seq, w2. fold info2. split; [|split; [|split; [|done]]].
  - unfold _generate. cbn [fields order generate_loop].
    rewrite !lookup_empty.
    assert (generate placeholder ∅ w = (Ok (VInt 1), w1)) as Hplace.
    { unfold generate, placeholder. cbn [subclass_of].
      cbv [NumberField.generate mbind M_bind mret M_ret].
      cbn [NumberField.start NumberField.end_]. by rewrite Hdraw1. }
    rewrite (M_bind_Ok _ _ _ _ _ Hplace).
    cbn [name placeholder DateTimeField SequenceField].
    assert (generate {| name := "time"; bits := 29;
                        subclass_of := IsDateTimeField time_field |}
              (<["placeholder" := VInt 1]> ∅) w1
            = (Ok (VStr key), w1)) as Htime by reflexivity.
    rewrite (M_bind_Ok _ _ _ _ _ Htime).
    cbn [name]. fold info2.
    rewrite (M_bind_Ok _ _ _ _ _ Hseq). reflexivity.
  - intros Hyear.
    assert (DateTimeField.encode time_field (VStr key) = Ok elapsed)
      as Henc.
    { subst key.
      change "%Y-%m-%d %H:%M:%S" with (DateTimeField.format time_field).
      rewrite DateTimeField_encode_strftime;
        [|apply order_base_valid|reflexivity|done..].
      by rewrite Z.div_1_r. }
    split; [by rewrite Hencode, Henc|].
    change (DateTimeField.decode time_field elapsed = Ok (VStr key)).
    destruct (DateTimeField_encode_written time_field (now w)
                order_base_valid eq_refl Hnow Hyear) as (n & Hn & Hdec).
    change (DateTimeField.format time_field) with "%Y-%m-%d %H:%M:%S" in *.
    fold key in Hn, Hdec. rewrite Henc in Hn. by injection Hn as <-.
  - intros Hyear. rewrite Hencode.
    pose proof (DateTimeField_encode_unpadded time_field (now w) Hnow Hyear)
      as Henc.
    change (DateTimeField.format time_field) with "%Y-%m-%d %H:%M:%S" in *.
    fold key in Henc. by rewrite Henc.
Qed.

Lemma order_parts_fit elapsed seq :
  Forall2 fits [1; elapsed; seq] (fields order)
  ↔ 0 ≤ elapsed < 2 ^ 29 ∧ 0 ≤ seq < 2 ^ 16.
Proof.
  cbn [fields order]. split.
  - intros Hfit. apply Forall2_cons_1 in Hfit as [_ Hfit].
    apply Forall2_cons_1 in Hfit as [He Hfit].
    apply Forall2_cons_1 in Hfit as [Hs _].
    unfold fits in *. simpl in *. lia.
  - intros [He Hs].
    repeat (apply Forall2_cons; split); [..|apply Forall2_nil_2];
      unfold fits; simpl; lia.
Qed.

(** X23. The generator ['order'] of [get_generators], with the clock from
    2018-01-01 00:00:00 to less than [2^29] seconds later and the counter
    of the clock's second new or low enough to take a step: [generate]
    returns an id of exactly 46 bits, made of the marker bit, the seconds
    since 2018 and the counter it left in the cache; [parse] of the id
    returns the info generated. *)
Theorem order_generate_parse w :
  let key := strftime "%Y-%m-%d %H:%M:%S" (now w) in
  let elapsed :=
    instant (now w)
    - instant {| year := 2018; month := 1; day := 1;
                 hour := 0; minute := 0; second := 0 |} in
  valid_datetime (now w) →
  0 ≤ elapsed < 2 ^ 29 →
  (∀ prev, cache_of w 0%nat !! key = Some prev →
     0 ≤ prev + 1 ∧ prev + 10 < 2 ^ 16) →
  ∃ id_num seq info w',
    IdGenerator_generate order ∅ w = (Ok (VInt id_num), w')
    ∧ id_num = 2 ^ 45 + elapsed * 2 ^ 16 + seq
    ∧ 0 ≤ seq < 2 ^ 16
    ∧ cache_of w' 0%nat !! key = Some seq
    ∧ _generate order ∅ w = (Ok info, w')
    ∧ info !! "time" = Some (VStr key)
    ∧ info !! "sequence" = Some (VInt seq)
    ∧ IdGenerator_parse order (VInt id_num) = Ok info.
Proof.
  intros key elapsed Hnow Helapsed Hcounter.
  assert (1000 ≤ year (now w)) as Hyear.
  { apply year_since_2018; [done|]. subst elapsed. lia. }
  destruct (order_generate_info w Hnow)
    as (seq & w2 & Hgen & Hround & _ & Hstored & Hrange).
  destruct (Hround Hyear) as [Hparts Hdec].
  fold key in Hgen, Hparts, Hdec, Hstored, Hrange.
  fold elapsed in Hparts, Hdec.
  assert (0 ≤ seq < 2 ^ 16) as Hseq.
  { destruct (cache_of w 0%nat !! key) as [prev|].
    - destruct (Hcounter prev eq_refl). lia.
    - lia. }
  pose proof (proj2 (order_parts_fit elapsed seq) (conj Helapsed Hseq))
    as Hfit.
  exists (packed_rec (bits <$> fields order) [1; elapsed; seq]), seq.
  eexists. exists w2. split.
  { unfold IdGenerator_generate. rewrite (M_bind_Ok _ _ _ _ _ Hgen).
    cbv [mbind M_bind lift]. rewrite Hparts.
    rewrite (assemble_fits order _ Hfit). reflexivity. }
  split.
  { cbn [fields order fmap list_fmap bits placeholder DateTimeField
         SequenceField packed_rec].
    unfold sum_bits. cbn [foldr].
    change (2 ^ (29 + (16 + 0))) with (2 ^ 45).
    change (2 ^ (16 + 0)) with (2 ^ 16). change (2 ^ 0) with 1. lia. }
  split; [done|]. split; [done|]. split; [done|].
  split; [by rewrite lookup_insert_ne, lookup_insert_eq by done|].
  split; [by rewrite lookup_insert_eq|].
  unfold IdGenerator_parse, _parse. cbn [int mbind result_bind].
  rewrite (disassemble_packed order _ Hfit). cbn [mbind result_bind].
  unfold _decode. cbn [fields order decode_loop lookup list_lookup].
  cbn [name placeholder DateTimeField SequenceField].
  change (decode placeholder 1) with (Ok (VInt 1)).
  cbn [mbind result_bind]. rewrite Hdec. reflexivity.
Qed.

(** X24. ['order'] with a valid clock always stores a counter for the
    text of the clock, and it generates an id exactly while the clock is
    within [2^29] seconds from 2018-01-01 00:00:00 and that counter is
    within 16 bits.  With the clock outside that range it raises with
    the counter stored: from the year 1000 on for the time part that is
    out of its bits, and before the year 1000 for the text of the clock,
    which [encode] refuses. *)
Theorem order_generate_succeeds_iff w :
  let key := strftime "%Y-%m-%d %H:%M:%S" (now w) in
  let elapsed :=
    instant (now w)
    - instant {| year := 2018; month := 1; day := 1;
                 hour := 0; minute := 0; second := 0 |} in
  valid_datetime (now w) →
  ∃ r seq w',
    IdGenerator_generate order ∅ w = (r, w')
    ∧ cache_of w' 0%nat !! key = Some seq
    ∧ (is_Ok r ↔ 0 ≤ elapsed < 2 ^ 29 ∧ 0 ≤ seq < 2 ^ 16)
    ∧ (1000 ≤ year (now w) → ¬ (0 ≤ elapsed < 2 ^ 29) →
       r = Raise (PartOutOfBits elapsed 29 (2 ^ 29 - 1)))
    ∧ (year (now w) < 1000 →
       r = Raise (TimeDataMismatch key "%Y-%m-%d %H:%M:%S")).
Proof.
  intros key elapsed Hnow.
  destruct (order_generate_info w Hnow)
    as (seq & w2 & Hgen & Hround & Hshort & Hstored & _).
  fold key in Hgen, Hround, Hshort, Hstored. fold elapsed in Hround.
  destruct (Z.lt_ge_cases (year (now w)) 1000) as [Hyear|Hyear].
  { (* the text of the clock is refused *)
    specialize (Hshort Hyear).
    assert (IdGenerator_generate order ∅ w
            = (Raise (TimeDataMismatch key "%Y-%m-%d %H:%M:%S"), w2))
      as Hrun.
    { unfold IdGenerator_generate. rewrite (M_bind_Ok _ _ _ _ _ Hgen).
      cbv [mbind M_bind lift]. by rewrite Hshort. }
    eexists. exists seq, w2. split; [exact Hrun|]. split; [done|].
    split; [|split; [lia|done]].
    split; [by intros [? ?]|]. intros [Helapsed _].
    assert (1000 ≤ year (now w)); [|lia].
    apply year_since_2018; [done|]. subst elapsed. lia. }
  destruct (Hround Hyear) as [Hparts _].
  assert (IdGenerator_generate order ∅ w
          = ((id_num ← _assemble order [1; elapsed; seq];
              Ok (_format id_num)), w2)) as Hrun.
  { unfold IdGenerator_generate. rewrite (M_bind_Ok _ _ _ _ _ Hgen).
    cbv [mbind M_bind lift]. rewrite Hparts.
    by destruct (_assemble order [1; elapsed; seq]). }
  eexists. exists seq, w2. split; [exact Hrun|]. split; [done|].
  split; [|split; [|lia]].
  - rewrite <- order_parts_fit. split.
    + intros [the_id Hok].
      destruct (_assemble order [1; elapsed; seq]) as [id_num|e] eqn:Hasm;
        [|done].
      by eapply assemble_Ok_fits.
    + intros Hfit. rewrite (assemble_fits order _ Hfit). by eexists.
  - intros _ Hout. unfold _assemble. cbn [fields order length zip zip_with].
    cbn [Nat.eqb negb assemble_loop].
    change (mask placeholder) with (Ok 1).
    change (mask (DateTimeField "time" 29 DateTimeField.SECOND
                    {| year := 2018; month := 1; day := 1;
                       hour := 0; minute := 0; second := 0 |}))
      with (Ok (2 ^ 29 - 1)).
    cbn [mbind result_bind Z.leb Z.compare Pos.compare Pos.compare_cont].
    destruct (Z.leb_spec 0 elapsed); [|done].
    by destruct (Z.leb_spec elapsed (2 ^ 29 - 1)); [lia|].
Qed.

Lemma order_generate_parse_witness :
  ∃ id_num seq info w',
    IdGenerator_generate order ∅ fresh_world = (Ok (VInt id_num), w')
    ∧ id_num = 2 ^ 45 + 5 * 2 ^ 16 + seq
    ∧ 0 ≤ seq < 2 ^ 16
    ∧ cache_of w' 0%nat !! "2018-01-01 00:00:05" = Some seq
    ∧ _generate order ∅ fresh_world = (Ok info, w')
    ∧ info !! "time" = Some (VStr "2018-01-01 00:00:05")
    ∧ info !! "sequence" = Some (VInt seq)
    ∧ IdGenerator_parse order (VInt id_num) = Ok info.
Proof.
  apply (order_generate_parse fresh_world fresh_world_now_valid).
  - vm_compute. split; [discriminate|reflexivity].
  - intros prev Hprev. vm_compute in Hprev. discriminate Hprev.
Defined.

Lemma order_generate_succeeds_iff_witness :
  ∃ r seq w',
    IdGenerator_generate order ∅ fresh_world = (r, w')
    ∧ cache_of w' 0%nat !! "2018-01-01 00:00:05" = Some seq
    ∧ (is_Ok r ↔ 0 ≤ 5 < 2 ^ 29 ∧ 0 ≤ seq < 2 ^ 16)
    ∧ (1000 ≤ 2018 → ¬ (0 ≤ 5 < 2 ^ 29) →
       r = Raise (PartOutOfBits 5 29 (2 ^ 29 - 1)))
    ∧ (2018 < 1000 →
       r = Raise (TimeDataMismatch "2018-01-01 00:00:05"
                    "%Y-%m-%d %H:%M:%S")).
Proof.
  exact (order_generate_succeeds_iff fresh_world fresh_world_now_valid).
Defined.

(** What an id of ['order'] is made of. *)
Lemma order_generate_Ok w id_num w' :
  let key := strftime "%Y-%m-%d %H:%M:%S" (now w) in
  let elapsed :=
    instant (now w)
    - instant {| year := 2018; month := 1; day := 1;
                 hour := 0; minute := 0; second := 0 |} in
  valid_datetime (now w) →
  IdGenerator_generate order ∅ w = (Ok (VInt id_num), w') →
  ∃ seq,
    id_num = 2 ^ 45 + elapsed * 2 ^ 16 + seq
    ∧ 0 ≤ elapsed < 2 ^ 29 ∧ 0 ≤ seq < 2 ^ 16
    ∧ cache_of w' 0%nat !! key = Some seq
    ∧ match cache_of w 0%nat !! key with
      | Some prev => prev + 1 ≤ seq ≤ prev + 10
      | None => 0 ≤ seq ≤ 10000
      end.
Proof.
  intros key elapsed Hnow Hrun.
  destruct (order_generate_info w Hnow)
    as (seq & w2 & Hgen & Hround & Hshort & Hstored & Hrange).
  fold key in Hgen, Hround, Hshort, Hstored, Hrange.
  fold elapsed in Hround.
  unfold IdGenerator_generate in Hrun.
  rewrite (M_bind_Ok _ _ _ _ _ Hgen) in Hrun.
  cbv [mbind M_bind lift] in Hrun.
  destruct (Z.lt_ge_cases (year (now w)) 1000) as [Hyear|Hyear].
  { by rewrite (Hshort Hyear) in Hrun. }
  destruct (Hround Hyear) as [Hparts _]. rewrite Hparts in Hrun.
  destruct (_assemble order [1; elapsed; seq]) as [n|e] eqn:Hasm; [|done].
  injection Hrun as <- <-.
  pose proof (assemble_Ok_fits _ _ _ Hasm) as Hfit.
  rewrite (assemble_fits order _ Hfit) in Hasm. injection Hasm as <-.
  apply order_parts_fit in Hfit as [He Hs].
  exists seq. split; [|done].
  cbn [fields order fmap list_fmap bits placeholder DateTimeField
       SequenceField packed_rec].
  unfold sum_bits. cbn [foldr].
  change (2 ^ (29 + (16 + 0))) with (2 ^ 45).
  change (2 ^ (16 + 0)) with (2 ^ 16). change (2 ^ 0) with 1. lia.
Qed.

Lemma instant_inj dt1 dt2 :
  valid_datetime dt1 → valid_datetime dt2 →
  instant dt1 = instant dt2 → dt1 = dt2.
Proof.
  intros H1 H2 Heq.
  rewrite <- (datetime_of_instant_instant dt1 H1).
  rewrite <- (datetime_of_instant_instant dt2 H2). by rewrite Heq.
Qed.

(** X25. The ids of ['order'] grow with time: of two ids, the second made
    when the clock is not earlier and with the counter of the first id's
    second as the first call left it, the second id is the larger one. *)
Theorem order_ids_increase w1 id1 w1' w2 id2 w2' :
  valid_datetime (now w1) → valid_datetime (now w2) →
  IdGenerator_generate order ∅ w1 = (Ok (VInt id1), w1') →
  IdGenerator_generate order ∅ w2 = (Ok (VInt id2), w2') →
  instant (now w1) ≤ instant (now w2) →
  cache_of w2 0%nat !! strftime "%Y-%m-%d %H:%M:%S" (now w1)
  = cache_of w1' 0%nat !! strftime "%Y-%m-%d %H:%M:%S" (now w1) →
  id1 < id2.
Proof.
  intros Hnow1 Hnow2 Hrun1 Hrun2 Hle Hkept.
  apply order_generate_Ok in Hrun1
    as (seq1 & -> & He1 & Hs1 & Hstored1 & _); [|done].
  apply order_generate_Ok in Hrun2
    as (seq2 & -> & He2 & Hs2 & _ & Hrange2); [|done].
  destruct (Z.eq_dec (instant (now w1)) (instant (now w2))) as [Heq|Hne].
  - apply instant_inj in Heq; [|done..]. rewrite <- Heq in *.
    rewrite Hkept, Hstored1 in Hrange2. lia.
  - lia.
Qed.

Lemma order_ids_increase_witness : 35184372416519 < 35184372416527.
Proof.
  apply (order_ids_increase fresh_world 35184372416519 first_world
           first_world 35184372416527
           (IdGenerator_generate order ∅ first_world).2
           fresh_world_now_valid fresh_world_now_valid
           order_first_generate).
  - vm_compute. reflexivity.
  - simpl. lia.
  - reflexivity.
Defined.
